(** * device-stream: the MJPEG frame framer, the per-device async mutex,
      the metadata constructor and the simulator stream relay.

    Shallow embedding of
    - [MjpegStreamClient] (the 'data' handler of [connect], [findJpegStart],
      [findJpegEnd], and the registry of streams with [connect],
      [disconnect], [disconnectAll] and the handlers of a request),
    - [packages/core/src/protocol.ts] ([createMetadataMessage], [AsyncMutex],
      [DeviceMutexManager]),
    - [packages/ios-simulator/src/stream-service.ts]
      ([SimulatorStreamService]). *)

From Stdlib Require Import ZArith Lia.
From Stdlib.Strings Require Import Byte.
From stdpp Require Import gmap strings list fin_maps sorting.

Local Open Scope nat_scope.

(* ===================================================================== *)
(** ** The frame framer of [MjpegStreamClient.connect]                    *)
(* ===================================================================== *)

Module Framer.

(** A Node [Buffer] is a sequence of bytes. *)
Abbreviation Buffer := (list byte).

(** The loop shared by [findJpegStart] and [findJpegEnd]:
    [for (i = i0; i < buffer.length - 1; i++)
       if (buffer[i] === 0xFF && buffer[i+1] === m) return i;
     return -1].
    [rest] is the part of the buffer from index [i] on; [None] is [-1]. *)
Fixpoint scanMarker (m : byte) (rest : Buffer) (i : nat) : option nat :=
  match rest with
  | a :: ((b :: _) as tl) =>
      if Byte.eqb a xff && Byte.eqb b m then Some i
      else scanMarker m tl (S i)
  | _ => None
  end.

Definition findJpegStart (buffer : Buffer) : option nat :=
  scanMarker xd8 buffer 0.

Definition findJpegEnd (buffer : Buffer) (startPos : nat) : option nat :=
  scanMarker xd9 (drop (startPos + 2) buffer) (startPos + 2).

(** [buffer.slice(a, b)], [buffer.slice(a)] and [buffer.slice(-2)] for
    non-negative [a], [b]; like [slice], [take] and [drop] clamp to the
    length of the buffer. *)
Definition slice (buffer : Buffer) (a b : nat) : Buffer :=
  take (b - a) (drop a buffer).

Definition sliceFrom (buffer : Buffer) (a : nat) : Buffer := drop a buffer.

Definition sliceLast2 (buffer : Buffer) : Buffer :=
  drop (length buffer - 2) buffer.

(** The three variables the 'data' handler closes over. *)
Record FramerState := mkFramer {
  buffer : Buffer;
  frameStarted : bool;
  frameStart : nat
}.

Definition initial : FramerState :=
  {| buffer := []; frameStarted := false; frameStart := 0 |}.

(** One pass through the body of [while (buffer.length > 0)]: it either
    leaves the loop by [break], or emits a frame and goes round again. *)
Inductive Outcome :=
| Break (st : FramerState)
| Emit (frame : Buffer) (st : FramerState).

(** [if (!frameStarted) { ... }]: [inr] is the [break] of the else branch. *)
Definition seekStart (st : FramerState) : FramerState + FramerState :=
  if frameStarted st then inl st
  else match findJpegStart (buffer st) with
       | Some jpegStart =>
           inl {| buffer := buffer st; frameStarted := true;
                  frameStart := jpegStart |}
       | None =>
           inr (if 2 <? length (buffer st)
                then {| buffer := sliceLast2 (buffer st);
                        frameStarted := false;
                        frameStart := frameStart st |}
                else st)
       end.

(** [if (frameStarted) { ... }] *)
Definition seekEnd (st : FramerState) : Outcome :=
  match findJpegEnd (buffer st) (frameStart st) with
  | Some jpegEnd =>
      Emit (slice (buffer st) (frameStart st) (jpegEnd + 2))
           {| buffer := sliceFrom (buffer st) (jpegEnd + 2);
              frameStarted := false;
              frameStart := frameStart st |}
  | None => Break st
  end.

Definition iteration (st : FramerState) : Outcome :=
  match seekStart st with
  | inr st' => Break st'
  | inl st' => seekEnd st'
  end.

(** The while loop, with the frames emitted in order.  Every round that
    does not leave the loop shortens the buffer, so [length buffer] rounds
    are enough (lemma [drain_fuel] below). *)
Fixpoint drain (fuel : nat) (st : FramerState) : FramerState * list Buffer :=
  match fuel with
  | 0 => (st, [])
  | S fuel' =>
      match buffer st with
      | [] => (st, [])
      | _ :: _ =>
          match iteration st with
          | Break st' => (st', [])
          | Emit frame st' =>
              let '(st'', frames) := drain fuel' st' in (st'', frame :: frames)
          end
      end
  end.

(** [res.on('data', chunk => ...)] *)
Definition onData (st : FramerState) (chunk : Buffer)
  : FramerState * list Buffer :=
  let st0 := {| buffer := buffer st ++ chunk;
                frameStarted := frameStarted st;
                frameStart := frameStart st |} in
  drain (length (buffer st0)) st0.

(** A stream delivered as a list of chunks. *)
Fixpoint feed (st : FramerState) (chunks : list Buffer)
  : FramerState * list Buffer :=
  match chunks with
  | [] => (st, [])
  | chunk :: chunks' =>
      let '(st1, frames1) := onData st chunk in
      let '(st2, frames2) := feed st1 chunks' in
      (st2, frames1 ++ frames2)
  end.

Definition emitted (chunks : list Buffer) : list Buffer :=
  (feed initial chunks).2.

(** The loop as the source has it, as a big-step relation. *)
Inductive whileLoop : FramerState -> FramerState -> list Buffer -> Prop :=
| loop_exit st : buffer st = [] -> whileLoop st st []
| loop_break st st' :
    buffer st <> [] -> iteration st = Break st' -> whileLoop st st' []
| loop_emit st frame st' st'' frames :
    buffer st <> [] -> iteration st = Emit frame st' ->
    whileLoop st' st'' frames -> whileLoop st st'' (frame :: frames).

(** *** Notions used to state the framer's properties *)

(** The bytes still to be parsed: in a started state, what lies before
    [frameStart] is never read again. *)
Definition pending (st : FramerState) : Buffer :=
  if frameStarted st then drop (frameStart st) (buffer st) else buffer st.

(** In a started state [frameStart] points at a start marker. *)
Definition wellFormed (st : FramerState) : Prop :=
  frameStarted st = true →
  ∃ post, drop (frameStart st) (buffer st) = xff :: xd8 :: post.

Definition fresh (p : Buffer) : FramerState :=
  {| buffer := p; frameStarted := false; frameStart := 0 |}.

Definition observe (r : FramerState * list Buffer) : Buffer * list Buffer :=
  (pending r.1, r.2).

(** The frames of a byte stream read declaratively: find the first start
    marker, then the first end marker at least two bytes later, cut the
    frame out and go on behind it.  The first component is what is still
    pending when the stream runs out. *)
Fixpoint parseN (fuel : nat) (p : Buffer) : Buffer * list Buffer :=
  match fuel with
  | 0 => (p, [])
  | S fuel' =>
      match findJpegStart p with
      | None => (sliceLast2 p, [])
      | Some j =>
          match findJpegEnd p j with
          | None => (drop j p, [])
          | Some k =>
              let '(q, frames) := parseN fuel' (drop (k + 2) p) in
              (q, slice p j (k + 2) :: frames)
          end
      end
  end.

Definition parse (p : Buffer) : Buffer * list Buffer := parseN (length p) p.

(** [Tiled frames s]: the frames are disjoint contiguous slices of [s], in
    order of emission, with gaps between them. *)
Inductive Tiled : list Buffer → Buffer → Prop :=
| tiled_nil s : Tiled [] s
| tiled_cons gap f fs rest :
    Tiled fs rest → Tiled (f :: fs) (gap ++ f ++ rest).

(** A frame that starts with FFD8 and ends with FFD9, the two markers not
    overlapping. *)
Definition Framed (f : Buffer) : Prop :=
  ∃ body, f = xff :: xd8 :: body ++ [xff; xd9].

(** *** Streams of whole images *)

(** A frame whose only end marker, looked for from its third byte on, is
    its last two bytes. *)
Definition cleanFrame (f : Buffer) : Prop :=
  ∃ body, f = xff :: xd8 :: body ++ [xff; xd9]
          ∧ scanMarker xd9 (body ++ [xff; xd9]) 0 = Some (length body).

(** Bytes between two images (a multipart boundary and its headers): they
    hold no start marker and form none with the FF that follows them. *)
Definition gap (g : Buffer) : Prop := scanMarker xd8 (g ++ [xff]) 0 = None.

(** Images, each behind its gap, and what follows the last one. *)
Fixpoint multipart (parts : list (Buffer * Buffer)) (tail : Buffer) : Buffer :=
  match parts with
  | [] => tail
  | (g, f) :: parts' => g ++ f ++ multipart parts' tail
  end.

(** The two bytes [0xFF m] stand at index [i] of the buffer. *)
Definition markerAt (m : byte) (b : Buffer) (i : nat) : Prop :=
  b !! i = Some xff ∧ b !! (S i) = Some m.

End Framer.

(* ===================================================================== *)
(** ** The stream registry of [MjpegStreamClient]                         *)
(* ===================================================================== *)

Module Client.
Import Framer.

(** An [http.ClientRequest] made by [connect]: the device it streams, the
    variables its 'data' handler closes over, whether the response callback
    has registered the handlers of the response, and whether [destroy] was
    called on it. *)
Record Request := mkRequest {
  udid : string;
  framer : FramerState;
  responded : bool;
  destroyed : bool
}.

(** [this.emit(name, payload)] *)
Inductive Emitted :=
| EvConnected (udid : string)
| EvDisconnected (udid : string)
| EvFrame (udid : string) (data : Buffer)
| EvError (udid : string).

(** The client: [activeConnections] is a [Map], kept in insertion order;
    requests are named by their index in [requests]. *)
Record State := mkState {
  activeConnections : list (string * nat);
  requests : list Request;
  events : list Emitted
}.

Definition init : State :=
  {| activeConnections := []; requests := []; events := [] |}.

(** [Map.get], [Map.has], [Map.set], [Map.delete] and [Map.keys] *)
Fixpoint mapGet (k : string) (m : list (string * nat)) : option nat :=
  match m with
  | [] => None
  | (k', v) :: m' => if decide (k' = k) then Some v else mapGet k m'
  end.

Definition mapHas (k : string) (m : list (string * nat)) : bool :=
  match mapGet k m with Some _ => true | None => false end.

Fixpoint mapSet (k : string) (v : nat) (m : list (string * nat))
  : list (string * nat) :=
  match m with
  | [] => [(k, v)]
  | (k', v') :: m' =>
      if decide (k' = k) then (k', v) :: m' else (k', v') :: mapSet k v m'
  end.

Definition mapDelete (k : string) (m : list (string * nat))
  : list (string * nat) :=
  filter (λ kv, kv.1 ≠ k) m.

Definition mapKeys (m : list (string * nat)) : list string := m.*1.

Definition emit (e : list Emitted) (s : State) : State :=
  {| activeConnections := activeConnections s; requests := requests s;
     events := events s ++ e |}.

Definition deleteConnection (u : string) (s : State) : State :=
  {| activeConnections := mapDelete u (activeConnections s);
     requests := requests s; events := events s |}.

(** [req.destroy()] *)
Definition destroy (r : nat) (s : State) : State :=
  {| activeConnections := activeConnections s;
     requests := alter (λ q, {| udid := udid q; framer := framer q;
                                responded := responded q;
                                destroyed := true |}) r (requests s);
     events := events s |}.

(** [connect(udid)] up to its return: the request is made and registered;
    its callbacks run later. *)
Definition connect (u : string) (s : State) : State :=
  if mapHas u (activeConnections s) then s
  else
    emit [EvConnected u]
      {| activeConnections :=
           mapSet u (length (requests s)) (activeConnections s);
         requests := requests s ++ [{| udid := u; framer := initial;
                                       responded := false;
                                       destroyed := false |}];
         events := events s |}.

(** [disconnect(udid)] *)
Definition disconnect (u : string) (s : State) : State :=
  match mapGet u (activeConnections s) with
  | Some r => emit [EvDisconnected u] (deleteConnection u (destroy r s))
  | None => s
  end.

(** [disconnectAll()] *)
Definition disconnectAll (s : State) : State :=
  foldl (λ acc u, disconnect u acc) s (mapKeys (activeConnections s)).

Definition isConnected (u : string) (s : State) : bool :=
  mapHas u (activeConnections s).

Definition getActiveStreamCount (s : State) : nat :=
  length (activeConnections s).

(** The callback of [http.get], which runs once for a request: on a status
    other than 200 it emits an error and registers nothing. *)
Definition onResponse (r : nat) (status : nat) (s : State) : option State :=
  q ← requests s !! r;
  if responded q then None
  else if decide (status = 200) then
    Some {| activeConnections := activeConnections s;
            requests := <[r := {| udid := udid q; framer := initial;
                                  responded := true;
                                  destroyed := destroyed q |}]> (requests s);
            events := events s |}
  else Some (emit [EvError (udid q)] s).

(** [res.on('data')]: the framer of this request, one 'frame' event for
    each image it emits. *)
Definition onResData (r : nat) (chunk : Buffer) (s : State) : option State :=
  q ← requests s !! r;
  if responded q then
    let '(st, frames) := onData (framer q) chunk in
    Some (emit (EvFrame (udid q) <$> frames)
            {| activeConnections := activeConnections s;
               requests := <[r := {| udid := udid q; framer := st;
                                     responded := responded q;
                                     destroyed := destroyed q |}]> (requests s);
               events := events s |})
  else None.

(** [res.on('end')] *)
Definition onResEnd (r : nat) (s : State) : option State :=
  q ← requests s !! r;
  if responded q
  then Some (emit [EvDisconnected (udid q)] (deleteConnection (udid q) s))
  else None.

(** [res.on('error')] *)
Definition onResError (r : nat) (s : State) : option State :=
  q ← requests s !! r;
  if responded q
  then Some (emit [EvError (udid q)] (deleteConnection (udid q) s))
  else None.

(** [req.on('error')] *)
Definition onReqError (r : nat) (s : State) : option State :=
  q ← requests s !! r;
  Some (emit [EvError (udid q)] (deleteConnection (udid q) s)).

(** [req.on('timeout')] *)
Definition onReqTimeout (r : nat) (s : State) : option State :=
  q ← requests s !! r;
  Some (emit [EvError (udid q)] (deleteConnection (udid q) (destroy r s))).

(** What can happen to the client. *)
Inductive Event :=
| Connect (u : string)
| Disconnect (u : string)
| DisconnectAll
| Response (r : nat) (status : nat)
| ResData (r : nat) (chunk : Buffer)
| ResEnd (r : nat)
| ResError (r : nat)
| ReqError (r : nat)
| ReqTimeout (r : nat).

Definition step (s : State) (ev : Event) : option State :=
  match ev with
  | Connect u => Some (connect u s)
  | Disconnect u => Some (disconnect u s)
  | DisconnectAll => Some (disconnectAll s)
  | Response r status => onResponse r status s
  | ResData r chunk => onResData r chunk s
  | ResEnd r => onResEnd r s
  | ResError r => onResError r s
  | ReqError r => onReqError r s
  | ReqTimeout r => onReqTimeout r s
  end.

Fixpoint run (s : State) (evs : list Event) : option State :=
  match evs with
  | [] => Some s
  | ev :: evs' => s' ← step s ev; run s' evs'
  end.

(** *** Notions used to state the properties *)

(** The chunks the trace delivers to request [r]. *)
Fixpoint chunksOf (r : nat) (evs : list Event) : list Buffer :=
  match evs with
  | [] => []
  | ResData r' chunk :: evs' =>
      if decide (r' = r) then chunk :: chunksOf r evs' else chunksOf r evs'
  | _ :: evs' => chunksOf r evs'
  end.

(** The images of the 'frame' events for device [u]. *)
Fixpoint framesFor (u : string) (es : list Emitted) : list Buffer :=
  match es with
  | [] => []
  | EvFrame u' data :: es' =>
      if decide (u' = u) then data :: framesFor u es' else framesFor u es'
  | _ :: es' => framesFor u es'
  end.

(** The registry as a [Map] keeps it: one entry for a device, each for a
    request of that device that was not destroyed. *)
Definition registered (s : State) : Prop :=
  NoDup (mapKeys (activeConnections s))
  ∧ ∀ u r, (u, r) ∈ activeConnections s →
      ∃ q, requests s !! r = Some q ∧ udid q = u ∧ destroyed q = false.

(** What the framing of a request depends on. *)
Definition core (q : Request) : string * FramerState * bool :=
  (udid q, framer q, responded q).

(** The requests and the 'frame' events follow the chunks of the trace:
    each request holds the framer state its own chunks lead to, and a
    device served by one request has the frames of that request's chunks. *)
Definition tracksOn (evs : list Event)
    (cs : list (string * FramerState * bool)) (F : string → list Buffer)
  : Prop :=
  (∀ r u st b, cs !! r = Some (u, st, b) →
     st = (feed initial (chunksOf r evs)).1
     ∧ (b = false → chunksOf r evs = []))
  ∧ (∀ r, length cs ≤ r → chunksOf r evs = [])
  ∧ (∀ u r st b, cs !! r = Some (u, st, b) →
       (∀ r' u' st' b', cs !! r' = Some (u', st', b') → u' = u → r' = r) →
       F u = (feed initial (chunksOf r evs)).2)
  ∧ (∀ u, (∀ r u' st b, cs !! r = Some (u', st, b) → u' ≠ u) → F u = []).

Definition tracks (evs : list Event) (s : State) : Prop :=
  tracksOn evs (core <$> requests s) (λ u, framesFor u (events s)).

End Client.

(* ===================================================================== *)
(** ** [AsyncMutex] and [DeviceMutexManager] of protocol.ts               *)
(* ===================================================================== *)

Module Mutex.

(** How the promise returned by an operation [fn : () => Promise<T>]
    settles.  A synchronous throw of [fn] inside the [try] of [withLock] is
    a rejection of [withLock]'s promise as well. *)
Inductive Outcome (T E : Type) : Type :=
| Resolved (v : T)
| Rejected (e : E).
Arguments Resolved {T E} v.
Arguments Rejected {T E} e.

(** [try { return await fn() } finally { fin }]: the completion of the body
    stands unless the finalizer throws. *)
Definition tryFinally {T E} (body : Outcome T E) (finalizer : option E)
  : Outcome T E :=
  match finalizer with
  | None => body
  | Some e => Rejected e
  end.

(** Where one activation of [withLock] stands. *)
Inductive Pc (T E : Type) : Type :=
| Waiting   (* at [await this.acquire()], its [resolve] in the waitQueue *)
| Granted   (* the promise of [acquire] is resolved, the continuation has
               not run yet *)
| Running   (* at [await fn()] *)
| Settled (o : Outcome T E).   (* [finally] has run, the promise of
                                  [withLock] is settled *)
Arguments Waiting {T E}.
Arguments Granted {T E}.
Arguments Running {T E}.
Arguments Settled {T E} o.

(** The fields of an [AsyncMutex] object.  An entry of [waitQueue] is the
    [resolve] callback of the promise one activation of [withLock] awaits;
    it is named by that activation. *)
Record AsyncMutex := mkMutex {
  locked : bool;
  waitQueue : list nat
}.

Definition newAsyncMutex : AsyncMutex := {| locked := false; waitQueue := [] |}.

(** [acquire()], called by activation [t]: the new fields and whether the
    promise is resolved at once. *)
Definition acquire (m : AsyncMutex) (t : nat) : AsyncMutex * bool :=
  if negb (locked m)
  then ({| locked := true; waitQueue := waitQueue m |}, true)
  else ({| locked := locked m; waitQueue := waitQueue m ++ [t] |}, false).

(** [release()]: the new fields and the activation whose [resolve] was
    called, if any.  Nothing in it throws. *)
Definition release (m : AsyncMutex) : AsyncMutex * option nat :=
  match waitQueue m with
  | nextResolve :: rest =>
      ({| locked := locked m; waitQueue := rest |}, Some nextResolve)
  | [] => ({| locked := false; waitQueue := [] |}, None)
  end.

Definition isLocked (m : AsyncMutex) : bool := locked m.

Section Manager.
Context {T E : Type}.

(** An activation of [withDeviceLock]: the device it was called for, the
    mutex object [getMutex] gave it, and where it stands. *)
Record Task := mkTask {
  device : string;
  mutex : nat;
  pc : Pc T E
}.

(** The [DeviceMutexManager] with the [AsyncMutex] objects it created
    (objects are named by their index in [heap]) and all activations of
    [withDeviceLock] so far. *)
Record State := mkState {
  mutexes : gmap string nat;
  heap : list AsyncMutex;
  tasks : list Task
}.

Definition init : State := {| mutexes := ∅; heap := []; tasks := [] |}.

(** [getMutex(deviceId)] *)
Definition getMutex (deviceId : string) (s : State) : nat * State :=
  match mutexes s !! deviceId with
  | Some a => (a, s)
  | None =>
      (length (heap s),
       {| mutexes := <[deviceId := length (heap s)]> (mutexes s);
          heap := heap s ++ [newAsyncMutex];
          tasks := tasks s |})
  end.

(** [removeMutex(deviceId)] *)
Definition removeMutex (deviceId : string) (s : State) : State :=
  {| mutexes := delete deviceId (mutexes s);
     heap := heap s; tasks := tasks s |}.

Definition size (s : State) : nat := base.size (mutexes s).

Definition setPc (t : nat) (p : Pc T E) (ts : list Task) : list Task :=
  alter (λ tk, {| device := device tk; mutex := mutex tk; pc := p |}) t ts.

(** [withDeviceLock(deviceId, fn)] up to its first suspension: [getMutex],
    then [withLock] runs [acquire] and stops at the [await]. *)
Definition callWithDeviceLock (deviceId : string) (s : State) : option State :=
  let '(a, s1) := getMutex deviceId s in
  m ← heap s1 !! a;
  let '(m', now) := acquire m (length (tasks s1)) in
  Some {| mutexes := mutexes s1;
          heap := <[a := m']> (heap s1);
          tasks := tasks s1 ++ [{| device := deviceId; mutex := a;
                                   pc := if now then Granted else Waiting |}] |}.

(** The continuation after [await this.acquire()]: enter the [try] and call
    [fn]. *)
Definition resume (t : nat) (s : State) : option State :=
  tk ← tasks s !! t;
  match pc tk with
  | Granted => Some {| mutexes := mutexes s; heap := heap s;
                       tasks := setPc t Running (tasks s) |}
  | _ => None
  end.

(** The promise of [fn] settles with [o]: the [finally] block runs
    [release()], then the promise of [withLock] settles. *)
Definition finish (t : nat) (o : Outcome T E) (s : State) : option State :=
  tk ← tasks s !! t;
  match pc tk with
  | Running =>
      m ← heap s !! mutex tk;
      let '(m', next) := release m in
      let ts := setPc t (Settled (tryFinally o None)) (tasks s) in
      Some {| mutexes := mutexes s;
              heap := <[mutex tk := m']> (heap s);
              tasks := match next with
                       | Some w => setPc w Granted ts
                       | None => ts
                       end |}
  | _ => None
  end.

(** What can happen to the manager. *)
Inductive Event :=
| Call (deviceId : string)
| Resume (t : nat)
| Finish (t : nat) (o : Outcome T E)
| Remove (deviceId : string).

Definition step (s : State) (ev : Event) : option State :=
  match ev with
  | Call d => callWithDeviceLock d s
  | Resume t => resume t s
  | Finish t o => finish t o s
  | Remove d => Some (removeMutex d s)
  end.

Fixpoint run (s : State) (evs : list Event) : option State :=
  match evs with
  | [] => Some s
  | ev :: evs' => s' ← step s ev; run s' evs'
  end.

(** *** Notions used to state the properties *)

Definition isSettled (p : Pc T E) : bool :=
  match p with Settled _ => true | _ => false end.

(** The activation owns the lock: from the moment [acquire]'s promise is
    resolved for it until its [finally] has run. *)
Definition holding (p : Pc T E) : bool :=
  match p with Granted | Running => true | _ => false end.

(** No activation for [deviceId] is queued, holding or running. *)
Definition quiescent (deviceId : string) (s : State) : bool :=
  forallb (λ tk, negb (bool_decide (device tk = deviceId)) || isSettled (pc tk))
          (tasks s).

(** The caller's side of [removeMutex]: it is called only for a device with
    no operation queued or holding the lock. *)
Definition permitted (s : State) (ev : Event) : bool :=
  match ev with
  | Remove d => quiescent d s
  | _ => true
  end.

Fixpoint runPermitted (s : State) (evs : list Event) : option State :=
  match evs with
  | [] => Some s
  | ev :: evs' =>
      if permitted s ev then s' ← step s ev; runPermitted s' evs' else None
  end.

(** What holds of every state the manager can reach. *)
Record consistent (s : State) : Prop := {
  c_task_mutex : ∀ t tk, tasks s !! t = Some tk → mutex tk < length (heap s);
  c_map_mutex : ∀ d a, mutexes s !! d = Some a → a < length (heap s);
  c_unlocked : ∀ a m, heap s !! a = Some m → locked m = false →
    waitQueue m = []
    ∧ ∀ t tk, tasks s !! t = Some tk → mutex tk = a → holding (pc tk) = false;
  c_queue : ∀ a m, heap s !! a = Some m →
    NoDup (waitQueue m)
    ∧ ∀ w, w ∈ waitQueue m →
        ∃ tk, tasks s !! w = Some tk ∧ mutex tk = a ∧ pc tk = Waiting;
  c_exclusive : ∀ t1 t2 tk1 tk2,
    tasks s !! t1 = Some tk1 → tasks s !! t2 = Some tk2 →
    mutex tk1 = mutex tk2 →
    holding (pc tk1) = true → holding (pc tk2) = true → t1 = t2;
  c_registered : ∀ t tk, tasks s !! t = Some tk → isSettled (pc tk) = false →
    mutexes s !! device tk = Some (mutex tk);
  c_injective : ∀ d1 d2 a,
    mutexes s !! d1 = Some a → mutexes s !! d2 = Some a → d1 = d2;
  c_locked : ∀ a m, heap s !! a = Some m → locked m = true →
    ∃ t tk, tasks s !! t = Some tk ∧ mutex tk = a ∧ holding (pc tk) = true
}.

(** The waiters of every lock stand in its queue in the order of their
    calls, and every waiting activation stands in the queue of its lock. *)
Record queued (s : State) : Prop := {
  q_sorted : ∀ a m, heap s !! a = Some m → StronglySorted lt (waitQueue m);
  q_waiting : ∀ t tk, tasks s !! t = Some tk → pc tk = Waiting →
    ∃ m, heap s !! mutex tk = Some m ∧ t ∈ waitQueue m
}.

End Manager.

Arguments Task : clear implicits.
Arguments State : clear implicits.
Arguments Event : clear implicits.

End Mutex.

(* ===================================================================== *)
(** ** [createMetadataMessage] of protocol.ts                             *)
(* ===================================================================== *)

Module Protocol.

Local Open Scope Z_scope.

(** The string literal union ['h264' | 'mjpeg' | 'h265']. *)
Inductive CodecName := h264 | mjpeg | h265.

Definition codecNameString (c : CodecName) : string :=
  match c with h264 => "h264" | mjpeg => "mjpeg" | h265 => "h265" end.

(** [CODEC] and [CODEC_NAME] *)
Definition CODEC (c : CodecName) : Z :=
  match c with h264 => 0 | mjpeg => 1 | h265 => 2 end.

Definition CODEC_NAME (id : Z) : option string :=
  if id =? 0 then Some "h264"
  else if id =? 1 then Some "mjpeg"
  else if id =? 2 then Some "h265"
  else None.

(** What reading a property of an object literal yields: an own property,
    a member inherited from [Object.prototype], or [undefined]. *)
Inductive JsValue :=
| JsNumber (n : Z)
| JsInherited (name : string)
| JsUndefined.

Definition objectPrototypeKeys : list string :=
  ["constructor"; "hasOwnProperty"; "isPrototypeOf"; "propertyIsEnumerable";
   "toLocaleString"; "toString"; "valueOf"; "__proto__";
   "__defineGetter__"; "__defineSetter__"; "__lookupGetter__";
   "__lookupSetter__"].

(** [obj[key]] for an object literal with numeric own properties. *)
Fixpoint ownProperty (obj : list (string * Z)) (key : string) : option Z :=
  match obj with
  | [] => None
  | (k, v) :: rest => if String.eqb k key then Some v else ownProperty rest key
  end.

Definition getProperty (obj : list (string * Z)) (key : string) : JsValue :=
  match ownProperty obj key with
  | Some v => JsNumber v
  | None =>
      if existsb (String.eqb key) objectPrototypeKeys then JsInherited key
      else JsUndefined
  end.

(** [const codecMap = { h264: 0, mjpeg: 1, h265: 2 }] *)
Definition codecMap : list (string * Z) :=
  [("h264", 0); ("mjpeg", 1); ("h265", 2)].

(** The interface [MetadataMessage]; numbers are passed through untouched
    and integers stand for them. *)
Record MetadataMessage := mkMetadataMessage {
  type : string;
  codec : JsValue;
  codecName : string;
  width : Z;
  height : Z;
  fps : option Z
}.

(** How a call completes: by [return] or by [throw]. *)
Inductive Completion (A : Type) :=
| Returned (a : A)
| Thrown (error : string).
Arguments Returned {A} a.
Arguments Thrown {A} error.

(** [createMetadataMessage] as it runs, on whatever string reaches it.  The
    body has no [throw]. *)
Definition createMetadataMessage
    (codec : string) (width height : Z) (fps : option Z)
  : Completion MetadataMessage :=
  Returned {| type := "metadata";
              codec := getProperty codecMap codec;
              codecName := codec;
              width := width;
              height := height;
              fps := fps |}.

End Protocol.

(* ===================================================================== *)
(** ** [SimulatorStreamService] of stream-service.ts                      *)
(* ===================================================================== *)

Module Relay.

Local Open Scope Z_scope.

(** [WebSocket.readyState] *)
Inductive ReadyState := CONNECTING | OPEN | CLOSING | CLOSED.

Definition isOpen (r : ReadyState) : bool :=
  match r with OPEN => true | _ => false end.

(** [SimulatorMetadata]; numbers are passed through untouched and integers
    stand for them. *)
Record SimulatorMetadata := mkMeta {
  width : Z;
  height : Z;
  fps : Z
}.

(** A message as [JSON.parse] delivers it to [handleDeviceMessage] or
    [handleBrowserMessage], told apart by its [type]. *)
Inductive Message :=
| MMetadata (meta : SimulatorMetadata)
| MFrame (data : string) (pts : Z)
| MCommand (payload : string)
| MRequestMetadata
| MOther (type : string).

(** What the service writes to a socket. *)
Inductive Envelope :=
| EMetadata (codec : Z) (codecName : string) (meta : SimulatorMetadata)
    (* {type:'metadata', codec, codecName, ...conn.metadata} *)
| EDeviceDisconnected (deviceId : string)
| EPing (timestamp : Z)
| EForward (msg : Message).   (* JSON.stringify(msg) *)

(** The closures the service registers with [ws.on]. *)
Inductive Listener :=
| DeviceMessage (deviceId : string)
| DeviceClose (deviceId : string)
| BrowserMessage (deviceId : string) (ws : nat)
| BrowserClose (deviceId : string) (browsers : nat) (ws : nat)
    (* closes over [conn]; it reads nothing of it but [conn.browsers] *)
| ClearInterval (timer : nat).

(** A [WebSocket] object: its state, what was written to it, oldest first,
    and its listeners in the order of registration. *)
Record Socket := mkSocket {
  readyState : ReadyState;
  sent : list Envelope;
  onMessage : list Listener;
  onClose : list Listener
}.

(** [SimulatorConnection].  [browsers] names a [Set] object: the object is
    shared between the connection records that [handleDeviceConnection]
    creates one after the other and the close listeners of the browsers. *)
Record SimulatorConnection := mkConn {
  device : nat;
  browsers : nat;
  metadata : option SimulatorMetadata;
  lastFrameTime : Z;
  frameCount : Z
}.

Inductive TimerCallback :=
| EvictCallback (deviceId : string)   (* the [setTimeout] of the browser's
                                         close listener *)
| PingCallback (ws : nat).            (* the [setInterval] of
                                         [startPingInterval] *)

(** A pending [setTimeout] ([period = None]) or [setInterval]. *)
Record Timer := mkTimer {
  due : Z;
  callback : TimerCallback;
  period : option Z;
  live : bool
}.

(** The service and the objects it works on.  Sockets and [Set] objects
    are named by numbers; [nextSet] is the name [new Set()] gives next;
    timers are named by their index. *)
Record World := mkWorld {
  sockets : nat → Socket;
  sets : nat → list nat;
  nextSet : nat;
  connections : gmap string SimulatorConnection;
  pollingIntervals : gmap string nat;
  timers : list Timer;
  now : Z
}.

(** A socket as the server hands it over: open, nothing written, no
    listeners. *)
Definition freshSocket : Socket :=
  {| readyState := OPEN; sent := []; onMessage := []; onClose := [] |}.

Definition startWorld : World :=
  {| sockets := λ _, freshSocket; sets := λ _, []; nextSet := 0;
     connections := ∅; pollingIntervals := ∅; timers := []; now := 0 |}.

(** *** Objects *)

Definition update {A} (i : nat) (f : A → A) (h : nat → A) : nat → A :=
  λ j, if decide (j = i) then f (h j) else h j.

Definition setSockets (f : (nat → Socket) → nat → Socket) (w : World) : World :=
  {| sockets := f (sockets w); sets := sets w; nextSet := nextSet w;
     connections := connections w; pollingIntervals := pollingIntervals w;
     timers := timers w; now := now w |}.

Definition setConnections
    (f : gmap string SimulatorConnection → gmap string SimulatorConnection)
    (w : World) : World :=
  {| sockets := sockets w; sets := sets w; nextSet := nextSet w;
     connections := f (connections w); pollingIntervals := pollingIntervals w;
     timers := timers w; now := now w |}.

Definition setTimers (f : list Timer → list Timer) (w : World) : World :=
  {| sockets := sockets w; sets := sets w; nextSet := nextSet w;
     connections := connections w; pollingIntervals := pollingIntervals w;
     timers := f (timers w); now := now w |}.

Definition setSets (f : (nat → list nat) → nat → list nat) (w : World) : World :=
  {| sockets := sockets w; sets := f (sets w); nextSet := nextSet w;
     connections := connections w; pollingIntervals := pollingIntervals w;
     timers := timers w; now := now w |}.

(** [ws.send(JSON.stringify(e))]: written when the socket is open.  (On a
    socket still connecting [send] throws; a socket the server hands over
    is never in that state.) *)
Definition wsSend (ws : nat) (e : Envelope) (w : World) : World :=
  setSockets (update ws (λ sk,
    if isOpen (readyState sk)
    then {| readyState := readyState sk; sent := sent sk ++ [e];
            onMessage := onMessage sk; onClose := onClose sk |}
    else sk)) w.

(** [ws.close()]: an open socket starts its closing handshake; its 'close'
    event comes later. *)
Definition wsClose (ws : nat) (w : World) : World :=
  setSockets (update ws (λ sk,
    if isOpen (readyState sk)
    then {| readyState := CLOSING; sent := sent sk;
            onMessage := onMessage sk; onClose := onClose sk |}
    else sk)) w.

Definition onMessageAdd (ws : nat) (l : Listener) (w : World) : World :=
  setSockets (update ws (λ sk,
    {| readyState := readyState sk; sent := sent sk;
       onMessage := onMessage sk ++ [l]; onClose := onClose sk |})) w.

Definition onCloseAdd (ws : nat) (l : Listener) (w : World) : World :=
  setSockets (update ws (λ sk,
    {| readyState := readyState sk; sent := sent sk;
       onMessage := onMessage sk; onClose := onClose sk ++ [l] |})) w.

(** [new Set()] *)
Definition newSet (w : World) : nat * World :=
  (nextSet w,
   {| sockets := sockets w; sets := update (nextSet w) (λ _, []) (sets w);
      nextSet := S (nextSet w);
      connections := connections w; pollingIntervals := pollingIntervals w;
      timers := timers w; now := now w |}).

(** [set.add(x)] and [set.delete(x)]; a [Set] keeps insertion order. *)
Definition setAdd (x : nat) (l : list nat) : list nat :=
  if bool_decide (x ∈ l) then l else l ++ [x].

Definition setDelete (x : nat) (l : list nat) : list nat :=
  filter (λ y, y ≠ x) l.

(** [clearInterval(id)] *)
Definition clearInterval (id : nat) (w : World) : World :=
  setTimers (alter (λ tm, {| due := due tm; callback := callback tm;
                             period := period tm; live := false |}) id) w.

(** [browsers.forEach(b => { if (b.readyState === OPEN) b.send(e) })] *)
Definition broadcast (targets : list nat) (e : Envelope) (w : World) : World :=
  foldl (λ acc b,
           if isOpen (readyState (sockets acc b)) then wsSend b e acc else acc)
        w targets.

(** The envelope built at the three places that send metadata. *)
Definition metadataEnvelope (meta : SimulatorMetadata) : Envelope :=
  EMetadata 1 "mjpeg" meta.

(** *** The service *)

Definition stopPollingFallback (deviceId : string) (w : World) : World :=
  match pollingIntervals w !! deviceId with
  | Some interval =>
      let w := clearInterval interval w in
      {| sockets := sockets w; sets := sets w; nextSet := nextSet w;
         connections := connections w;
         pollingIntervals := delete deviceId (pollingIntervals w);
         timers := timers w; now := now w |}
  | None => w
  end.

Definition startPingInterval (ws : nat) (deviceId : string) (w : World) : World :=
  let pingInterval := length (timers w) in
  let w := setTimers (λ ts, ts ++ [{| due := now w + 30000;
                                      callback := PingCallback ws;
                                      period := Some 30000;
                                      live := true |}]) w in
  onCloseAdd ws (ClearInterval pingInterval) w.

Definition handleDeviceConnection (ws : nat) (deviceId : string) (w : World)
  : World :=
  let w := stopPollingFallback deviceId w in
  let existing := connections w !! deviceId in
  let w := match existing with
           | Some ex =>
               if isOpen (readyState (sockets w (device ex)))
               then wsClose (device ex) w else w
           | None => w
           end in
  let '(browsersSet, w) := match existing with
                           | Some ex => (browsers ex, w)
                           | None => newSet w
                           end in
  let w := setConnections
             (insert deviceId {| device := ws; browsers := browsersSet;
                                 metadata := None;
                                 lastFrameTime := now w;
                                 frameCount := 0 |}) w in
  let w := onMessageAdd ws (DeviceMessage deviceId) w in
  let w := onCloseAdd ws (DeviceClose deviceId) w in
  startPingInterval ws deviceId w.

Definition handleBrowserConnection (ws : nat) (deviceId : string) (w : World)
  : World :=
  let '(conn, w) :=
    match connections w !! deviceId with
    | Some conn => (conn, w)
    | None =>
        let '(browsersSet, w) := newSet w in
        let conn := {| device := ws; browsers := browsersSet;
                       metadata := None;
                       lastFrameTime := now w; frameCount := 0 |} in
        (conn, setConnections (insert deviceId conn) w)
    end in
  let w := setSets (update (browsers conn) (setAdd ws)) w in
  let w := match metadata conn with
           | Some meta => wsSend ws (metadataEnvelope meta) w
           | None => w
           end in
  let w := onMessageAdd ws (BrowserMessage deviceId ws) w in
  onCloseAdd ws (BrowserClose deviceId (browsers conn) ws) w.

Definition handleDeviceMessage (deviceId : string) (msg : Message) (w : World)
  : World :=
  match connections w !! deviceId with
  | None => w
  | Some conn =>
      match msg with
      | MMetadata meta =>
          let w := setConnections
                     (insert deviceId
                        {| device := device conn; browsers := browsers conn;
                           metadata := Some meta;
                           lastFrameTime := lastFrameTime conn;
                           frameCount := frameCount conn |}) w in
          broadcast (sets w (browsers conn)) (metadataEnvelope meta) w
      | MFrame _ _ =>
          let w := setConnections
                     (insert deviceId
                        {| device := device conn; browsers := browsers conn;
                           metadata := metadata conn;
                           lastFrameTime := now w;
                           frameCount := frameCount conn + 1 |}) w in
          broadcast (sets w (browsers conn)) (EForward msg) w
      | _ => w
      end
  end.

Definition handleBrowserMessage
    (deviceId : string) (msg : Message) (ws : nat) (w : World) : World :=
  match connections w !! deviceId with
  | None => w
  | Some conn =>
      match msg with
      | MCommand _ =>
          if isOpen (readyState (sockets w (device conn)))
          then wsSend (device conn) (EForward msg) w else w
      | MRequestMetadata =>
          match metadata conn with
          | Some meta => wsSend ws (metadataEnvelope meta) w
          | None => w
          end
      | _ => w
      end
  end.

Definition isDeviceConnected (deviceId : string) (w : World) : bool :=
  match connections w !! deviceId with
  | None => false
  | Some conn => isOpen (readyState (sockets w (device conn)))
  end.

(** The 'close' listener of [handleDeviceConnection]. *)
Definition deviceClosed (deviceId : string) (w : World) : World :=
  match connections w !! deviceId with
  | Some conn =>
      broadcast (sets w (browsers conn)) (EDeviceDisconnected deviceId) w
  | None => w
  end.

(** The 'close' listener of [handleBrowserConnection]; [browsersSet] is
    [conn.browsers] of the [conn] it closes over. *)
Definition browserClosed
    (deviceId : string) (browsersSet : nat) (ws : nat) (w : World) : World :=
  let w := setSets (update browsersSet (setDelete ws)) w in
  match sets w browsersSet with
  | [] =>
      setTimers (λ ts, ts ++ [{| due := now w + 30000;
                                 callback := EvictCallback deviceId;
                                 period := None;
                                 live := true |}]) w
  | _ :: _ => w
  end.

(** The callback of that [setTimeout]. *)
Definition evictIfEmpty (deviceId : string) (w : World) : World :=
  match connections w !! deviceId with
  | Some currentConn =>
      match sets w (browsers currentConn) with
      | [] => setConnections (delete deviceId) w
      | _ :: _ => w
      end
  | None => w
  end.

(** The callback of the [setInterval] of [startPingInterval]. *)
Definition pingTick (ws : nat) (self : nat) (w : World) : World :=
  if isOpen (readyState (sockets w ws))
  then wsSend ws (EPing (now w)) w
  else clearInterval self w.

(** *** Events *)

Definition runListener (msg : option Message) (l : Listener) (w : World)
  : World :=
  match l, msg with
  | DeviceMessage d, Some m => handleDeviceMessage d m w
  | BrowserMessage d ws, Some m => handleBrowserMessage d m ws w
  | DeviceClose d, None => deviceClosed d w
  | BrowserClose d s ws, None => browserClosed d s ws w
  | ClearInterval id, None => clearInterval id w
  | _, _ => w
  end.

Inductive Event :=
| DeviceConnects (ws : nat) (deviceId : string)
| BrowserConnects (ws : nat) (deviceId : string)
| Receives (ws : nat) (msg : option Message)   (* [None]: not JSON *)
| Closed (ws : nat)
| Advance (ms : Z)
| Fires (timer : nat).

Definition fire (k : nat) (w : World) : World :=
  match timers w !! k with
  | Some tm =>
      if live tm && (due tm <=? now w) then
        let w := setTimers (alter (λ tm,
                   match period tm with
                   | Some p => {| due := due tm + p; callback := callback tm;
                                  period := period tm; live := true |}
                   | None => {| due := due tm; callback := callback tm;
                                period := None; live := false |}
                   end) k) w in
        match callback tm with
        | EvictCallback d => evictIfEmpty d w
        | PingCallback ws => pingTick ws k w
        end
      else w
  | None => w
  end.

Definition step (w : World) (ev : Event) : World :=
  match ev with
  | DeviceConnects ws d => handleDeviceConnection ws d w
  | BrowserConnects ws d => handleBrowserConnection ws d w
  | Receives ws None => w
  | Receives ws (Some m) =>
      foldl (λ acc l, runListener (Some m) l acc) w (onMessage (sockets w ws))
  | Closed ws =>
      let w := setSockets (update ws (λ sk,
                 {| readyState := CLOSED; sent := sent sk;
                    onMessage := onMessage sk; onClose := onClose sk |})) w in
      foldl (λ acc l, runListener None l acc) w (onClose (sockets w ws))
  | Advance ms =>
      {| sockets := sockets w; sets := sets w; nextSet := nextSet w;
         connections := connections w; pollingIntervals := pollingIntervals w;
         timers := timers w; now := now w + Z.max 0 ms |}
  | Fires k => fire k w
  end.

Definition run (w : World) (evs : list Event) : World := foldl step w evs.

(** *** Notions used to state the properties *)

(** [w'] comes after [w]: on every socket, what was written is still
    there, followed by what has been written since. *)
Definition extends (w w' : World) : Prop :=
  ∀ x, ∃ more, sent (sockets w' x) = sent (sockets w x) ++ more.

(** The [Set] object of consumers each session of the registry holds. *)
Definition sessions (w : World) : gmap string nat :=
  browsers <$> connections w.

(** The consumer [ws] is attached for the device [d] after the events
    [evs]: it was handed to [handleBrowserConnection] for [d], and its
    socket has not closed since. *)
Definition attachedStep (ws : nat) (d : string) (b : bool) (ev : Event)
  : bool :=
  match ev with
  | BrowserConnects ws' d' =>
      if decide (ws' = ws ∧ d' = d) then true else b
  | Closed ws' => if decide (ws' = ws) then false else b
  | _ => b
  end.

Definition attached (evs : list Event) (ws : nat) (d : string) : bool :=
  foldl (attachedStep ws d) false evs.

(** How sessions, [Set] objects and close listeners hang together in the
    worlds the service reaches. *)
Record linked (w : World) : Prop := {
  l_nodup : ∀ i, NoDup (sets w i);
  l_fresh : ∀ d i, sessions w !! d = Some i → (i < nextSet w)%nat;
  l_own : ∀ d1 d2 i,
    sessions w !! d1 = Some i → sessions w !! d2 = Some i → d1 = d2;
  l_member : ∀ i ws, ws ∈ sets w i →
    ∃ d, sessions w !! d = Some i
         ∧ BrowserClose d i ws ∈ onClose (sockets w ws);
  l_listener : ∀ x d i ws,
    BrowserClose d i ws ∈ onClose (sockets w x) → ws = x;
  l_ping : ∀ k tm ws,
    timers w !! k = Some tm → callback tm = PingCallback ws →
    ClearInterval k ∈ onClose (sockets w ws)
}.

(** Timers keep their place and their callback, and a cleared timer stays
    cleared. *)
Definition ages (ts ts' : list Timer) : Prop :=
  (length ts ≤ length ts')%nat
  ∧ ∀ k tm tm', ts !! k = Some tm → ts' !! k = Some tm' →
      callback tm' = callback tm ∧ (live tm = false → live tm' = false).

Definition cleared (k : nat) (w : World) : Prop :=
  ∃ tm, timers w !! k = Some tm ∧ live tm = false.

(** Every pending eviction check for [d] among the timers is a one-shot
    timer that is due at [T] or later. *)
Definition checksFrom (d : string) (T : Z) (ts : list Timer) : Prop :=
  ∀ k tm, ts !! k = Some tm → callback tm = EvictCallback d →
          live tm = true → period tm = None ∧ T ≤ due tm.

End Relay.

(* ===================================================================== *)
(** ** Facts about the frame framer                                       *)
(* ===================================================================== *)

Section FramerFacts.
Import Framer.

Example framer_two_frames :
  emitted [[x00; xff; xd8; x01; xff]; [xd9; xff; xd8; xff; xd9; x07]]
  = [[xff; xd8; x01; xff; xd9]; [xff; xd8; xff; xd9]].
Proof. reflexivity. Qed.

(** *** The marker scan *)

Lemma scanMarker_offset m l i :
  scanMarker m l i = (λ x, x + i) <$> scanMarker m l 0.
Proof.
  revert i. induction l as [|a l IH]; intros i; [done|].
  destruct l as [|b tl]; [done|].
  change (scanMarker m (a :: b :: tl) i)
    with (if Byte.eqb a xff && Byte.eqb b m then Some i
          else scanMarker m (b :: tl) (S i)).
  change (scanMarker m (a :: b :: tl) 0)
    with (if Byte.eqb a xff && Byte.eqb b m then Some 0
          else scanMarker m (b :: tl) 1).
  destruct (Byte.eqb a xff && Byte.eqb b m); [done|].
  rewrite (IH (S i)), (IH 1).
  destruct (scanMarker m (b :: tl) 0); simpl; [f_equal; lia | done].
Qed.

Lemma scanMarker_cons m a b tl :
  scanMarker m (a :: b :: tl) 0 =
  if Byte.eqb a xff && Byte.eqb b m then Some 0
  else S <$> scanMarker m (b :: tl) 0.
Proof.
  change (scanMarker m (a :: b :: tl) 0)
    with (if Byte.eqb a xff && Byte.eqb b m then Some 0
          else scanMarker m (b :: tl) 1).
  destruct (Byte.eqb a xff && Byte.eqb b m); [done|].
  rewrite scanMarker_offset.
  destruct (scanMarker m (b :: tl) 0); simpl; [f_equal; lia | done].
Qed.

Lemma marker_test a b m :
  Byte.eqb a xff && Byte.eqb b m = true ↔ a = xff ∧ b = m.
Proof.
  rewrite andb_true_iff. split.
  - intros [Ha Hb]. split; by apply byte_dec_bl.
  - intros [-> ->]. split; by apply byte_dec_lb.
Qed.

(** A hit at [j] is a marker at [j]. *)
Lemma scanMarker_Some m l j :
  scanMarker m l 0 = Some j →
  ∃ pre post, l = pre ++ xff :: m :: post ∧ length pre = j.
Proof.
  revert j. induction l as [|a l IH]; intros j; [done|].
  destruct l as [|b tl]; [done|].
  rewrite scanMarker_cons.
  destruct (Byte.eqb a xff && Byte.eqb b m) eqn:T.
  - intros [= <-]. apply marker_test in T as [-> ->]. by exists [], tl.
  - destruct (scanMarker m (b :: tl) 0) as [j'|] eqn:E; [|done].
    intros [= <-]. destruct (IH j' eq_refl) as (pre & post & -> & <-).
    exists (a :: pre), post. by rewrite <- app_comm_cons.
Qed.

(** A hit is not lost when more bytes arrive. *)
Lemma scanMarker_app m l c j :
  scanMarker m l 0 = Some j → scanMarker m (l ++ c) 0 = Some j.
Proof.
  revert j. induction l as [|a l IH]; intros j; [done|].
  destruct l as [|b tl]; [done|].
  rewrite <- !app_comm_cons, !scanMarker_cons.
  destruct (Byte.eqb a xff && Byte.eqb b m); [done|].
  destruct (scanMarker m (b :: tl) 0) as [j'|] eqn:E; [|done].
  intros [= <-]. rewrite app_comm_cons. by rewrite (IH j' eq_refl).
Qed.

Lemma scanMarker_None_take m l n :
  scanMarker m l 0 = None → scanMarker m (take n l) 0 = None.
Proof.
  revert n. induction l as [|a l IH]; intros n; [by destruct n|].
  destruct l as [|b tl]; [by destruct n as [|[|n]]|].
  rewrite scanMarker_cons.
  destruct (Byte.eqb a xff && Byte.eqb b m) eqn:T; [done|].
  destruct (scanMarker m (b :: tl) 0) as [j'|] eqn:E; [done|]. intros _.
  destruct n as [|[|n]]; [done..|].
  change (take (S (S n)) (a :: b :: tl)) with (a :: b :: take n tl).
  rewrite scanMarker_cons, T.
  change (b :: take n tl) with (take (S n) (b :: tl)).
  by rewrite IH.
Qed.

(** The hit is the first marker: nothing before it. *)
Lemma scanMarker_first m l j :
  scanMarker m l 0 = Some j → scanMarker m (take (S j) l) 0 = None.
Proof.
  revert j. induction l as [|a l IH]; intros j; [done|].
  destruct l as [|b tl]; [done|].
  rewrite scanMarker_cons.
  destruct (Byte.eqb a xff && Byte.eqb b m) eqn:T.
  - by intros [= <-].
  - destruct (scanMarker m (b :: tl) 0) as [j'|] eqn:E; [|done].
    intros [= <-].
    change (take (S (S j')) (a :: b :: tl)) with (a :: take (S j') (b :: tl)).
    specialize (IH j' eq_refl).
    change (take (S j') (b :: tl)) with (b :: take j' tl) in *.
    by rewrite scanMarker_cons, T, IH.
Qed.

(** Bytes that hold no marker can be skipped. *)
Lemma scanMarker_skip m l i :
  scanMarker m (take (S i) l) 0 = None →
  scanMarker m l 0 = (λ x, x + i) <$> scanMarker m (drop i l) 0.
Proof.
  revert l. induction i as [|i IH]; intros l H.
  - rewrite drop_0. destruct (scanMarker m l 0); simpl; [f_equal; lia|done].
  - destruct l as [|a l]; [done|].
    destruct l as [|b tl]; [by destruct i|].
    change (take (S (S i)) (a :: b :: tl)) with (a :: b :: take i tl) in H.
    rewrite scanMarker_cons in H. rewrite scanMarker_cons.
    destruct (Byte.eqb a xff && Byte.eqb b m); [done|].
    change (b :: take i tl) with (take (S i) (b :: tl)) in H.
    destruct (scanMarker m (take (S i) (b :: tl)) 0) eqn:E; [done|].
    rewrite (IH _ E). change (drop (S i) (a :: b :: tl)) with (drop i (b :: tl)).
    destruct (scanMarker m (drop i (b :: tl)) 0); simpl; [f_equal; lia|done].
Qed.

(** *** One round of the loop *)

Lemma findJpegEnd_Some buf s k :
  findJpegEnd buf s = Some k →
  ∃ mid rest, drop (s + 2) buf = mid ++ xff :: xd9 :: rest
              ∧ k = s + 2 + length mid.
Proof.
  unfold findJpegEnd. rewrite scanMarker_offset.
  destruct (scanMarker xd9 (drop (s + 2) buf) 0) as [x|] eqn:E; [|done].
  intros [= <-]. apply scanMarker_Some in E as (mid & rest & -> & <-).
  exists mid, rest. split; [done|lia].
Qed.

Lemma findJpegEnd_bound buf s k :
  findJpegEnd buf s = Some k → s + 2 ≤ k ∧ k + 2 ≤ length buf.
Proof.
  intros (mid & rest & E & ->)%findJpegEnd_Some. split; [lia|].
  apply (f_equal length) in E. rewrite length_drop, length_app in E.
  simpl in E. lia.
Qed.

Lemma findJpegStart_bound buf j :
  findJpegStart buf = Some j → j + 2 ≤ length buf.
Proof.
  intros (pre & post & -> & <-)%scanMarker_Some.
  rewrite length_app. simpl. lia.
Qed.

Lemma seekEnd_emit st f st' :
  seekEnd st = Emit f st' → length (buffer st') < length (buffer st).
Proof.
  unfold seekEnd.
  destruct (findJpegEnd (buffer st) (frameStart st)) as [k|] eqn:E; [|done].
  intros [= <- <-]. apply findJpegEnd_bound in E. simpl.
  unfold sliceFrom. rewrite length_drop. lia.
Qed.

Lemma seekStart_inl st st' :
  seekStart st = inl st' → buffer st' = buffer st.
Proof.
  unfold seekStart. destruct (frameStarted st); [by intros [= <-]|].
  destruct (findJpegStart (buffer st)); [by intros [= <-]|done].
Qed.

Lemma iteration_emit st f st' :
  iteration st = Emit f st' → length (buffer st') < length (buffer st).
Proof.
  unfold iteration. destruct (seekStart st) as [st1|st1] eqn:E; [|done].
  intros H%seekEnd_emit. by rewrite (seekStart_inl _ _ E) in H.
Qed.

(** Fuel: [length buffer] rounds are enough, more change nothing. *)
Lemma drain_fuel n m st :
  length (buffer st) ≤ n → length (buffer st) ≤ m → drain n st = drain m st.
Proof.
  revert m st. induction n as [|n IH]; intros m st Hn Hm.
  - destruct (buffer st) eqn:B; [|simpl in Hn; lia].
    destruct m; [done|]. simpl. by rewrite B.
  - destruct m as [|m].
    + destruct (buffer st) eqn:B; [|simpl in Hm; lia]. simpl. by rewrite B.
    + simpl. destruct (buffer st) eqn:B; [done|].
      destruct (iteration st) as [st'|f st'] eqn:I; [done|].
      apply iteration_emit in I. rewrite B in *.
      rewrite (IH m st'); [done|lia..].
Qed.

(** The fuelled loop computes the while loop of the source. *)
Lemma drain_whileLoop n st :
  length (buffer st) ≤ n → whileLoop st (drain n st).1 (drain n st).2.
Proof.
  revert st. induction n as [|n IH]; intros st Hn.
  - apply loop_exit. simpl. destruct (buffer st); [done|simpl in Hn; lia].
  - simpl. destruct (buffer st) eqn:B; [by apply loop_exit|].
    destruct (iteration st) as [st'|f st'] eqn:I.
    + apply loop_break; [by rewrite B|done].
    + pose proof (iteration_emit _ _ _ I) as L. rewrite B in *.
      specialize (IH st'). destruct (drain n st') as [st'' fs]. simpl in *.
      eapply loop_emit; [by rewrite B|done|]. apply IH. lia.
Qed.

Lemma whileLoop_deterministic st st1 fs1 st2 fs2 :
  whileLoop st st1 fs1 → whileLoop st st2 fs2 → st1 = st2 ∧ fs1 = fs2.
Proof.
  intros H. revert st2 fs2.
  induction H as [st B|st st' B I|st f st' st'' fs B I H IH];
    intros st2 fs2 H2; inversion H2; subst; try done; try congruence.
  { split; congruence. }
  match goal with
  | I2 : iteration st = Emit _ ?b, W : whileLoop ?b _ _ |- _ =>
      assert (st' = b) as <- by congruence;
      destruct (IH _ _ W) as [-> ->]; split; congruence
  end.
Qed.

(** *** Only the pending bytes matter *)

Lemma pending_length st : length (pending st) ≤ length (buffer st).
Proof. unfold pending. destruct (frameStarted st); [rewrite length_drop|]; lia. Qed.

Lemma sliceLast2_short p : length p ≤ 2 → sliceLast2 p = p.
Proof. intros H. unfold sliceLast2. by replace (length p - 2) with 0 by lia. Qed.

Lemma iteration_cases st :
  wellFormed st →
  match findJpegStart (pending st) with
  | None =>
      ∃ st', iteration st = Break st' ∧ frameStarted st' = false
             ∧ buffer st' = sliceLast2 (pending st)
  | Some j =>
      match findJpegEnd (pending st) j with
      | None =>
          ∃ st', iteration st = Break st' ∧ wellFormed st'
                 ∧ frameStarted st' = true
                 ∧ pending st' = drop j (pending st)
      | Some k =>
          ∃ st', iteration st = Emit (slice (pending st) j (k + 2)) st'
                 ∧ frameStarted st' = false
                 ∧ buffer st' = drop (k + 2) (pending st)
      end
  end.
Proof.
  intros WF. destruct st as [buf [|] fs].
  - (* inside a frame *)
    destruct (WF eq_refl) as [post E]. unfold pending, iteration, seekStart.
    simpl in *. rewrite E.
    assert (findJpegStart (xff :: xd8 :: post) = Some 0) as -> by done.
    assert (drop (fs + 2) buf = post) as D.
    { by rewrite <- drop_drop, E. }
    unfold seekEnd, findJpegEnd. simpl buffer. simpl frameStart.
    rewrite D. change (drop (0 + 2) (xff :: xd8 :: post)) with post.
    rewrite (scanMarker_offset _ _ (fs + 2)), (scanMarker_offset _ _ (0 + 2)).
    destruct (scanMarker xd9 post 0) as [x|]; simpl.
    + exists {| buffer := sliceFrom buf (x + (fs + 2) + 2);
                frameStarted := false; frameStart := fs |}.
      split; [|split; [done|]].
      * f_equal. unfold slice. rewrite E, drop_0. f_equal. lia.
      * simpl. unfold sliceFrom. rewrite <- E, drop_drop. f_equal. lia.
    + eexists. split; [done|]. split; [done|]. split; [done|].
      unfold pending. simpl. by rewrite E.
  - (* looking for a start marker *)
    unfold pending, iteration, seekStart. simpl.
    destruct (findJpegStart buf) as [j|] eqn:S.
    + unfold seekEnd. simpl. destruct (findJpegEnd buf j) as [k|] eqn:En.
      * eexists. by split.
      * eexists. split; [done|]. split; [|done].
        intros _. simpl. apply scanMarker_Some in S as (pre & post & -> & <-).
        exists post. by rewrite drop_app_length.
    + destruct (2 <? length buf) eqn:L.
      * eexists. by split.
      * apply Nat.ltb_ge in L. eexists. split; [done|]. simpl.
        by rewrite sliceLast2_short.
Qed.

Lemma parseN_nil n : parseN n [] = ([], []).
Proof. by destruct n. Qed.

Lemma drain_parseN n m st :
  wellFormed st → length (buffer st) ≤ n → length (pending st) ≤ m →
  observe (drain n st) = parseN m (pending st).
Proof.
  revert m st. induction n as [|n IH]; intros m st WF Hn Hm.
  - pose proof (pending_length st).
    destruct (pending st) eqn:P; [|simpl in *; lia].
    rewrite parseN_nil. unfold observe. simpl. by rewrite P.
  - simpl. destruct (buffer st) as [|b0 buf'] eqn:B.
    { pose proof (pending_length st) as L. rewrite B in L.
      destruct (pending st) eqn:P; [|simpl in L; lia].
      rewrite parseN_nil. unfold observe. simpl. by rewrite P. }
    pose proof (iteration_cases st WF) as C.
    destruct m as [|m].
    { (* the pending bytes are not empty *)
      destruct (pending st) eqn:P; [|simpl in Hm; lia].
      unfold pending in P. destruct (frameStarted st) eqn:Fs.
      - destruct (WF Fs) as [post E]. by rewrite E in P.
      - by rewrite B in P. }
    simpl. destruct (findJpegStart (pending st)) as [j|].
    + destruct (findJpegEnd (pending st) j) as [k|] eqn:En.
      * destruct C as (st' & -> & Fs & Bf).
        apply findJpegEnd_bound in En.
        assert (pending st' = drop (k + 2) (pending st)) as P'.
        { unfold pending at 1. by rewrite Fs. }
        pose proof (pending_length st).
        specialize (IH m st'). rewrite P' in IH. unfold observe in *.
        rewrite <- IH.
        -- by destruct (drain n st').
        -- intros Fs'. congruence.
        -- rewrite Bf, length_drop. rewrite B in *. simpl in *. lia.
        -- rewrite length_drop. lia.
      * destruct C as (st' & -> & _ & _ & P'). unfold observe. simpl. by rewrite P'.
    + destruct C as (st' & -> & Fs & Bf). unfold observe, pending. simpl.
      by rewrite Fs, Bf.
Qed.

Lemma parseN_fuel n m p :
  length p ≤ n → length p ≤ m → parseN n p = parseN m p.
Proof.
  revert m p. induction n as [|n IH]; intros m p Hn Hm.
  - destruct p; [|simpl in Hn; lia]. by rewrite !parseN_nil.
  - destruct m as [|m].
    { destruct p; [|simpl in Hm; lia]. by rewrite !parseN_nil. }
    simpl. destruct (findJpegStart p) as [j|]; [|done].
    destruct (findJpegEnd p j) as [k|] eqn:En; [|done].
    apply findJpegEnd_bound in En.
    rewrite (IH m); [done|rewrite length_drop; lia..].
Qed.

(** The equation of [parse]. *)
Lemma parse_unfold p :
  parse p =
  match findJpegStart p with
  | None => (sliceLast2 p, [])
  | Some j =>
      match findJpegEnd p j with
      | None => (drop j p, [])
      | Some k => ((parse (drop (k + 2) p)).1,
                   slice p j (k + 2) :: (parse (drop (k + 2) p)).2)
      end
  end.
Proof.
  unfold parse. destruct p as [|a p]; [done|].
  simpl length. simpl parseN.
  destruct (findJpegStart (a :: p)) as [j|]; [|done].
  destruct (findJpegEnd (a :: p) j) as [k|] eqn:En; [|done].
  apply findJpegEnd_bound in En. simpl in En.
  rewrite (parseN_fuel (length p) (length (drop (k + 2) (a :: p))));
    [|rewrite length_drop; simpl; lia..].
  by destruct (parseN _ _).
Qed.

Lemma drain_wellFormed n st : wellFormed st → wellFormed (drain n st).1.
Proof.
  revert st. induction n as [|n IH]; intros st WF; [done|].
  simpl. destruct (buffer st); [done|].
  pose proof (iteration_cases st WF) as C.
  destruct (findJpegStart (pending st)) as [j|].
  - destruct (findJpegEnd (pending st) j) as [k|].
    + destruct C as (st' & -> & Fs & _).
      assert (wellFormed st') as WF' by (intros ?; congruence).
      specialize (IH st' WF'). by destruct (drain n st').
    + by destruct C as (st' & -> & ? & _).
  - destruct C as (st' & -> & Fs & _). intros ?. simpl in *. congruence.
Qed.

(** What [onData] emits and leaves pending is [parse] of the pending bytes
    followed by the chunk. *)
Lemma onData_parse st chunk :
  wellFormed st →
  observe (onData st chunk) = parse (pending st ++ chunk)
  ∧ wellFormed (onData st chunk).1.
Proof.
  intros WF. unfold onData.
  set (st0 := {| buffer := buffer st ++ chunk;
                 frameStarted := frameStarted st;
                 frameStart := frameStart st |}).
  assert (pending st0 = pending st ++ chunk ∧ wellFormed st0) as [P WF0].
  { unfold pending, wellFormed, st0. simpl.
    destruct (frameStarted st) eqn:Fs; [|done].
    destruct (WF Fs) as [post E].
    assert (frameStart st ≤ length (buffer st)) as L.
    { apply (f_equal length) in E. rewrite length_drop in E. simpl in E. lia. }
    rewrite drop_app_le by done. split; [done|].
    intros _. exists (post ++ chunk). by rewrite E. }
  split; [|by apply drain_wellFormed].
  rewrite <- P. by apply drain_parseN.
Qed.

(** *** Splitting the stream *)

Lemma scanMarker_app_at m l c i k :
  scanMarker m l i = Some k → scanMarker m (l ++ c) i = Some k.
Proof.
  rewrite (scanMarker_offset m l), (scanMarker_offset m (l ++ c)).
  destruct (scanMarker m l 0) as [x|] eqn:E; [|done].
  by rewrite (scanMarker_app _ _ c _ E).
Qed.

Lemma findJpegEnd_app p c j k :
  findJpegEnd p j = Some k → findJpegEnd (p ++ c) j = Some k.
Proof.
  intros H. pose proof (findJpegEnd_bound _ _ _ H) as [? ?].
  unfold findJpegEnd in *. rewrite drop_app_le by lia.
  by apply scanMarker_app_at.
Qed.

Lemma slice_app p c a b : b ≤ length p → slice (p ++ c) a b = slice p a b.
Proof.
  intros H. unfold slice. destruct (decide (a ≤ length p)).
  - rewrite drop_app_le by done. apply take_app_le. rewrite length_drop. lia.
  - by replace (b - a) with 0 by lia.
Qed.

(** Leading bytes without a start marker do not change the parse. *)
Lemma parse_skip t i :
  scanMarker xd8 (take (S i) t) 0 = None → i + 2 ≤ length t →
  parse t = parse (drop i t).
Proof.
  intros H L. rewrite (parse_unfold t), (parse_unfold (drop i t)).
  unfold findJpegStart. rewrite (scanMarker_skip _ t i H).
  destruct (scanMarker xd8 (drop i t) 0) as [j|]; simpl.
  - unfold findJpegEnd. rewrite !drop_drop.
    replace (i + (j + 2)) with (j + i + 2) by lia.
    rewrite (scanMarker_offset _ _ (j + i + 2)), (scanMarker_offset _ _ (j + 2)).
    destruct (scanMarker xd9 (drop (j + i + 2) t) 0) as [x|]; simpl.
    + unfold slice. rewrite !drop_drop.
      replace (i + (x + (j + 2) + 2)) with (x + (j + i + 2) + 2) by lia.
      replace (x + (j + i + 2) + 2 - (j + i)) with (x + (j + 2) + 2 - j) by lia.
      by replace (i + j) with (j + i) by lia.
    + f_equal. f_equal. lia.
  - f_equal. unfold sliceLast2. rewrite drop_drop, length_drop. f_equal. lia.
Qed.

Lemma parse_app p c :
  parse (p ++ c) =
  ((parse ((parse p).1 ++ c)).1,
   (parse p).2 ++ (parse ((parse p).1 ++ c)).2).
Proof.
  remember (length p) as n eqn:Hn. revert p Hn.
  induction n as [n IH] using lt_wf_ind. intros p ->.
  rewrite (parse_unfold p).
  destruct (findJpegStart p) as [j|] eqn:S.
  - pose proof (findJpegStart_bound _ _ S) as Lj.
    destruct (findJpegEnd p j) as [k|] eqn:En; simpl.
    + pose proof (findJpegEnd_bound _ _ _ En) as [? ?].
      rewrite (parse_unfold (p ++ c)).
      unfold findJpegStart in *. rewrite (scanMarker_app _ _ c _ S).
      rewrite (findJpegEnd_app _ c _ _ En).
      rewrite slice_app, drop_app_le by lia.
      rewrite (IH (length (drop (k + 2) p))); [done| |done].
      rewrite length_drop. lia.
    + rewrite (parse_skip (p ++ c) j).
      * rewrite drop_app_le by lia. by destruct (parse _).
      * rewrite take_app_le by lia. by apply scanMarker_first.
      * rewrite length_app. lia.
  - simpl. destruct (decide (length p ≤ 2)) as [Sh|Lg].
    + rewrite sliceLast2_short by done. by destruct (parse _).
    + rewrite (parse_skip (p ++ c) (length p - 2)).
      * rewrite drop_app_le by lia. by destruct (parse _).
      * rewrite take_app_le by lia. by apply scanMarker_None_take.
      * rewrite length_app. lia.
Qed.

(** After a parse nothing more can be cut from the pending bytes alone. *)
Lemma parse_idemp x : parse (parse x).1 = ((parse x).1, []).
Proof.
  pose proof (parse_app x []) as H. rewrite !app_nil_r in H.
  destruct (parse x) as [q fs] eqn:E. simpl in *.
  destruct (parse q) as [q' fs'] eqn:E'. simpl in *.
  injection H as -> H. f_equal.
  apply (app_inv_head fs). by rewrite app_nil_r.
Qed.

Lemma feed_parse chunks st :
  wellFormed st → parse (pending st) = (pending st, []) →
  observe (feed st chunks) = parse (pending st ++ concat chunks).
Proof.
  revert st. induction chunks as [|c cs IH]; intros st WF Q.
  - simpl. by rewrite app_nil_r, Q.
  - simpl. destruct (onData_parse st c WF) as [O WF1].
    destruct (onData st c) as [st1 f1]. unfold observe in O. simpl in O, WF1.
    assert (pending st1 = (parse (pending st ++ c)).1) as P1 by by rewrite <- O.
    assert (f1 = (parse (pending st ++ c)).2) as F1 by by rewrite <- O.
    assert (parse (pending st1) = (pending st1, [])) as Q1.
    { rewrite P1. apply parse_idemp. }
    specialize (IH st1 WF1 Q1).
    destruct (feed st1 cs) as [st2 f2]. unfold observe in *. simpl in *.
    rewrite app_assoc, parse_app, <- P1, <- IH. simpl. by rewrite <- F1.
Qed.

Lemma emitted_parse chunks : emitted chunks = (parse (concat chunks)).2.
Proof.
  unfold emitted.
  pose proof (feed_parse chunks initial) as H. simpl in H.
  rewrite <- H; [done| by intros ? |done].
Qed.

(** C1. However a byte stream is cut into chunks, also inside a marker, the
    framer emits the same frames in the same order as when the whole stream
    arrives as one chunk.  This holds for every byte stream, so also for
    every stream of back-to-back JPEG images. *)
Theorem framer_chunking_invariant (chunks : list Buffer) :
  emitted chunks = emitted [concat chunks].
Proof.
  rewrite !emitted_parse. simpl. by rewrite app_nil_r.
Qed.

(** *** Completeness of the emitted frames *)

Lemma frame_shape p j k :
  findJpegStart p = Some j → findJpegEnd p j = Some k →
  Framed (slice p j (k + 2))
  ∧ p = take j p ++ slice p j (k + 2) ++ drop (k + 2) p.
Proof.
  intros S En. pose proof (findJpegEnd_bound _ _ _ En) as [? ?].
  apply scanMarker_Some in S as (pre & post & -> & <-).
  apply findJpegEnd_Some in En as (mid & rest & D & ->).
  rewrite <- drop_drop, drop_app_length in D. simpl in D. rewrite drop_0 in D. subst post.
  unfold slice. rewrite drop_app_length. split.
  - exists mid.
    replace (length pre + 2 + length mid + 2 - length pre)
      with (S (S (length mid + 2))) by lia.
    simpl. by rewrite take_app_add.
  - rewrite take_app_length. f_equal.
    rewrite <- (take_drop (length pre + 2 + length mid + 2 - length pre)
                  (xff :: xd8 :: mid ++ xff :: xd9 :: rest)) at 1.
    f_equal.
    rewrite <- (drop_app_length pre (xff :: xd8 :: mid ++ xff :: xd9 :: rest))
      at 1.
    rewrite drop_drop. f_equal. lia.
Qed.

Lemma parse_frames p : Tiled (parse p).2 p ∧ Forall Framed (parse p).2.
Proof.
  remember (length p) as n eqn:Hn. revert p Hn.
  induction n as [n IH] using lt_wf_ind. intros p ->.
  rewrite (parse_unfold p).
  destruct (findJpegStart p) as [j|] eqn:S; [|by split; constructor].
  destruct (findJpegEnd p j) as [k|] eqn:En; [|by split; constructor].
  pose proof (findJpegEnd_bound _ _ _ En) as [? ?].
  destruct (frame_shape _ _ _ S En) as [F D].
  destruct (IH (length (drop (k + 2) p))) with (p := drop (k + 2) p)
    as [T Fs]; [rewrite length_drop; lia|done|].
  simpl. split; [|by constructor].
  pose proof (tiled_cons (take j p) (slice p j (k + 2)) _ _ T) as T'.
  by rewrite <- D in T'.
Qed.

Lemma feed_app st before after :
  feed st (before ++ after) =
  ((feed (feed st before).1 after).1,
   (feed st before).2 ++ (feed (feed st before).1 after).2).
Proof.
  revert st. induction before as [|c cs IH]; intros st; simpl.
  - by destruct (feed st after).
  - destruct (onData st c) as [st1 f1]. rewrite IH.
    destruct (feed st1 cs) as [st2 f2]. simpl.
    destruct (feed st2 after) as [st3 f3]. simpl. by rewrite app_assoc.
Qed.

(** C6. At any moment, after the chunks [before], the frames emitted so far
    are disjoint contiguous slices of the bytes received so far, in order;
    each starts with FFD8 and ends with FFD9; and whatever arrives later
    only appends frames.  So no byte is emitted twice and no frame goes out
    before its end marker is in the accumulated buffer. *)
Theorem framer_frames_complete (before after : list Buffer) :
  Tiled (emitted before) (concat before)
  ∧ Forall Framed (emitted before)
  ∧ ∃ later, emitted (before ++ after) = emitted before ++ later.
Proof.
  split; [|split].
  - rewrite emitted_parse. apply parse_frames.
  - rewrite emitted_parse. apply parse_frames.
  - unfold emitted. rewrite feed_app. simpl. eauto.
Qed.

(** *** What is kept when no start marker is found *)

(** C7, as the claim states it, fails: the framer keeps two bytes. *)
Lemma framer_keeps_last_byte_counterexample :
  ¬ (∀ st st', frameStarted st = false →
               findJpegStart (buffer st) = None →
               iteration st = Break st' →
               buffer st' = drop (length (buffer st) - 1) (buffer st)).
Proof.
  intros H.
  specialize (H (mkFramer [x01; x02; x03] false 0)
                (mkFramer [x02; x03] false 0) eq_refl eq_refl eq_refl).
  discriminate H.
Qed.

(** C7, amended. Not inside a frame and with no start marker in the
    accumulated buffer, the loop emits nothing, stays outside a frame and
    keeps the last two bytes of the buffer (all of it when it has at most
    two bytes). *)
Theorem framer_keeps_last_two_bytes (st : FramerState) (fuel : nat) :
  frameStarted st = false →
  findJpegStart (buffer st) = None →
  let r := drain (S fuel) st in
  r.2 = []
  ∧ frameStarted r.1 = false
  ∧ buffer r.1 = drop (length (buffer st) - 2) (buffer st)
  ∧ length (buffer r.1) = length (buffer st) `min` 2.
Proof.
  intros Fs S r. subst r.
  assert (wellFormed st) as WF by (intros ?; congruence).
  pose proof (iteration_cases st WF) as C.
  assert (pending st = buffer st) as P by (unfold pending; by rewrite Fs).
  rewrite P, S in C. destruct C as (st' & I & Fs' & Bf).
  cbn [drain]. destruct (buffer st) as [|a tl] eqn:B.
  - cbn [fst snd]. by rewrite Fs, B.
  - rewrite I. cbn [fst snd]. rewrite Bf. unfold sliceLast2.
    split_and!; [done..|]. rewrite length_drop. lia.
Qed.

Lemma framer_keeps_last_two_bytes_witness :
  frameStarted (Framer.mkFramer [x01; x02; x03; xff] false 0) = false
  ∧ findJpegStart (buffer (Framer.mkFramer [x01; x02; x03; xff] false 0))
    = None
  ∧ buffer (drain 1 (Framer.mkFramer [x01; x02; x03; xff] false 0)).1
    = [x03; xff].
Proof.
  split; [reflexivity|]. split; [reflexivity|].
  exact (proj1 (proj2 (proj2
    (framer_keeps_last_two_bytes
       (Framer.mkFramer [x01; x02; x03; xff] false 0) 0 eq_refl eq_refl)))).
Defined.

End FramerFacts.

(* ===================================================================== *)
(** ** More about the frame framer                                        *)
(* ===================================================================== *)

Section FramerMore.
Import Framer.

(** X1. The loop of the 'data' handler terminates, with one result. *)
Theorem whileLoop_terminates (st : FramerState) :
  ∃ st' frames,
    whileLoop st st' frames
    ∧ ∀ st2 frames2, whileLoop st st2 frames2 → st2 = st' ∧ frames2 = frames.
Proof.
  exists (drain (length (buffer st)) st).1, (drain (length (buffer st)) st).2.
  assert (whileLoop st (drain (length (buffer st)) st).1
            (drain (length (buffer st)) st).2) as W
    by by apply drain_whileLoop.
  split; [done|]. intros st2 frames2 W2.
  by destruct (whileLoop_deterministic _ _ _ _ _ W2 W).
Qed.

Lemma scanMarker_take m l j :
  scanMarker m l 0 = Some j → scanMarker m (take (j + 2) l) 0 = Some j.
Proof.
  revert j. induction l as [|a l IH]; intros j; [done|].
  destruct l as [|b tl]; [done|].
  rewrite scanMarker_cons.
  destruct (Byte.eqb a xff && Byte.eqb b m) eqn:T.
  - intros [= <-]. change (take (0 + 2) (a :: b :: tl)) with [a; b].
    by rewrite scanMarker_cons, T.
  - destruct (scanMarker m (b :: tl) 0) as [j'|] eqn:E; [|done].
    intros [= <-].
    change (take (S j' + 2) (a :: b :: tl)) with (a :: take (j' + 2) (b :: tl)).
    specialize (IH j' eq_refl).
    replace (j' + 2) with (S (S j')) in * by lia.
    change (take (S (S j')) (b :: tl)) with (b :: take (S j') tl) in *.
    by rewrite scanMarker_cons, T, IH.
Qed.

Lemma frame_clean p j k :
  findJpegStart p = Some j → findJpegEnd p j = Some k →
  cleanFrame (slice p j (k + 2)).
Proof.
  intros S En.
  apply scanMarker_Some in S as (pre & post & -> & <-).
  unfold findJpegEnd in En. rewrite scanMarker_offset in En.
  rewrite <- drop_drop, drop_app_length in En. simpl in En. rewrite drop_0 in En.
  destruct (scanMarker xd9 post 0) as [x|] eqn:E; [|done].
  injection En as <-.
  pose proof (scanMarker_take _ _ _ E) as Tk.
  apply scanMarker_Some in E as (mid & rest & -> & <-).
  replace (length mid + 2) with (length mid + 2 + 0) in Tk by lia.
  rewrite <- Nat.add_assoc, take_app_add in Tk. simpl in Tk.
  unfold slice. rewrite drop_app_length. exists mid. split; [|done].
  replace (length mid + (length pre + 2) + 2 - length pre)
    with (S (S (length mid + 2))) by lia.
  simpl. by rewrite take_app_add.
Qed.

Lemma parse_clean p : Forall cleanFrame (parse p).2.
Proof.
  remember (length p) as n eqn:Hn. revert p Hn.
  induction n as [n IH] using lt_wf_ind. intros p ->.
  rewrite (parse_unfold p).
  destruct (findJpegStart p) as [j|] eqn:S; [|by constructor].
  destruct (findJpegEnd p j) as [k|] eqn:En; [|by constructor].
  pose proof (findJpegEnd_bound _ _ _ En) as [? ?].
  simpl. constructor; [by eapply frame_clean|].
  apply (IH (length (drop (k + 2) p))); [rewrite length_drop; lia|done].
Qed.

(** X2. Every emitted frame is cut at the first end marker behind its start
    marker: looked for from its third byte on, the only FFD9 in it is its
    last two bytes. *)
Theorem framer_cuts_at_first_end_marker (chunks : list Buffer) :
  Forall (λ f, cleanFrame f ∧ findJpegEnd f 0 = Some (length f - 2))
         (emitted chunks).
Proof.
  rewrite emitted_parse.
  eapply Forall_impl; [apply parse_clean|].
  intros f (body & -> & E). split; [by exists body|].
  unfold findJpegEnd. simpl. rewrite drop_0, scanMarker_offset, E. simpl.
  f_equal. rewrite length_app. simpl. lia.
Qed.

Lemma tiled_length fs s :
  Tiled fs s → Forall Framed fs → 4 * length fs ≤ length s.
Proof.
  induction 1 as [s|g f fs rest T IH]; intros F; [simpl; lia|].
  apply Forall_cons in F as [(body & ->) F]. specialize (IH F).
  rewrite !length_app. simpl. rewrite length_app. simpl. lia.
Qed.

(** X3. A frame takes at least four bytes of the stream: n bytes received give
    at most n/4 frames. *)
Theorem framer_frame_count_bound (chunks : list Buffer) :
  4 * length (emitted chunks) ≤ length (concat chunks).
Proof.
  rewrite emitted_parse. destruct (parse_frames (concat chunks)) as [T F].
  by apply tiled_length.
Qed.

(** *** Streams of whole images are recovered *)

Lemma parse_no_start tail :
  findJpegStart tail = None → (parse tail).2 = [].
Proof. intros H. by rewrite parse_unfold, H. Qed.

Lemma parse_clean_frame f rest :
  cleanFrame f →
  parse (f ++ rest) = ((parse rest).1, f :: (parse rest).2).
Proof.
  intros (body & -> & E). rewrite parse_unfold.
  assert (findJpegStart ((xff :: xd8 :: body ++ [xff; xd9]) ++ rest) = Some 0)
    as -> by done.
  assert (findJpegEnd ((xff :: xd8 :: body ++ [xff; xd9]) ++ rest) 0
          = Some (length body + 2)) as ->.
  { unfold findJpegEnd. simpl. rewrite drop_0.
    apply scanMarker_app_at. by rewrite scanMarker_offset, E. }
  assert (length (xff :: xd8 :: body ++ [xff; xd9]) = length body + 2 + 2) as L.
  { simpl. rewrite length_app. simpl. lia. }
  unfold slice. rewrite drop_0, Nat.sub_0_r, <- L.
  by rewrite take_app_length, drop_app_length.
Qed.

Lemma parse_multipart parts tail :
  Forall (λ gf, gap gf.1 ∧ cleanFrame gf.2) parts →
  findJpegStart tail = None →
  (parse (multipart parts tail)).2 = parts.*2.
Proof.
  intros F Ht. induction F as [|[g f] parts [G C] F IH]; simpl.
  - by apply parse_no_start.
  - simpl in G, C. destruct C as (body & Ef & E).
    rewrite (parse_skip _ (length g)).
    + rewrite drop_app_length, parse_clean_frame by by exists body.
      simpl. by rewrite IH.
    + rewrite Ef. replace (S (length g)) with (length g + 1) by lia.
      by rewrite take_app_add.
    + rewrite Ef, !length_app. simpl. lia.
Qed.

(** X4. A stream of images, each a clean frame behind a gap that holds no
    start marker (a multipart boundary with its headers), comes out as
    exactly these images, in order, however the stream is cut into
    chunks. *)
Theorem framer_recovers_images
    (parts : list (Buffer * Buffer)) (tail : Buffer) (chunks : list Buffer) :
  Forall (λ gf, gap gf.1 ∧ cleanFrame gf.2) parts →
  findJpegStart tail = None →
  concat chunks = multipart parts tail →
  emitted chunks = parts.*2.
Proof.
  intros F Ht E. rewrite emitted_parse, E. by apply parse_multipart.
Qed.

Lemma framer_recovers_images_witness :
  emitted [[x2d; x2d; x0d; x0a; xff]; [xd8; x11; xff; xd9; x0d];
           [x0a; xff; xd8; xff; xd9; x2d]]
  = [[xff; xd8; x11; xff; xd9]; [xff; xd8; xff; xd9]].
Proof.
  apply (framer_recovers_images
           [([x2d; x2d; x0d; x0a], [xff; xd8; x11; xff; xd9]);
            ([x0d; x0a], [xff; xd8; xff; xd9])] [x2d]).
  - repeat constructor.
    + by exists [x11].
    + by exists [].
  - reflexivity.
  - reflexivity.
Defined.

(** *** What stays in the buffer between chunks *)

Lemma drain_rest n st :
  length (buffer st) ≤ n →
  let st' := (drain n st).1 in
  if frameStarted st'
  then findJpegEnd (buffer st') (frameStart st') = None
  else length (buffer st') ≤ 2 ∧ findJpegStart (buffer st') = None.
Proof.
  revert st. induction n as [|n IH]; intros st Hn.
  - destruct (buffer st) eqn:B; [|simpl in Hn; lia]. simpl.
    destruct (frameStarted st); rewrite B; [by destruct (frameStart st)|].
    split; [simpl; lia|done].
  - simpl. destruct (buffer st) as [|a tl] eqn:B.
    { simpl. destruct (frameStarted st); rewrite B;
        [by destruct (frameStart st)|]. split; [simpl; lia|done]. }
    destruct (iteration st) as [st'|f st'] eqn:I.
    + simpl. unfold iteration in I.
      destruct (seekStart st) as [st1|st1] eqn:S.
      * unfold seekEnd in I.
        destruct (findJpegEnd (buffer st1) (frameStart st1)) eqn:En; [done|].
        injection I as <-.
        assert (frameStarted st1 = true) as ->; [|done].
        unfold seekStart in S. destruct (frameStarted st) eqn:Fs.
        -- by injection S as <-.
        -- destruct (findJpegStart (buffer st)); [by injection S as <-|done].
      * injection I as <-. unfold seekStart in S.
        destruct (frameStarted st) eqn:Fs; [done|].
        destruct (findJpegStart (buffer st)) eqn:St; [done|].
        injection S as <-.
        destruct (2 <? length (buffer st)) eqn:L; simpl.
        -- unfold sliceLast2. rewrite length_drop. split; [lia|].
           apply Nat.ltb_lt in L.
           pose proof (scanMarker_skip xd8 (buffer st) (length (buffer st) - 2)
             (scanMarker_None_take _ _ _ St)) as Sk.
           unfold findJpegStart in *. rewrite St in Sk.
           by destruct (scanMarker xd8 (drop (length (buffer st) - 2) (buffer st)) 0).
        -- apply Nat.ltb_ge in L. by rewrite Fs.
    + pose proof (iteration_emit _ _ _ I) as Sh. rewrite B in Sh.
      specialize (IH st'). destruct (drain n st') as [st'' fs]. simpl in *.
      apply IH. lia.
Qed.

Lemma feed_rest chunks st :
  (if frameStarted st
   then findJpegEnd (buffer st) (frameStart st) = None
   else length (buffer st) ≤ 2 ∧ findJpegStart (buffer st) = None) →
  let st' := (feed st chunks).1 in
  if frameStarted st'
  then findJpegEnd (buffer st') (frameStart st') = None
  else length (buffer st') ≤ 2 ∧ findJpegStart (buffer st') = None.
Proof.
  revert st. induction chunks as [|c cs IH]; intros st H; [done|].
  simpl. pose proof (drain_rest (length (buffer st ++ c))
    {| buffer := buffer st ++ c; frameStarted := frameStarted st;
       frameStart := frameStart st |} (Nat.le_refl _)) as R.
  unfold onData. simpl in *.
  destruct (drain (length (buffer st ++ c)) _) as [st1 f1]. simpl in R.
  specialize (IH st1 R). by destruct (feed st1 cs).
Qed.

(** X5. Between chunks the framer holds either at most two bytes without a
    start marker (outside a frame), or a buffer in which no end marker
    follows the start of the open frame (inside one): it never sits on a
    frame it could emit. *)
Theorem framer_rest_state (chunks : list Buffer) :
  let st := (feed initial chunks).1 in
  if frameStarted st
  then findJpegEnd (buffer st) (frameStart st) = None
  else length (buffer st) ≤ 2 ∧ findJpegStart (buffer st) = None.
Proof. apply feed_rest. simpl. split; [lia|done]. Qed.

(** *** The two searches *)

Lemma scanMarker_spec m l :
  match scanMarker m l 0 with
  | Some i => markerAt m l i ∧ ∀ j, j < i → ¬ markerAt m l j
  | None => ∀ j, ¬ markerAt m l j
  end.
Proof.
  induction l as [|a l IH]; [by intros j [? _]|].
  destruct l as [|b tl]; [by intros j [_ ?]|].
  rewrite scanMarker_cons.
  destruct (Byte.eqb a xff && Byte.eqb b m) eqn:T.
  - apply marker_test in T as [-> ->]. split; [done|]. intros j Hj. lia.
  - assert (¬ markerAt m (a :: b :: tl) 0) as N0.
    { intros [[= ->] [= ->]]. apply not_true_iff_false in T.
      apply T, marker_test. done. }
    destruct (scanMarker m (b :: tl) 0) as [i|]; simpl.
    + destruct IH as [M F]. split; [done|].
      intros [|j] Hj; [done|]. apply F. lia.
    + intros [|j]; [done|]. apply IH.
Qed.

(** X21. [findJpegStart] returns the index of the first start marker of the
    buffer, and -1 exactly when the buffer holds none. *)
Theorem findJpegStart_first_marker (b : Buffer) :
  match findJpegStart b with
  | Some i => markerAt xd8 b i ∧ ∀ j, j < i → ¬ markerAt xd8 b j
  | None => ∀ j, ¬ markerAt xd8 b j
  end.
Proof. apply scanMarker_spec. Qed.

(** X22. [findJpegEnd] returns the index of the first end marker that
    begins two bytes or more behind [startPos], and -1 exactly when there
    is none: the two bytes behind [startPos] are never taken for the
    beginning of an end marker. *)
Theorem findJpegEnd_first_marker (b : Buffer) (startPos : nat) :
  match findJpegEnd b startPos with
  | Some k => startPos + 2 ≤ k ∧ markerAt xd9 b k
              ∧ ∀ j, startPos + 2 ≤ j → j < k → ¬ markerAt xd9 b j
  | None => ∀ j, startPos + 2 ≤ j → ¬ markerAt xd9 b j
  end.
Proof.
  unfold findJpegEnd. rewrite scanMarker_offset.
  pose proof (scanMarker_spec xd9 (drop (startPos + 2) b)) as H.
  assert (∀ j, markerAt xd9 (drop (startPos + 2) b) j
               ↔ markerAt xd9 b (startPos + 2 + j)) as D.
  { intros j. unfold markerAt. rewrite !lookup_drop.
    by replace (startPos + 2 + S j) with (S (startPos + 2 + j)) by lia. }
  destruct (scanMarker xd9 (drop (startPos + 2) b) 0) as [i|]; simpl.
  - destruct H as [M F]. split; [lia|]. split.
    + apply D in M. by replace (i + (startPos + 2)) with (startPos + 2 + i) by lia.
    + intros j Hj Hk Mj. apply (F (j - (startPos + 2))); [lia|].
      apply D. by replace (startPos + 2 + (j - (startPos + 2))) with j by lia.
  - intros j Hj Mj. apply (H (j - (startPos + 2))).
    apply D. by replace (startPos + 2 + (j - (startPos + 2))) with j by lia.
Qed.

End FramerMore.

(* ===================================================================== *)
(** ** Facts about the stream registry of [MjpegStreamClient]             *)
(* ===================================================================== *)

Section ClientFacts.
Import Framer Client.

(** *** The [Map] *)

Lemma mapGet_elem k v m : mapGet k m = Some v → (k, v) ∈ m.
Proof.
  induction m as [|[k' v'] m IH]; simpl; [done|].
  case_decide; [intros [= <-]; subst; by left|]. intros G. right. by apply IH.
Qed.

Lemma mapGet_None k m : mapGet k m = None ↔ k ∉ mapKeys m.
Proof.
  unfold mapKeys. induction m as [|[k' v'] m IH]; simpl.
  - split; [intros _ H; by apply elem_of_nil in H|done].
  - rewrite not_elem_of_cons. case_decide; [subst; split; [done|by intros [? _]]|].
    rewrite IH. split; [by split|by intros [_ ?]].
Qed.

Lemma mapSet_fresh k v m : mapGet k m = None → mapSet k v m = m ++ [(k, v)].
Proof.
  induction m as [|[k' v'] m IH]; simpl; [done|].
  case_decide; [done|]. intros G. by rewrite IH.
Qed.

Lemma mapDelete_elem k k' v m :
  (k', v) ∈ mapDelete k m ↔ k' ≠ k ∧ (k', v) ∈ m.
Proof. unfold mapDelete. by rewrite list_elem_of_filter. Qed.

Lemma mapDelete_NoDup k m : NoDup (mapKeys m) → NoDup (mapKeys (mapDelete k m)).
Proof.
  intros H. eapply sublist_NoDup; [exact H|].
  unfold mapKeys, mapDelete. apply fmap_sublist, sublist_filter.
Qed.

Lemma mapDelete_head k v m :
  k ∉ mapKeys m → mapDelete k ((k, v) :: m) = m.
Proof.
  intros H. unfold mapDelete. rewrite filter_cons_False by (simpl; tauto).
  induction m as [|[k' v'] m IH]; [done|].
  unfold mapKeys in *. simpl in H. apply not_elem_of_cons in H as [N H'].
  rewrite filter_cons_True by (simpl; congruence). by rewrite IH.
Qed.

Lemma mapGet_delete k m : mapGet k (mapDelete k m) = None.
Proof.
  apply mapGet_None. unfold mapKeys. intros [[k' v] [E H]]%list_elem_of_fmap.
  simpl in E. subst k'. by apply mapDelete_elem in H as [? _].
Qed.

(** *** The registry holds one live request for a device *)

Lemma init_registered : registered init.
Proof.
  split; [constructor|]. intros u r H. by apply elem_of_nil in H.
Qed.

Lemma connect_registered u s : registered s → registered (connect u s).
Proof.
  intros [ND R]. unfold connect, mapHas.
  destruct (mapGet u (activeConnections s)) eqn:G; [done|].
  split; simpl.
  - rewrite mapSet_fresh by done. unfold mapKeys in *. rewrite fmap_app.
    apply NoDup_app. split_and!; [done| |apply NoDup_singleton].
    intros x Hx ->%list_elem_of_singleton. by apply mapGet_None in G.
  - rewrite mapSet_fresh by done.
    intros u' r [H|[= -> ->]%list_elem_of_singleton]%elem_of_app.
    + destruct (R u' r H) as (q & L & ? & ?). exists q.
      split; [by apply lookup_app_l_Some|done].
    + exists {| udid := u; framer := initial; responded := false;
                destroyed := false |}.
      split; [|done]. by rewrite lookup_app_r, Nat.sub_diag.
Qed.

Lemma deleteConnection_registered u s :
  registered s → registered (deleteConnection u s).
Proof.
  intros [ND R]. split; simpl; [by apply mapDelete_NoDup|].
  intros u' r [_ H]%mapDelete_elem. by apply R.
Qed.

Lemma destroy_delete_registered r q s :
  registered s → requests s !! r = Some q →
  registered (deleteConnection (udid q) (destroy r s)).
Proof.
  intros [ND R] L. split; simpl; [by apply mapDelete_NoDup|].
  intros u' r' [N H]%mapDelete_elem.
  destruct (R u' r' H) as (q' & L' & U & D).
  assert (r' ≠ r) as Nr by (intros ->; congruence).
  exists q'. by rewrite list_lookup_alter_ne.
Qed.

Lemma emit_registered e s : registered s → registered (emit e s).
Proof. done. Qed.

Lemma disconnect_registered u s : registered s → registered (disconnect u s).
Proof.
  intros Rg. unfold disconnect.
  destruct (mapGet u (activeConnections s)) as [r|] eqn:G; [|done].
  apply mapGet_elem in G. destruct Rg as [ND R].
  destruct (R u r G) as (q & L & <- & D).
  apply emit_registered. by apply destroy_delete_registered.
Qed.

Lemma foldl_disconnect_registered us s :
  registered s → registered (foldl (λ acc u, disconnect u acc) s us).
Proof.
  revert s. induction us as [|u us IH]; intros s H; [done|].
  simpl. by apply IH, disconnect_registered.
Qed.

Lemma insert_registered r q q' s :
  registered s → requests s !! r = Some q →
  udid q' = udid q → destroyed q' = destroyed q →
  registered {| activeConnections := activeConnections s;
                requests := <[r := q']> (requests s);
                events := events s |}.
Proof.
  intros [ND R] L U D. split; [done|]. simpl.
  intros u' r' H. destruct (R u' r' H) as (q1 & L1 & U1 & D1).
  destruct (decide (r' = r)) as [->|N].
  - exists q'. rewrite list_lookup_insert_eq by by eapply lookup_lt_Some.
    split; [done|]. split; congruence.
  - exists q1. by rewrite list_lookup_insert_ne.
Qed.

Lemma step_registered s ev s' :
  registered s → step s ev = Some s' → registered s'.
Proof.
  intros Rg. destruct ev as [u|u| |r st|r c|r|r|r|r]; simpl.
  - intros [= <-]. by apply connect_registered.
  - intros [= <-]. by apply disconnect_registered.
  - intros [= <-]. by apply foldl_disconnect_registered.
  - unfold onResponse. destruct (requests s !! r) as [q|] eqn:L; [|done]. simpl.
    destruct (responded q); [done|]. case_decide; intros [= <-]; [|done].
    by eapply insert_registered.
  - unfold onResData. destruct (requests s !! r) as [q|] eqn:L; [|done]. simpl.
    destruct (responded q); [|done].
    destruct (onData (framer q) c) as [st frames]. intros [= <-].
    apply emit_registered. by eapply insert_registered.
  - unfold onResEnd. destruct (requests s !! r) as [q|]; [|done]. simpl.
    destruct (responded q); [|done]. intros [= <-].
    by apply emit_registered, deleteConnection_registered.
  - unfold onResError. destruct (requests s !! r) as [q|]; [|done]. simpl.
    destruct (responded q); [|done]. intros [= <-].
    by apply emit_registered, deleteConnection_registered.
  - unfold onReqError. destruct (requests s !! r) as [q|]; [|done]. simpl.
    intros [= <-]. by apply emit_registered, deleteConnection_registered.
  - unfold onReqTimeout. destruct (requests s !! r) as [q|] eqn:L; [|done].
    simpl. intros [= <-]. by apply emit_registered, destroy_delete_registered.
Qed.

Lemma run_registered evs s0 s :
  registered s0 → run s0 evs = Some s → registered s.
Proof.
  revert s0. induction evs as [|ev evs IH]; intros s0 R; simpl;
    [by intros [= <-]|].
  destruct (step s0 ev) as [s1|] eqn:S; [|done]. simpl.
  apply IH. by eapply step_registered.
Qed.

(** X6. Whatever happens to the client, its registry holds at most one entry
    for a device, and every entry is a request of that device on which
    [destroy] was not called. *)
Theorem client_registry_sound (evs : list Event) (s : State) :
  run init evs = Some s → registered s.
Proof. apply run_registered, init_registered. Qed.

Lemma client_registry_sound_witness :
  ∃ s, run init [Connect "A"; Connect "B"; Connect "A"; Response 0 200;
                 ReqTimeout 1] = Some s
       ∧ activeConnections s = [("A", 0)]
       ∧ registered s.
Proof.
  eexists. split; [reflexivity|]. split; [reflexivity|].
  by apply (client_registry_sound
              [Connect "A"; Connect "B"; Connect "A"; Response 0 200;
               ReqTimeout 1]).
Defined.

(** *** [disconnectAll] *)

Lemma disconnectAll_from m s :
  activeConnections s = m → registered s →
  let s' := foldl (λ acc u, disconnect u acc) s (mapKeys m) in
  activeConnections s' = []
  ∧ events s' = events s ++ (EvDisconnected <$> mapKeys m)
  ∧ ∀ i q, requests s !! i = Some q →
      requests s' !! i
      = Some {| udid := udid q; framer := framer q; responded := responded q;
                destroyed := destroyed q || bool_decide (i ∈ m.*2) |}.
Proof.
  revert s. induction m as [|[u r] m IH]; intros s E Rg.
  - simpl. split_and!; [done|by rewrite app_nil_r|].
    intros i q L. rewrite L. destruct q. simpl. by rewrite orb_false_r.
  - simpl. pose proof Rg as [ND R]. rewrite E in ND. unfold mapKeys in ND.
    simpl in ND. apply NoDup_cons in ND as [Nu ND].
    assert (disconnect u s
            = emit [EvDisconnected u] (deleteConnection u (destroy r s))) as D.
    { unfold disconnect. rewrite E. simpl. by rewrite decide_True. }
    rewrite D.
    destruct (IH (emit [EvDisconnected u] (deleteConnection u (destroy r s))))
      as (A & Ev & Rq).
    + simpl. rewrite E. by apply mapDelete_head.
    + rewrite <- D. by apply disconnect_registered.
    + split_and!; [done|by rewrite Ev; simpl; rewrite <- app_assoc|].
      intros i q L. simpl in Rq.
      destruct (decide (i = r)) as [->|N].
      * rewrite (Rq r {| udid := udid q; framer := framer q;
                         responded := responded q; destroyed := true |}).
        -- f_equal. f_equal. symmetry. apply orb_true_iff. right.
           apply bool_decide_eq_true. by left.
        -- by rewrite list_lookup_alter_eq, L.
      * rewrite (Rq i q) by by rewrite list_lookup_alter_ne.
        do 3 f_equal. apply bool_decide_ext.
        rewrite elem_of_cons. split; [by right|by intros [?|?]].
Qed.

(** X7. [disconnectAll] leaves no stream registered, calls [destroy] on
    exactly the registered requests and emits one 'disconnected' event for
    each device, in the order in which they were connected. *)
Theorem client_disconnectAll (s : State) :
  registered s →
  activeConnections (disconnectAll s) = []
  ∧ getActiveStreamCount (disconnectAll s) = 0
  ∧ events (disconnectAll s)
    = events s ++ (EvDisconnected <$> mapKeys (activeConnections s))
  ∧ ∀ i q, requests s !! i = Some q →
      requests (disconnectAll s) !! i
      = Some {| udid := udid q; framer := framer q; responded := responded q;
                destroyed := destroyed q
                             || bool_decide (i ∈ (activeConnections s).*2) |}.
Proof.
  intros Rg. destruct (disconnectAll_from (activeConnections s) s eq_refl Rg)
    as (A & Ev & Rq).
  unfold getActiveStreamCount, disconnectAll. by rewrite A.
Qed.

Lemma client_disconnectAll_witness :
  ∃ s, run init [Connect "A"; Connect "B"] = Some s
       ∧ registered s
       ∧ events (disconnectAll s)
         = [EvConnected "A"; EvConnected "B";
            EvDisconnected "A"; EvDisconnected "B"].
Proof.
  eexists. split; [reflexivity|].
  assert (registered (mkState [("A", 0); ("B", 1)]
            [mkRequest "A" initial false false;
             mkRequest "B" initial false false]
            [EvConnected "A"; EvConnected "B"])) as Rg.
  { apply (run_registered [Connect "A"; Connect "B"] init);
      [apply init_registered|reflexivity]. }
  split; [exact Rg|].
  exact (proj1 (proj2 (proj2 (client_disconnectAll _ Rg)))).
Defined.

(** *** Each request is framed on its own *)

Lemma framesFor_app u a b : framesFor u (a ++ b) = framesFor u a ++ framesFor u b.
Proof.
  induction a as [|e a IH]; [done|]. destruct e; simpl; try done.
  case_decide; simpl; by rewrite IH.
Qed.

Lemma framesFor_frames u u0 fs :
  framesFor u (EvFrame u0 <$> fs) = if decide (u0 = u) then fs else [].
Proof.
  induction fs as [|f fs IH]; [simpl; by case_decide|].
  rewrite fmap_cons. cbn [framesFor]. rewrite IH. by case_decide.
Qed.

Lemma chunksOf_app r a b : chunksOf r (a ++ b) = chunksOf r a ++ chunksOf r b.
Proof.
  induction a as [|e a IH]; [done|]. destruct e; simpl; try done.
  case_decide; simpl; by rewrite IH.
Qed.

Lemma run_snoc s evs ev : run s (evs ++ [ev]) = run s evs ≫= λ s', step s' ev.
Proof.
  revert s. induction evs as [|e evs IH]; intros s; simpl.
  - by destruct (step s ev).
  - destruct (step s e); simpl; [apply IH|done].
Qed.

Lemma feed_snoc st cs c :
  feed st (cs ++ [c])
  = ((onData (feed st cs).1 c).1, (feed st cs).2 ++ (onData (feed st cs).1 c).2).
Proof.
  rewrite feed_app. simpl. destruct (onData (feed st cs).1 c) as [st2 f2].
  simpl. by rewrite app_nil_r.
Qed.

Lemma core_destroy r s : core <$> requests (destroy r s) = core <$> requests s.
Proof.
  unfold destroy. simpl.
  rewrite (list_fmap_alter core _ id); [apply list_alter_id; done|].
  by apply Forall_forall.
Qed.

Lemma tracksOn_ext evs cs F F' :
  (∀ u, F' u = F u) → tracksOn evs cs F → tracksOn evs cs F'.
Proof.
  intros E (A & C & B & D). split_and!; [done..| |].
  - intros u r st b L U. rewrite E. by eapply B.
  - intros u N. rewrite E. by apply D.
Qed.

(** Events that deliver no chunk and change neither the framing of a
    request nor the frames emitted. *)
Lemma tracks_quiet evs ev s1 s :
  (∀ r, chunksOf r [ev] = []) →
  core <$> requests s = core <$> requests s1 →
  (∀ u, framesFor u (events s) = framesFor u (events s1)) →
  tracks evs s1 → tracks (evs ++ [ev]) s.
Proof.
  intros Ch Rq Ev T. unfold tracks in *. rewrite Rq.
  apply (tracksOn_ext _ _ (λ u, framesFor u (events s1))); [done|].
  destruct T as (A & C & B & D).
  split_and!; try done; intros; rewrite chunksOf_app, Ch, app_nil_r; eauto.
Qed.

Lemma disconnect_quiet u s :
  core <$> requests (disconnect u s) = core <$> requests s
  ∧ ∀ u', framesFor u' (events (disconnect u s)) = framesFor u' (events s).
Proof.
  unfold disconnect. destruct (mapGet u (activeConnections s)); [|done].
  simpl. split; [apply core_destroy|].
  intros u'. by rewrite framesFor_app, app_nil_r.
Qed.

Lemma foldl_disconnect_quiet us s :
  core <$> requests (foldl (λ acc u, disconnect u acc) s us)
  = core <$> requests s
  ∧ ∀ u', framesFor u' (events (foldl (λ acc u, disconnect u acc) s us))
          = framesFor u' (events s).
Proof.
  revert s. induction us as [|u us IH]; intros s; [done|]. simpl.
  destruct (IH (disconnect u s)) as [-> E], (disconnect_quiet u s) as [-> E'].
  split; [done|]. intros u'. by rewrite E, E'.
Qed.

Lemma tracks_step evs s1 ev s :
  tracks evs s1 → step s1 ev = Some s → tracks (evs ++ [ev]) s.
Proof.
  intros T. destruct ev as [u|u| |r st|r c|r|r|r|r]; simpl.
  - (* connect *)
    intros [= <-]. unfold connect.
    destruct (mapHas u (activeConnections s1)); [by apply (tracks_quiet evs _ s1)|].
    unfold tracks in *. simpl. rewrite fmap_app. simpl.
    apply (tracksOn_ext _ _ (λ u, framesFor u (events s1)));
      [intros u'; by rewrite framesFor_app, app_nil_r|].
    destruct T as (A & C & B & D).
    set (cs := core <$> requests s1) in *.
    assert (∀ r, chunksOf r (evs ++ [Connect u]) = chunksOf r evs) as Ch
      by (intros; by rewrite chunksOf_app, app_nil_r).
    split_and!.
    + intros r u' st b [[_ L]|[-> [= <- <- <-]]]%lookup_snoc_Some;
        rewrite Ch; [by eapply A|].
      by rewrite C.
    + intros r Hr. rewrite Ch. apply C. rewrite length_app in Hr. simpl in Hr. lia.
    + intros u' r st b [[Lt L]|[-> [= <- <- <-]]]%lookup_snoc_Some U; rewrite Ch.
      * eapply B; [done|]. intros r' u2 st2 b2 L2 E2.
        eapply U; [|done]. by apply lookup_app_l_Some.
      * rewrite C by done. apply D. intros r' u2 st2 b2 L2 ->.
        pose proof (lookup_lt_Some _ _ _ L2).
        assert (r' = length cs); [|lia].
        eapply U; [|done]. by apply lookup_app_l_Some.
    + intros u' N. apply D. intros r u2 st b L. eapply N.
      by apply lookup_app_l_Some.
  - (* disconnect *)
    intros [= <-]. destruct (disconnect_quiet u s1). by apply (tracks_quiet evs _ s1).
  - (* disconnectAll *)
    intros [= <-]. unfold disconnectAll.
    destruct (foldl_disconnect_quiet (mapKeys (activeConnections s1)) s1).
    by apply (tracks_quiet evs _ s1).
  - (* the response arrives *)
    unfold onResponse. destruct (requests s1 !! r) as [q|] eqn:L; [|done]. simpl.
    destruct (responded q) eqn:Rs; [done|]. case_decide; intros [= <-].
    + unfold tracks in *. simpl. rewrite list_fmap_insert. unfold core at 1. simpl.
      destruct T as (A & C & B & D).
      set (cs := core <$> requests s1) in *.
      assert (cs !! r = Some (udid q, framer q, false)) as Lc.
      { unfold cs. by rewrite list_lookup_fmap, L, <- Rs. }
      destruct (A _ _ _ _ Lc) as [Fr Em]. specialize (Em eq_refl).
      assert (∀ i, chunksOf i (evs ++ [Response r st]) = chunksOf i evs) as Ch
        by (intros; by rewrite chunksOf_app, app_nil_r).
      assert (∀ i u' st' b', <[r := (udid q, initial, true)]> cs !! i
                             = Some (u', st', b') →
                ∃ st0 b0, cs !! i = Some (u', st0, b0)
                          ∧ (i ≠ r → st0 = st' ∧ b0 = b')
                          ∧ (i = r → st' = initial)) as Old.
      { intros i u' st' b' [(<- & [= <- <- <-] & _)|[N Li]]%list_lookup_insert_Some.
        - eexists _, _. by split.
        - eexists _, _. by split. }
      split_and!.
      * intros i u' st' b' (st0 & b0 & Li & Ne & Eq)%Old. rewrite Ch.
        destruct (decide (i = r)) as [->|N].
        -- rewrite (Eq eq_refl), Em. split; [done|].
           intros ->. done.
        -- destruct (Ne N) as [<- <-]. by eapply A.
      * intros i Hi. rewrite Ch. apply C. by rewrite length_insert in Hi.
      * intros u' i st' b' (st0 & b0 & Li & _)%Old U. rewrite Ch.
        eapply B; [done|]. intros r' u2 st2 b2 L2 E2.
        destruct (decide (r' = r)) as [->|N].
        -- eapply (U r u2 initial true); [|done].
           assert (u2 = udid q) as -> by congruence.
           apply list_lookup_insert_eq. by eapply lookup_lt_Some.
        -- eapply U; [|done]. by rewrite list_lookup_insert_ne.
      * intros u' N. apply D. intros i u2 st2 b2 L2.
        destruct (decide (i = r)) as [->|Ni].
        -- assert (u2 = udid q) as -> by congruence.
           eapply (N r _ initial true).
           apply list_lookup_insert_eq. by eapply lookup_lt_Some.
        -- eapply N. by rewrite list_lookup_insert_ne.
    + apply (tracks_quiet evs _ s1); [done..| |done]. intros u'. simpl.
      by rewrite framesFor_app, app_nil_r.
  - (* a chunk arrives *)
    unfold onResData. destruct (requests s1 !! r) as [q|] eqn:L; [|done]. simpl.
    destruct (responded q) eqn:Rs; [|done].
    destruct (onData (framer q) c) as [st' frames] eqn:On. intros [= <-].
    unfold tracks in *. simpl. rewrite list_fmap_insert. unfold core at 1. simpl.
    destruct T as (A & C & B & D).
    set (cs := core <$> requests s1) in *.
    assert (cs !! r = Some (udid q, framer q, true)) as Lc.
    { unfold cs. by rewrite list_lookup_fmap, L, <- Rs. }
    destruct (A _ _ _ _ Lc) as [Fr _].
    assert (∀ i, chunksOf i (evs ++ [ResData r c])
                 = chunksOf i evs ++ if decide (r = i) then [c] else []) as Ch.
    { intros i. rewrite chunksOf_app. simpl. by case_decide. }
    assert (∀ i u' st2 b', <[r := (udid q, st', true)]> cs !! i
                           = Some (u', st2, b') →
              ∃ st0, cs !! i = Some (u', st0, b')
                     ∧ (i ≠ r → st0 = st2) ∧ (i = r → st2 = st')) as Old.
    { intros i u' st2 b' [(<- & [= <- <- <-] & _)|[N Li]]%list_lookup_insert_Some.
      - eexists. by split.
      - eexists. by split. }
    assert (∀ f, framesFor f (events s1 ++ (EvFrame (udid q) <$> frames))
                 = framesFor f (events s1)
                   ++ if decide (udid q = f) then frames else []) as Ev.
    { intros f. by rewrite framesFor_app, framesFor_frames. }
    split_and!.
    + intros i u' st2 b' (st0 & Li & Ne & Eq)%Old. rewrite Ch.
      destruct (decide (r = i)) as [<-|N].
      * rewrite (Eq eq_refl), feed_snoc. simpl. rewrite <- Fr, On. simpl.
        split; [done|]. intros ->. congruence.
      * rewrite app_nil_r. rewrite <- (Ne (not_eq_sym N)). by eapply A.
    + intros i Hi. rewrite Ch. rewrite length_insert in Hi.
      pose proof (lookup_lt_Some _ _ _ Lc).
      rewrite decide_False by lia. rewrite app_nil_r. by apply C.
    + intros u' i st2 b' (st0 & Li & Ne & Eq)%Old U. rewrite Ev, Ch.
      assert (∀ r' u2 st3 b3, cs !! r' = Some (u2, st3, b3) → u2 = u' → r' = i)
        as U0.
      { intros r' u2 st3 b3 L3 E3. destruct (decide (r' = r)) as [->|N].
        - assert (u2 = udid q) as -> by congruence.
          eapply (U r _ st' true); [|done].
          apply list_lookup_insert_eq. by eapply lookup_lt_Some.
        - eapply U; [|done]. by rewrite list_lookup_insert_ne. }
      rewrite (B _ _ _ _ Li U0).
      destruct (decide (r = i)) as [<-|N].
      * assert (u' = udid q) as -> by congruence.
        rewrite decide_True by done. rewrite feed_snoc. simpl.
        by rewrite <- Fr, On.
      * rewrite app_nil_r. case_decide as Eu; [|by rewrite app_nil_r].
        exfalso. apply N. by eapply U0.
    + intros u' N. rewrite Ev. rewrite decide_False.
      * rewrite app_nil_r. apply D. intros i u2 st2 b2 L2.
        destruct (decide (i = r)) as [->|Ni].
        -- assert (u2 = udid q) as -> by congruence.
           eapply (N r _ st' true).
           apply list_lookup_insert_eq. by eapply lookup_lt_Some.
        -- eapply N. by rewrite list_lookup_insert_ne.
      * eapply (N r _ st' true).
        apply list_lookup_insert_eq. by eapply lookup_lt_Some.
  - unfold onResEnd. destruct (requests s1 !! r) as [q|]; [|done]. simpl.
    destruct (responded q); [|done]. intros [= <-].
    apply (tracks_quiet evs _ s1); [done..| |done]. intros u'. simpl.
    by rewrite framesFor_app, app_nil_r.
  - unfold onResError. destruct (requests s1 !! r) as [q|]; [|done]. simpl.
    destruct (responded q); [|done]. intros [= <-].
    apply (tracks_quiet evs _ s1); [done..| |done]. intros u'. simpl.
    by rewrite framesFor_app, app_nil_r.
  - unfold onReqError. destruct (requests s1 !! r) as [q|]; [|done]. simpl.
    intros [= <-].
    apply (tracks_quiet evs _ s1); [done..| |done]. intros u'. simpl.
    by rewrite framesFor_app, app_nil_r.
  - unfold onReqTimeout. destruct (requests s1 !! r) as [q|]; [|done]. simpl.
    intros [= <-].
    apply (tracks_quiet evs _ s1); [done|apply core_destroy| |done]. intros u'. simpl.
    by rewrite framesFor_app, app_nil_r.
Qed.

Lemma run_tracks evs s : run init evs = Some s → tracks evs s.
Proof.
  revert s. induction evs as [|ev evs IH] using rev_ind; intros s.
  - intros [= <-]. unfold tracks, tracksOn. simpl. split_and!.
    + intros r u st b L. by rewrite lookup_nil in L.
    + done.
    + intros u r st b L. by rewrite lookup_nil in L.
    + done.
  - rewrite run_snoc. destruct (run init evs) as [s1|]; [|done]. simpl.
    intros S. apply (tracks_step evs s1); [by apply IH|done].
Qed.

(** X8. Chunks of several requests may arrive interleaved in any way: each
    request keeps its own framer state, and a device served by a single
    request gets exactly the frames the framer cuts from the chunks of that
    request, in order. *)
Theorem client_frames_of_own_chunks
    (evs : list Event) (s : State) (r : nat) (q : Request) :
  run init evs = Some s →
  requests s !! r = Some q →
  framer q = (feed initial (chunksOf r evs)).1
  ∧ ((∀ r' q', requests s !! r' = Some q' → udid q' = udid q → r' = r) →
     framesFor (udid q) (events s) = emitted (chunksOf r evs)).
Proof.
  intros (A & C & B & D)%run_tracks L.
  assert ((core <$> requests s) !! r = Some (udid q, framer q, responded q))
    as Lc by by rewrite list_lookup_fmap, L.
  split; [by destruct (A _ _ _ _ Lc)|].
  intros U. apply (B _ _ _ _ Lc).
  intros r' u' st' b'. rewrite list_lookup_fmap.
  destruct (requests s !! r') as [q'|] eqn:L'; [|done].
  intros [= <- <- <-] E. by eapply U.
Qed.

Lemma client_frames_of_own_chunks_witness :
  ∃ s q, run init [Connect "A"; Connect "B"; Response 0 200; Response 1 200;
                   ResData 0 [xff; xd8; x01]; ResData 1 [xff; xd8; x02; xff];
                   ResData 0 [xff; xd9]; ResData 1 [xd9]] = Some s
         ∧ requests s !! 1 = Some q
         ∧ framesFor (udid q) (events s) = [[xff; xd8; x02; xff; xd9]].
Proof.
  eexists _, _. split; [reflexivity|]. split; [reflexivity|].
  refine (proj2 (client_frames_of_own_chunks
    [Connect "A"; Connect "B"; Response 0 200; Response 1 200;
     ResData 0 [xff; xd8; x01]; ResData 1 [xff; xd8; x02; xff];
     ResData 0 [xff; xd9]; ResData 1 [xd9]] _ 1 _ eq_refl eq_refl) _).
  intros [|[|[|r']]] q'; simpl; try done. by intros [= <-].
Defined.

(** *** Edge cases of the registry *)

(** X9. A response with a status other than 200 only emits an error: the
    request stays registered, so the device still counts as connected and a
    further [connect] for it does nothing. *)
Theorem client_rejected_response_stays_registered
    (s : State) (r status : nat) (q : Request) :
  requests s !! r = Some q → responded q = false → status ≠ 200 →
  mapGet (udid q) (activeConnections s) = Some r →
  ∃ s', step s (Response r status) = Some s'
        ∧ events s' = events s ++ [EvError (udid q)]
        ∧ requests s' = requests s
        ∧ isConnected (udid q) s' = true
        ∧ connect (udid q) s' = s'.
Proof.
  intros L Rs St G. simpl. unfold onResponse. rewrite L. simpl.
  rewrite Rs, decide_False by done. eexists. split; [done|].
  unfold isConnected, connect, mapHas. simpl. by rewrite G.
Qed.

Lemma client_rejected_response_witness :
  ∃ s', step (connect "A" init) (Response 0 503) = Some s'
        ∧ isConnected "A" s' = true ∧ connect "A" s' = s'.
Proof.
  destruct (client_rejected_response_stays_registered (connect "A" init)
              0 503 (mkRequest "A" initial false false))
    as (s' & S & _ & _ & I & C); [reflexivity|reflexivity|lia|reflexivity|].
  by exists s'.
Defined.

(** X10. The handlers of a response delete the registry entry of their device,
    whichever request holds it.  When the 'end' or the 'error' of an older
    request of a device arrives while a newer request of that device is
    registered, the newer one loses its entry: the device counts as not
    connected, [disconnect] no longer reaches the request, and it is left
    undestroyed. *)
Theorem client_stale_response_unregisters_successor
    (s : State) (rOld rNew : nat) (qOld qNew : Request) :
  requests s !! rOld = Some qOld → responded qOld = true →
  requests s !! rNew = Some qNew →
  mapGet (udid qOld) (activeConnections s) = Some rNew →
  ∃ sEnd sErr,
    step s (ResEnd rOld) = Some sEnd
    ∧ step s (ResError rOld) = Some sErr
    ∧ isConnected (udid qOld) sEnd = false
    ∧ isConnected (udid qOld) sErr = false
    ∧ requests sEnd !! rNew = Some qNew
    ∧ requests sErr !! rNew = Some qNew
    ∧ disconnect (udid qOld) sEnd = sEnd
    ∧ disconnect (udid qOld) sErr = sErr.
Proof.
  intros Lo Rs Ln G. simpl. unfold onResEnd, onResError. rewrite Lo. simpl.
  rewrite Rs. eexists _, _. split; [done|]. split; [done|].
  unfold isConnected, disconnect, mapHas. simpl.
  by rewrite mapGet_delete.
Qed.

Lemma client_stale_response_witness :
  ∃ s sErr,
    run init [Connect "A"; Response 0 200; Disconnect "A"; Connect "A";
              Response 1 200] = Some s
    ∧ step s (ResError 0) = Some sErr
    ∧ isConnected "A" sErr = false
    ∧ requests sErr !! 1 = Some (mkRequest "A" initial true false).
Proof.
  eexists _, _. split; [reflexivity|].
  destruct (client_stale_response_unregisters_successor
              (mkState [("A", 1)]
                 [mkRequest "A" initial true true;
                  mkRequest "A" initial true false]
                 [EvConnected "A"; EvDisconnected "A"; EvConnected "A"])
              0 1 (mkRequest "A" initial true true)
              (mkRequest "A" initial true false))
    as (sEnd & sErr & _ & S & _ & I & _ & L & _); [reflexivity..|].
  injection S as <-. by split.
Defined.

End ClientFacts.

(* ===================================================================== *)
(** ** Facts about the device mutex manager                               *)
(* ===================================================================== *)

Section MutexFacts.
Import Mutex.
Context {T E : Type}.
Implicit Types (s : State T E) (tk : Task T E) (ev : Event T E).

Lemma lookup_setPc (t : nat) (p : Pc T E) (ts : list (Task T E)) i tk' :
  setPc t p ts !! i = Some tk' →
  ∃ tk, ts !! i = Some tk ∧ device tk' = device tk ∧ mutex tk' = mutex tk
        ∧ pc tk' = if decide (i = t) then p else pc tk.
Proof.
  unfold setPc. rewrite list_lookup_alter. destruct (decide (t = i)) as [->|N].
  - destruct (ts !! i) as [tk|]; [|done]. intros [= <-]. exists tk.
    by rewrite decide_True.
  - intros H. exists tk'. by rewrite decide_False.
Qed.

Lemma init_consistent : consistent (@init T E).
Proof. by split. Qed.

(** [resume] changes nothing but the stage of one owner. *)
Lemma resume_consistent s t s' :
  consistent s → resume t s = Some s' → consistent s'.
Proof.
  intros C. unfold resume.
  destruct (tasks s !! t) as [tk0|] eqn:Lt; [|done]. simpl.
  destruct (pc tk0) eqn:P0; try done. intros [= <-].
  assert (∀ i tk', setPc t Running (tasks s) !! i = Some tk' →
            ∃ tk, tasks s !! i = Some tk ∧ device tk' = device tk
                  ∧ mutex tk' = mutex tk
                  ∧ holding (pc tk') = holding (pc tk)
                  ∧ isSettled (pc tk') = isSettled (pc tk)
                  ∧ (pc tk' = Waiting → pc tk = Waiting)) as Old.
  { intros i tk' (tk & L & D & M & P)%lookup_setPc. exists tk.
    split_and!; try done; case_decide; subst; simplify_eq; rewrite P;
      try done; by rewrite P0. }
  split; simpl.
  - intros i tk' (tk & L & _ & -> & _)%Old. by eapply c_task_mutex.
  - apply C.
  - intros a m Hm Hl. destruct (c_unlocked _ C a m Hm Hl) as [Q N].
    split; [done|]. intros i tk' (tk & L & _ & M & -> & _)%Old ?.
    eapply N; [done|congruence].
  - intros a m Hm. destruct (c_queue _ C a m Hm) as [ND Q]. split; [done|].
    intros w (tk & L & M & P)%Q.
    assert (w ≠ t) by (intros ->; congruence).
    exists tk. split; [|done]. unfold setPc. by rewrite list_lookup_alter_ne.
  - intros t1 t2 tk1 tk2 (k1 & L1 & _ & -> & -> & _)%Old
                         (k2 & L2 & _ & -> & -> & _)%Old.
    by eapply c_exclusive.
  - intros i tk' (tk & L & -> & -> & _ & -> & _)%Old. by eapply c_registered.
  - apply C.
  - intros a m Hm Hl. destruct (c_locked _ C a m Hm Hl) as (i & tk & L & M & H).
    destruct (decide (i = t)) as [->|N].
    + exists t, {| device := device tk; mutex := mutex tk; pc := Running |}.
      split; [|done]. unfold setPc. rewrite list_lookup_alter, decide_True by done.
      by rewrite L.
    + exists i, tk. split; [|done]. unfold setPc.
      by rewrite list_lookup_alter_ne.
Qed.

Lemma quiescent_spec d s :
  quiescent d s = true ↔
  ∀ t tk, tasks s !! t = Some tk → device tk = d → isSettled (pc tk) = true.
Proof.
  unfold quiescent. rewrite forallb_forall. split.
  - intros H t tk L D. specialize (H tk).
    rewrite <- list_elem_of_In, list_elem_of_lookup in H.
    specialize (H (ex_intro _ t L)). apply orb_true_iff in H as [H|H]; [|done].
    apply negb_true_iff, bool_decide_eq_false in H. done.
  - intros H tk [t L]%list_elem_of_In%list_elem_of_lookup.
    destruct (decide (device tk = d)) as [D|D].
    + rewrite (H t tk L D). apply orb_true_r.
    + by rewrite bool_decide_eq_false_2.
Qed.

(** [removeMutex] for a device with nothing queued or holding. *)
Lemma removeMutex_consistent s d :
  consistent s → quiescent d s = true → consistent (removeMutex d s).
Proof.
  intros C Q. rewrite quiescent_spec in Q. split; simpl; try apply C.
  - intros d' a [_ H]%lookup_delete_Some. by eapply c_map_mutex.
  - intros t tk L S. rewrite lookup_delete_ne; [by eapply c_registered|].
    intros Hd. rewrite (Q t tk L (eq_sym Hd)) in S. done.
  - intros d1 d2 a [_ H1]%lookup_delete_Some [_ H2]%lookup_delete_Some.
    by eapply c_injective.
Qed.

(** [getMutex]: the object it returns is registered for the device. *)
Lemma getMutex_consistent s d :
  consistent s →
  consistent (getMutex d s).2
  ∧ mutexes (getMutex d s).2 !! d = Some (getMutex d s).1
  ∧ tasks (getMutex d s).2 = tasks s
  ∧ (∀ a m, heap s !! a = Some m → heap (getMutex d s).2 !! a = Some m)
  ∧ (mutexes s !! d = None →
     heap (getMutex d s).2 !! (getMutex d s).1 = Some newAsyncMutex).
Proof.
  intros C. unfold getMutex. destruct (mutexes s !! d) as [a|] eqn:M; simpl.
  { done. }
  split_and!; [|by rewrite lookup_insert_eq|done| |].
  - split; simpl.
    + intros t tk L. rewrite length_app. pose proof (c_task_mutex _ C t tk L). lia.
    + intros d' a [[_ <-]|[_ H]]%lookup_insert_Some; rewrite length_app; simpl;
        [lia|]. pose proof (c_map_mutex _ C _ _ H). lia.
    + intros a m [[L H]|[-> [= <-]]]%lookup_snoc_Some Hl.
      * apply (c_unlocked _ C a m H Hl).
      * split; [done|]. intros t tk L Mt.
        pose proof (c_task_mutex _ C t tk L). lia.
    + intros a m [[L H]|[_ [= <-]]]%lookup_snoc_Some.
      * apply (c_queue _ C a m H).
      * split; [constructor|]. intros w Hw. by apply elem_of_nil in Hw.
    + apply C.
    + intros t tk L S. pose proof (c_registered _ C t tk L S) as R.
      rewrite lookup_insert_ne; [done|]. intros Hd. congruence.
    + intros d1 d2 a [[<- <-]|[N1 H1]]%lookup_insert_Some
                     [[<- E2]|[N2 H2]]%lookup_insert_Some; try done.
      * pose proof (c_map_mutex _ C _ _ H2). lia.
      * pose proof (c_map_mutex _ C _ _ H1). lia.
      * by eapply c_injective.
    + intros a m [[L H]|[_ [= <-]]]%lookup_snoc_Some Hl; [|done].
      apply (c_locked _ C a m H Hl).
  - intros a m H. by apply lookup_app_l_Some.
  - intros _. by rewrite lookup_app_r, Nat.sub_diag.
Qed.

(** [withDeviceLock] up to its first suspension. *)
Lemma callWithDeviceLock_consistent s d s' :
  consistent s → callWithDeviceLock d s = Some s' → consistent s'.
Proof.
  intros C0. unfold callWithDeviceLock.
  destruct (getMutex_consistent s d C0) as (C & Reg & Ts & _ & _).
  destruct (getMutex d s) as [a s1]. simpl in C, Reg, Ts. clear C0 Ts.
  destruct (heap s1 !! a) as [m|] eqn:Hm; [|done]. simpl.
  unfold acquire. destruct (locked m) eqn:Lk; simpl; intros [= <-].
  - (* the lock is taken: queue up *)
    split; simpl.
    + intros t tk [[_ L]|[_ <-]]%lookup_snoc_Some; rewrite length_insert.
      * by eapply c_task_mutex.
      * simpl. by eapply lookup_lt_Some.
    + intros d' a' H. rewrite length_insert. by eapply c_map_mutex.
    + intros a' m' [(<- & <- & _)|[N H]]%list_lookup_insert_Some Hl.
      { simpl in Hl. congruence. }
      destruct (c_unlocked _ C a' m' H Hl) as [Q Nh]. split; [done|].
      intros t tk [[_ L]|[_ <-]]%lookup_snoc_Some Mt; [by eapply Nh|done].
    + intros a' m' [(<- & <- & _)|[N H]]%list_lookup_insert_Some.
      * destruct (c_queue _ C a m Hm) as [ND Q]. simpl. split.
        -- apply NoDup_app. split_and!; [done| |apply NoDup_singleton].
           intros w (tk & L & _)%Q ->%list_elem_of_singleton.
           apply lookup_lt_Some in L. lia.
        -- intros w [Hw| ->%list_elem_of_singleton]%elem_of_app.
           ++ destruct (Q w Hw) as (tk & L & ?). exists tk.
              split; [by apply lookup_app_l_Some|done].
           ++ exists {| device := d; mutex := a; pc := Waiting |}.
              split; [|done]. apply lookup_snoc_Some. by right.
      * destruct (c_queue _ C a' m' H) as [ND Q]. split; [done|].
        intros w (tk & L & ?)%Q. exists tk.
        split; [by apply lookup_app_l_Some|done].
    + intros t1 t2 tk1 tk2 [[_ L1]|[-> <-]]%lookup_snoc_Some
                           [[_ L2]|[-> <-]]%lookup_snoc_Some M H1 H2;
        try done. by eapply c_exclusive.
    + intros t tk [[_ L]|[_ <-]]%lookup_snoc_Some S; [by eapply c_registered|done].
    + apply C.
    + intros a' m' [(<- & <- & _)|[N H]]%list_lookup_insert_Some Hl.
      * destruct (c_locked _ C a m Hm Lk) as (t & tk & L & ? & ?).
        exists t, tk. split; [by apply lookup_app_l_Some|done].
      * destruct (c_locked _ C a' m' H Hl) as (t & tk & L & ? & ?).
        exists t, tk. split; [by apply lookup_app_l_Some|done].
  - (* the lock is free: take it *)
    destruct (c_unlocked _ C a m Hm Lk) as [Qe Nh].
    split; simpl.
    + intros t tk [[_ L]|[_ <-]]%lookup_snoc_Some; rewrite length_insert.
      * by eapply c_task_mutex.
      * simpl. by eapply lookup_lt_Some.
    + intros d' a' H. rewrite length_insert. by eapply c_map_mutex.
    + intros a' m' [(<- & <- & _)|[N H]]%list_lookup_insert_Some Hl; [done|].
      destruct (c_unlocked _ C a' m' H Hl) as [Q Nh']. split; [done|].
      intros t tk [[_ L]|[_ <-]]%lookup_snoc_Some Mt; [by eapply Nh'|].
      simpl in Mt. congruence.
    + intros a' m' [(<- & <- & _)|[N H]]%list_lookup_insert_Some.
      * simpl. rewrite Qe. split; [constructor|].
        intros w Hw. by apply elem_of_nil in Hw.
      * destruct (c_queue _ C a' m' H) as [ND Q]. split; [done|].
        intros w (tk & L & ?)%Q. exists tk.
        split; [by apply lookup_app_l_Some|done].
    + intros t1 t2 tk1 tk2 [[_ L1]|[-> <-]]%lookup_snoc_Some
                           [[_ L2]|[-> <-]]%lookup_snoc_Some M H1 H2;
        simpl in *; try done.
      * by eapply c_exclusive.
      * rewrite (Nh t1 tk1 L1 M) in H1. done.
      * rewrite (Nh t2 tk2 L2 (eq_sym M)) in H2. done.
    + intros t tk [[_ L]|[_ <-]]%lookup_snoc_Some S; [by eapply c_registered|done].
    + apply C.
    + intros a' m' [(<- & <- & _)|[N H]]%list_lookup_insert_Some Hl.
      * eexists _, _. split; [apply lookup_snoc_Some; by right|done].
      * destruct (c_locked _ C a' m' H Hl) as (t & tk & L & ? & ?).
        exists t, tk. split; [by apply lookup_app_l_Some|done].
Qed.

Lemma lookup_setPc_ne (t : nat) (p : Pc T E) (ts : list (Task T E)) i :
  i ≠ t → setPc t p ts !! i = ts !! i.
Proof. intros N. unfold setPc. by rewrite list_lookup_alter_ne. Qed.

Lemma lookup_setPc_eq (t : nat) (p : Pc T E) (ts : list (Task T E)) tk :
  ts !! t = Some tk →
  setPc t p ts !! t = Some {| device := device tk; mutex := mutex tk; pc := p |}.
Proof.
  intros L. unfold setPc. by rewrite list_lookup_alter, decide_True, L.
Qed.

(** The end of [withLock]: [release()] and the settling of its promise. *)
Lemma finish_consistent s t o s' :
  consistent s → finish t o s = Some s' → consistent s'.
Proof.
  intros C. unfold finish.
  destruct (tasks s !! t) as [tk0|] eqn:Lt; [|done]. simpl.
  destruct (pc tk0) eqn:P0; try done.
  destruct (heap s !! mutex tk0) as [m|] eqn:Hm; [|done]. simpl.
  remember (mutex tk0) as a eqn:Ea. set (o' := tryFinally o None).
  assert (holding (pc tk0) = true) as Ht by by rewrite P0.
  unfold release. destruct (waitQueue m) as [|w q] eqn:Wq; intros [= <-].
  - (* nobody waits: unlock *)
    assert (∀ i tk', setPc t (Settled o') (tasks s) !! i = Some tk' →
              ∃ tk, tasks s !! i = Some tk ∧ device tk' = device tk
                    ∧ mutex tk' = mutex tk
                    ∧ pc tk' = if decide (i = t) then Settled o' else pc tk)
      as Old by apply lookup_setPc.
    split; simpl.
    + intros i tk' (tk & L & _ & -> & _)%Old. rewrite length_insert.
      by eapply c_task_mutex.
    + intros d a' H. rewrite length_insert. by eapply c_map_mutex.
    + intros a' m' [(<- & <- & _)|[N H]]%list_lookup_insert_Some Hl.
      * split; [done|]. intros i tk' (tk & L & _ & M & P)%Old Ma.
        rewrite P. case_decide; [done|].
        destruct (holding (pc tk)) eqn:Hh; [|done].
        exfalso. assert (i = t); [|done].
        eapply (c_exclusive _ C i t tk tk0); try done. congruence.
      * destruct (c_unlocked _ C a' m' H Hl) as [Q Nh]. split; [done|].
        intros i tk' (tk & L & _ & M & P)%Old Ma.
        rewrite P. case_decide; [done|]. eapply Nh; [done|congruence].
    + intros a' m' [(<- & <- & _)|[N H]]%list_lookup_insert_Some.
      * split; [constructor|]. intros x Hx. by apply elem_of_nil in Hx.
      * destruct (c_queue _ C a' m' H) as [ND Q]. split; [done|].
        intros x (tk & L & M & P)%Q. exists tk. split; [|done].
        rewrite lookup_setPc_ne; [done|]. intros ->. congruence.
    + intros i1 i2 tk1 tk2 (k1 & L1 & _ & -> & P1)%Old
                           (k2 & L2 & _ & -> & P2)%Old M.
      rewrite P1, P2. repeat case_decide; try done.
      by eapply c_exclusive.
    + intros i tk' (tk & L & -> & -> & P)%Old. rewrite P.
      case_decide; [done|]. by eapply c_registered.
    + apply C.
    + intros a' m' [(<- & <- & _)|[N H]]%list_lookup_insert_Some Hl; [done|].
      destruct (c_locked _ C a' m' H Hl) as (i & tk & L & M & Hh).
      exists i, tk. split; [|done]. rewrite lookup_setPc_ne; [done|].
      intros ->. congruence.
  - (* hand the lock to the first waiter *)
    destruct (c_queue _ C a m Hm) as [ND Q]. rewrite Wq in ND, Q.
    apply NoDup_cons in ND as [Wn ND].
    destruct (Q w) as (tkw & Lw & Mw & Pw); [by left|].
    assert (w ≠ t) as Nwt by (intros ->; congruence).
    assert (∀ i tk', setPc w Granted (setPc t (Settled o') (tasks s)) !! i
                     = Some tk' →
              ∃ tk, tasks s !! i = Some tk ∧ device tk' = device tk
                    ∧ mutex tk' = mutex tk
                    ∧ pc tk' = if decide (i = w) then Granted
                               else if decide (i = t) then Settled o'
                               else pc tk) as Old.
    { intros i tk' (tk1 & (tk & L & D & M & P)%lookup_setPc & D1 & M1 & P1)
                   %lookup_setPc.
      exists tk. split_and!; [done|congruence..|].
      rewrite P1. case_decide; [done|]. by rewrite P. }
    assert (∀ i, i ≠ w → i ≠ t →
              setPc w Granted (setPc t (Settled o') (tasks s)) !! i
              = tasks s !! i) as Same.
    { intros i ? ?. by rewrite !lookup_setPc_ne. }
    split; simpl.
    + intros i tk' (tk & L & _ & -> & _)%Old. rewrite length_insert.
      by eapply c_task_mutex.
    + intros d a' H. rewrite length_insert. by eapply c_map_mutex.
    + intros a' m' [(<- & <- & _)|[N H]]%list_lookup_insert_Some Hl.
      * simpl in Hl. destruct (c_unlocked _ C a m Hm Hl) as [Qe _].
        congruence.
      * destruct (c_unlocked _ C a' m' H Hl) as [Qe Nh]. split; [done|].
        intros i tk' (tk & L & _ & M & P)%Old Ma. rewrite P.
        case_decide; [subst i; congruence|]. case_decide; [done|].
        eapply Nh; [done|congruence].
    + intros a' m' [(<- & <- & _)|[N H]]%list_lookup_insert_Some.
      * simpl. split; [done|]. intros x Hx.
        destruct (Q x) as (tk & L & M & P); [by right|].
        exists tk. split; [|done]. rewrite Same; [done|..].
        -- intros ->. done.
        -- intros ->. congruence.
      * destruct (c_queue _ C a' m' H) as [ND' Q']. split; [done|].
        intros x (tk & L & M & P)%Q'. exists tk. split; [|done].
        rewrite Same; [done|..].
        -- intros ->. congruence.
        -- intros ->. congruence.
    + intros i1 i2 tk1 tk2 (k1 & L1 & _ & M1 & P1)%Old
                           (k2 & L2 & _ & M2 & P2)%Old M.
      rewrite P1, P2.
      destruct (decide (i1 = w)) as [->|N1], (decide (i2 = w)) as [->|N2];
        [done|..].
      * destruct (decide (i2 = t)); [done|]. intros _ H2.
        exfalso. assert (i2 = t); [|done].
        eapply (c_exclusive _ C i2 t k2 tk0); try done. congruence.
      * destruct (decide (i1 = t)); [done|]. intros H1 _.
        exfalso. assert (i1 = t); [|done].
        eapply (c_exclusive _ C i1 t k1 tk0); try done. congruence.
      * destruct (decide (i1 = t)); [done|].
        destruct (decide (i2 = t)); [done|].
        eapply c_exclusive; try done. congruence.
    + intros i tk' (tk & L & -> & -> & P)%Old. rewrite P.
      case_decide; [subst i|].
      * assert (tk = tkw) as -> by congruence.
        intros _. apply (c_registered _ C w tkw Lw). by rewrite Pw.
      * case_decide; [done|]. by eapply c_registered.
    + apply C.
    + intros a' m' [(<- & <- & _)|[N H]]%list_lookup_insert_Some Hl.
      * exists w, {| device := device tkw; mutex := mutex tkw; pc := Granted |}.
        split; [|done]. apply lookup_setPc_eq. by rewrite lookup_setPc_ne.
      * destruct (c_locked _ C a' m' H Hl) as (i & tk & L & M & Hh).
        exists i, tk. split; [|done]. rewrite Same; [done|..].
        -- intros ->. congruence.
        -- intros ->. congruence.
Qed.

Lemma step_consistent s ev s' :
  consistent s → permitted s ev = true → step s ev = Some s' → consistent s'.
Proof.
  intros C P. destruct ev as [d|t|t o|d]; simpl.
  - by apply callWithDeviceLock_consistent.
  - by apply resume_consistent.
  - by apply finish_consistent.
  - intros [= <-]. by apply removeMutex_consistent.
Qed.

Lemma runPermitted_consistent evs s s' :
  consistent s → runPermitted s evs = Some s' → consistent s'.
Proof.
  revert s. induction evs as [|ev evs IH]; intros s C; simpl.
  - by intros [= <-].
  - destruct (permitted s ev) eqn:P; [|done].
    destruct (step s ev) as [s1|] eqn:S; [|done]. simpl.
    apply IH. by eapply step_consistent.
Qed.

Lemma reachable_consistent evs s :
  runPermitted (@init T E) evs = Some s → consistent s.
Proof. apply runPermitted_consistent, init_consistent. Qed.

(** A call for a device with nothing queued or holding gets the lock at
    once, whatever the locks of other devices do. *)
Lemma call_quiescent s Y :
  consistent s → quiescent Y s = true →
  ∃ s1 a,
    callWithDeviceLock Y s = Some s1
    ∧ tasks s1 = tasks s ++ [{| device := Y; mutex := a; pc := Granted |}].
Proof.
  intros C Q. rewrite quiescent_spec in Q. unfold callWithDeviceLock.
  destruct (getMutex_consistent s Y C) as (C1 & Reg & Ts & Keep & New).
  unfold getMutex in *. destruct (mutexes s !! Y) as [a|] eqn:M; simpl in *.
  - pose proof (c_map_mutex _ C _ _ M) as [m Hm]%lookup_lt_is_Some.
    rewrite Hm. simpl. unfold acquire.
    destruct (locked m) eqn:Lk; simpl; [|by eexists _, _].
    exfalso. destruct (c_locked _ C a m Hm Lk) as (t & tk & L & Mt & Hh).
    assert (isSettled (pc tk) = false) as Un by by destruct (pc tk).
    pose proof (c_registered _ C t tk L Un) as R. rewrite Mt in R.
    rewrite (Q t tk L (c_injective _ C _ _ _ R M)) in Un. done.
  - rewrite (New eq_refl). simpl. by eexists _, _.
Qed.

Lemma resume_granted (ts : list (Task T E)) ms hp d a :
  resume (length ts)
    {| mutexes := ms; heap := hp;
       tasks := ts ++ [{| device := d; mutex := a; pc := Granted |}] |}
  = Some {| mutexes := ms; heap := hp;
            tasks := ts ++ [{| device := d; mutex := a; pc := Running |}] |}.
Proof.
  unfold resume. simpl. rewrite lookup_app_r, Nat.sub_diag by done. simpl.
  unfold setPc. rewrite alter_app_r_alt, Nat.sub_diag by done. done.
Qed.

(** X24. In every state the manager reaches with [removeMutex] called only
    for devices that have nothing queued or holding, two activations of
    [withDeviceLock] for the same device never own the lock together, so
    their operations never overlap; every device has a lock object of its
    own; and a call for a device with nothing in flight is granted at once
    and runs next to everything already running for other devices. *)
Theorem withDeviceLock_serializes_per_device
    (evs : list (Event T E)) (s : State T E) :
  runPermitted init evs = Some s →
  (∀ t1 t2 tk1 tk2,
     tasks s !! t1 = Some tk1 → tasks s !! t2 = Some tk2 →
     device tk1 = device tk2 →
     holding (pc tk1) = true → holding (pc tk2) = true → t1 = t2)
  ∧ (∀ d1 d2 a,
       mutexes s !! d1 = Some a → mutexes s !! d2 = Some a → d1 = d2)
  ∧ (∀ Y, quiescent Y s = true →
       ∃ s1 s2 a,
         step s (Call Y) = Some s1
         ∧ step s1 (Resume (length (tasks s))) = Some s2
         ∧ tasks s2
           = tasks s ++ [{| device := Y; mutex := a; pc := Running |}]).
Proof.
  intros C%reachable_consistent. split_and!.
  - intros t1 t2 tk1 tk2 L1 L2 D H1 H2.
    eapply (c_exclusive _ C t1 t2 tk1 tk2); try done.
    assert (isSettled (pc tk1) = false) as U1 by by destruct (pc tk1).
    assert (isSettled (pc tk2) = false) as U2 by by destruct (pc tk2).
    pose proof (c_registered _ C _ _ L1 U1) as R1.
    pose proof (c_registered _ C _ _ L2 U2) as R2.
    rewrite D in R1. congruence.
  - apply C.
  - intros Y Q. destruct (call_quiescent s Y C Q) as (s1 & a & S1 & Ts).
    destruct s1 as [ms hp ts]. simpl in Ts. subst ts.
    eexists _, _, a. split; [exact S1|]. simpl. by rewrite resume_granted.
Qed.


End MutexFacts.

Lemma withDeviceLock_serializes_witness :
  ∃ s, Mutex.runPermitted (@Mutex.init nat nat)
         [Mutex.Call "X"; Mutex.Call "X"; Mutex.Resume 0; Mutex.Call "Y";
          Mutex.Resume 2] = Some s
       ∧ Mutex.pc <$> Mutex.tasks s
         = [Mutex.Running; Mutex.Waiting; Mutex.Running]
       ∧ ∀ d1 d2 a, Mutex.mutexes s !! d1 = Some a →
                    Mutex.mutexes s !! d2 = Some a → d1 = d2.
Proof.
  eexists. split; [vm_compute; reflexivity|]. split; [reflexivity|].
  eapply (withDeviceLock_serializes_per_device
            [Mutex.Call "X"; Mutex.Call "X"; Mutex.Resume 0; Mutex.Call "Y";
             Mutex.Resume 2]).
  vm_compute. reflexivity.
Defined.


(** Outside that contract: [removeMutex] while the lock is held lets a
    second operation for the same device run next to the first. *)
Remark removeMutex_while_held_overlaps :
  ∃ s, Mutex.run (@Mutex.init nat nat)
         [Mutex.Call "X"; Mutex.Resume 0; Mutex.Remove "X"; Mutex.Call "X";
          Mutex.Resume 1] = Some s
       ∧ Mutex.tasks s = [Mutex.mkTask "X" 0 Mutex.Running;
                          Mutex.mkTask "X" 1 Mutex.Running].
Proof. eexists. split; vm_compute; reflexivity. Qed.

(** C2. The code breaks the claim where [removeMutex] is called for a
    device while its lock is held, as the disconnect of the device service
    does inside its own locked operation.  The call that was waiting
    takes the old lock object over when the operation settles; the next
    call for the same device finds no lock object, creates one and is
    granted at once: two operations for device A run together. *)
Theorem withDeviceLock_overlaps_after_removeMutex :
  ∃ s, Mutex.run (@Mutex.init nat nat)
         [Mutex.Call "A"; Mutex.Resume 0; Mutex.Call "A"; Mutex.Remove "A";
          Mutex.Finish 0 (Mutex.Resolved 0); Mutex.Resume 1; Mutex.Call "A";
          Mutex.Resume 2] = Some s
       ∧ Mutex.tasks s
         = [Mutex.mkTask "A" 0 (Mutex.Settled (Mutex.Resolved 0));
            Mutex.mkTask "A" 0 Mutex.Running;
            Mutex.mkTask "A" 1 Mutex.Running]
       ∧ Mutex.heap s = [Mutex.mkMutex true []; Mutex.mkMutex true []]
       ∧ Mutex.mutexes s !! "A" = Some 1.
Proof. eexists. split; [vm_compute; reflexivity|]. by split_and!. Qed.
(* ===================================================================== *)
(** ** More about the device mutex manager                                *)
(* ===================================================================== *)

Section MutexMore.
Import Mutex.
Context {T E : Type}.
Implicit Types (s : State T E) (tk : Task T E) (ev : Event T E).

Lemma init_queued : queued (@init T E).
Proof. split; simpl; intros ? ? H; by rewrite lookup_nil in H. Qed.

Lemma getMutex_queued s d : queued s → queued (getMutex d s).2.
Proof.
  intros Q. unfold getMutex. destruct (mutexes s !! d); [done|].
  split; simpl.
  - intros a m [[_ H]|[_ [= <-]]]%lookup_snoc_Some; [by eapply q_sorted|].
    constructor.
  - intros t tk L W. destruct (q_waiting _ Q t tk L W) as (m & H & I).
    exists m. split; [by apply lookup_app_l_Some|done].
Qed.

Lemma callWithDeviceLock_queued s d s' :
  consistent s → queued s → callWithDeviceLock d s = Some s' → queued s'.
Proof.
  intros C0 Q0. unfold callWithDeviceLock.
  destruct (getMutex_consistent s d C0) as (C & _).
  pose proof (getMutex_queued s d Q0) as Q.
  destruct (getMutex d s) as [a s1]. simpl in C, Q.
  destruct (heap s1 !! a) as [m|] eqn:Hm; [|done]. simpl.
  assert (a < length (heap s1)) as La by by eapply lookup_lt_Some.
  unfold acquire. destruct (locked m) eqn:Lk; simpl; intros [= <-]; split; simpl.
  - intros a' m'. destruct (decide (a' = a)) as [->|N].
    + rewrite list_lookup_insert_eq by done. intros [= <-]. simpl.
      apply StronglySorted_app_2; [|by eapply q_sorted|repeat constructor].
      intros w n Hw ->%list_elem_of_singleton.
      destruct (c_queue _ C a m Hm) as [_ Hq].
      destruct (Hq w Hw) as (tk & L & _). by eapply lookup_lt_Some.
    + rewrite list_lookup_insert_ne by done. by eapply q_sorted.
  - intros t tk [[Lt L]|[-> [= <-]]]%lookup_snoc_Some W; simpl in *.
    + destruct (q_waiting _ Q t tk L W) as (m0 & H & I).
      destruct (decide (mutex tk = a)) as [Ea|N].
      * rewrite Ea in *. rewrite list_lookup_insert_eq by done.
        eexists. split; [done|]. simpl.
        assert (m0 = m) as -> by congruence. apply elem_of_app. by left.
      * exists m0. by rewrite list_lookup_insert_ne.
    + rewrite list_lookup_insert_eq by done. eexists. split; [done|]. simpl.
      apply elem_of_app. right. by apply list_elem_of_singleton.
  - intros a' m'. destruct (decide (a' = a)) as [->|N].
    + rewrite list_lookup_insert_eq by done. intros [= <-]. simpl.
      by eapply q_sorted.
    + rewrite list_lookup_insert_ne by done. by eapply q_sorted.
  - intros t tk [[Lt L]|[-> [= <-]]]%lookup_snoc_Some W; simpl in *; [|done].
    destruct (q_waiting _ Q t tk L W) as (m0 & H & I).
    destruct (decide (mutex tk = a)) as [Ea|N].
    + rewrite Ea in *. rewrite list_lookup_insert_eq by done.
      eexists. split; [done|]. simpl. by assert (m0 = m) as -> by congruence.
    + exists m0. by rewrite list_lookup_insert_ne.
Qed.

Lemma resume_queued s t s' : queued s → resume t s = Some s' → queued s'.
Proof.
  intros Q. unfold resume. destruct (tasks s !! t) as [tk0|]; [|done]. simpl.
  destruct (pc tk0); try done. intros [= <-]. split; simpl.
  - apply Q.
  - intros i tk' (tk & L & _ & M & P)%lookup_setPc W. rewrite M.
    apply (q_waiting _ Q i tk L). rewrite W in P.
    by destruct (decide (i = t)).
Qed.

Lemma finish_queued s t o s' : queued s → finish t o s = Some s' → queued s'.
Proof.
  intros Q. unfold finish. destruct (tasks s !! t) as [tk0|] eqn:Lt; [|done].
  simpl. destruct (pc tk0) eqn:P0; try done.
  destruct (heap s !! mutex tk0) as [m|] eqn:Hm; [|done]. simpl.
  assert (mutex tk0 < length (heap s)) as La by by eapply lookup_lt_Some.
  pose proof (q_sorted _ Q _ _ Hm) as Sm.
  unfold release. destruct (waitQueue m) as [|w rest] eqn:Wq;
    intros [= <-]; split; simpl.
  - intros a m'. destruct (decide (a = mutex tk0)) as [->|N].
    + rewrite list_lookup_insert_eq by done. intros [= <-]. constructor.
    + rewrite list_lookup_insert_ne by done. by eapply q_sorted.
  - intros i tk' (tk & L & _ & M & P)%lookup_setPc W. rewrite M.
    rewrite W in P. destruct (decide (i = t)); [done|].
    destruct (q_waiting _ Q i tk L (eq_sym P)) as (m0 & H & I).
    destruct (decide (mutex tk = mutex tk0)) as [Ea|N].
    + rewrite Ea in H. assert (m0 = m) as -> by congruence.
      rewrite Wq in I. by apply elem_of_nil in I.
    + exists m0. by rewrite list_lookup_insert_ne.
  - intros a m'. destruct (decide (a = mutex tk0)) as [->|N].
    + rewrite list_lookup_insert_eq by done. intros [= <-]. simpl.
      by apply StronglySorted_cons in Sm as [_ ?].
    + rewrite list_lookup_insert_ne by done. by eapply q_sorted.
  - intros i tk' (tk1 & (tk & L & _ & M & P)%lookup_setPc & _ & M1 & P1)%lookup_setPc W.
    rewrite M1, M. rewrite W in P1.
    destruct (decide (i = w)) as [|Nw]; [done|]. rewrite <- P1 in P.
    destruct (decide (i = t)) as [|Nt]; [done|].
    destruct (q_waiting _ Q i tk L (eq_sym P)) as (m0 & H & I).
    destruct (decide (mutex tk = mutex tk0)) as [Ea|N].
    + rewrite Ea in *. assert (m0 = m) as -> by congruence.
      rewrite list_lookup_insert_eq by done. eexists. split; [done|]. simpl.
      rewrite Wq in I. apply elem_of_cons in I as [?|?]; done.
    + exists m0. by rewrite list_lookup_insert_ne.
Qed.

Lemma step_queued s ev s' :
  consistent s → queued s → step s ev = Some s' → queued s'.
Proof.
  intros C Q. destruct ev as [d|t|t o|d]; simpl.
  - by apply callWithDeviceLock_queued.
  - by apply resume_queued.
  - by apply finish_queued.
  - intros [= <-]. split; simpl; apply Q.
Qed.

Lemma runPermitted_queued evs s s' :
  consistent s → queued s → runPermitted s evs = Some s' → queued s'.
Proof.
  revert s. induction evs as [|ev evs IH]; intros s C Q; simpl.
  - by intros [= <-].
  - destruct (permitted s ev) eqn:P; [|done].
    destruct (step s ev) as [s1|] eqn:S; [|done]. simpl.
    apply IH; [by eapply step_consistent|by eapply step_queued].
Qed.

(** Two activations for one device that have not settled share the lock
    object. *)
Lemma same_device_same_mutex s t1 t2 tk1 tk2 :
  consistent s →
  tasks s !! t1 = Some tk1 → tasks s !! t2 = Some tk2 →
  isSettled (pc tk1) = false → isSettled (pc tk2) = false →
  device tk1 = device tk2 → mutex tk1 = mutex tk2.
Proof.
  intros C L1 L2 U1 U2 D.
  pose proof (c_registered _ C _ _ L1 U1) as R1.
  pose proof (c_registered _ C _ _ L2 U2) as R2.
  rewrite D in R1. congruence.
Qed.

(** X11. As long as [removeMutex] is called only for devices that have
    nothing queued or holding, the lock is handed over in the order of the
    calls.  When the operation of the holder settles while calls for the
    same device are waiting, the lock goes to one of them, and to the one
    that called first; it is not free in between. *)
Theorem withDeviceLock_grants_in_call_order
    (evs : list (Event T E)) (s : State T E) (t w : nat)
    (tk tkw : Task T E) (o : Outcome T E) :
  runPermitted init evs = Some s →
  tasks s !! t = Some tk → pc tk = Running →
  tasks s !! w = Some tkw → pc tkw = Waiting → device tkw = device tk →
  ∃ s' g tkg m',
    step s (Finish t o) = Some s'
    ∧ tasks s !! g = Some tkg ∧ pc tkg = Waiting ∧ device tkg = device tk
    ∧ tasks s' !! g
      = Some {| device := device tkg; mutex := mutex tkg; pc := Granted |}
    ∧ (∀ w' tk', tasks s !! w' = Some tk' → pc tk' = Waiting →
         device tk' = device tk → g ≤ w')
    ∧ (∀ w' tk', tasks s' !! w' = Some tk' → w' ≠ g →
         device tk' = device tk → holding (pc tk') = false)
    ∧ heap s' !! mutex tk = Some m' ∧ isLocked m' = true.
Proof.
  intros R Lt P Lw Pw D.
  pose proof (reachable_consistent _ _ R) as C.
  pose proof (runPermitted_queued _ _ _ init_consistent init_queued R) as Q.
  assert (isSettled (pc tk) = false) as Ut by by rewrite P.
  assert (mutex tkw = mutex tk) as Mw.
  { apply (same_device_same_mutex s w t); try done. by rewrite Pw. }
  destruct (q_waiting _ Q w tkw Lw Pw) as (m & Hm & Iw). rewrite Mw in Hm.
  pose proof (q_sorted _ Q _ _ Hm) as Sm.
  destruct (c_queue _ C _ m Hm) as [ND Hq].
  assert (mutex tk < length (heap s)) as La by by eapply lookup_lt_Some.
  assert (locked m = true) as Lk.
  { destruct (locked m) eqn:Lk; [done|].
    destruct (c_unlocked _ C _ m Hm Lk) as [Em _]. rewrite Em in Iw.
    by apply elem_of_nil in Iw. }
  destruct (waitQueue m) as [|g rest] eqn:Wq; [by apply elem_of_nil in Iw|].
  destruct (Hq g) as (tkg & Lg & Mg & Pg); [by left|].
  assert (t ≠ g) as N by (intros ->; congruence).
  assert (device tkg = device tk) as Dg.
  { apply (c_injective _ C _ _ (mutex tk)).
    - rewrite <- Mg. apply (c_registered _ C g tkg Lg). by rewrite Pg.
    - by apply (c_registered _ C t tk Lt). }
  apply StronglySorted_cons in Sm as [Fg _]. rewrite Forall_forall in Fg.
  eexists _, g, tkg, _. split.
  { simpl. unfold finish. rewrite Lt. simpl. rewrite P, Hm. simpl.
    unfold release. rewrite Wq. done. }
  simpl. split_and!; [done..| | | | |].
  - apply lookup_setPc_eq. by rewrite lookup_setPc_ne.
  - intros w' tk' L' P' D'.
    assert (mutex tk' = mutex tk) as M'.
    { apply (same_device_same_mutex s w' t); try done. by rewrite P'. }
    destruct (q_waiting _ Q w' tk' L' P') as (m0 & H0 & I0).
    rewrite M' in H0. assert (m0 = m) as -> by congruence.
    rewrite Wq in I0. apply elem_of_cons in I0 as [->|I0]; [done|].
    specialize (Fg w' I0). lia.
  - intros w' tk' (tk1 & (tk0 & L0 & D0 & M0 & P0)%lookup_setPc
                       & D1 & M1 & P1)%lookup_setPc Ng D'.
    rewrite decide_False in P1 by done. rewrite P1, P0.
    destruct (decide (w' = t)) as [|Nt]; [done|].
    destruct (holding (pc tk0)) eqn:Hh; [|done]. exfalso. apply Nt.
    apply (c_exclusive _ C w' t tk0 tk); try done; [|by rewrite P].
    apply (same_device_same_mutex s w' t); try done; [|congruence].
    by destruct (pc tk0).
  - by apply list_lookup_insert_eq.
  - done.
Qed.

(** X12. The lock of a device reports itself held exactly when an activation
    for that device has been granted the lock and has not released it. *)
Theorem isLocked_iff_device_held
    (evs : list (Event T E)) (s : State T E) (d : string) (a : nat)
    (m : AsyncMutex) :
  runPermitted init evs = Some s →
  mutexes s !! d = Some a → heap s !! a = Some m →
  isLocked m = true
  ↔ ∃ t tk, tasks s !! t = Some tk ∧ device tk = d ∧ holding (pc tk) = true.
Proof.
  intros C%reachable_consistent Md Hm. unfold isLocked. split.
  - intros Lk. destruct (c_locked _ C a m Hm Lk) as (t & tk & L & M & Hh).
    exists t, tk. split_and!; [done| |done].
    apply (c_injective _ C _ _ a); [|done]. rewrite <- M.
    apply (c_registered _ C t tk L). by destruct (pc tk).
  - intros (t & tk & L & D & Hh). destruct (locked m) eqn:Lk; [done|].
    destruct (c_unlocked _ C a m Hm Lk) as [_ Un].
    rewrite (Un t tk L) in Hh; [done|].
    assert (mutexes s !! device tk = Some (mutex tk)) as R.
    { apply (c_registered _ C t tk L). by destruct (pc tk). }
    rewrite D in R. congruence.
Qed.

(** X13. [removeMutex] does not look at the lock.  Called by the operation that
    holds the lock of a device, as the disconnect of the device service
    does, it makes the next call for the device create a new lock object:
    that call is granted at once and holds a lock for the device together
    with the running operation. *)
Theorem removeMutex_inside_lock_splits_device
    (evs : list (Event T E)) (s : State T E) (t : nat) (tk : Task T E) :
  runPermitted init evs = Some s →
  tasks s !! t = Some tk → pc tk = Running →
  ∃ s1 s2,
    step s (Remove (device tk)) = Some s1
    ∧ step s1 (Call (device tk)) = Some s2
    ∧ tasks s2
      = tasks s ++ [{| device := device tk; mutex := length (heap s);
                       pc := Granted |}]
    ∧ tasks s2 !! t = Some tk
    ∧ mutex tk ≠ length (heap s)
    ∧ mutexes s2 !! device tk = Some (length (heap s)).
Proof.
  intros C%reachable_consistent Lt P.
  pose proof (c_task_mutex _ C _ _ Lt) as Lm.
  eexists _, _. split; [done|]. simpl.
  unfold callWithDeviceLock, getMutex. simpl. rewrite lookup_delete_eq. simpl.
  rewrite lookup_app_r, Nat.sub_diag by done. simpl.
  split; [done|]. simpl. split_and!; [done| |lia|].
  - by apply lookup_app_l_Some.
  - by rewrite lookup_insert_eq.
Qed.

Lemma run_mutexes_kept evs s0 s d :
  run s0 evs = Some s → (∀ d', Remove d' ∉ evs) →
  is_Some (mutexes s !! d) ↔ is_Some (mutexes s0 !! d) ∨ Call d ∈ evs.
Proof.
  revert s0. induction evs as [|ev evs IH]; intros s0; simpl.
  - intros [= <-] _. split; [by left|]. intros [?|H]; [done|].
    by apply elem_of_nil in H.
  - destruct (step s0 ev) as [s1|] eqn:S; [|done]. simpl. intros R NR.
    rewrite (IH s1 R) by (intros d' H; apply (NR d'); by right).
    assert (is_Some (mutexes s1 !! d)
            ↔ is_Some (mutexes s0 !! d) ∨ ev = Call d) as ->.
    { destruct ev as [d0|t0|t0 o0|d0]; simpl in S.
      - unfold callWithDeviceLock, getMutex in S.
        destruct (mutexes s0 !! d0) as [a|] eqn:M0; simpl in S.
        + destruct (heap s0 !! a); [|done]. simpl in S.
          destruct (acquire _ _). injection S as <-. simpl.
          split; [by left|]. intros [?|[= <-]]; [done|]. by rewrite M0.
        + rewrite lookup_app_r, Nat.sub_diag in S by done. simpl in S.
          injection S as <-. simpl.
          rewrite lookup_insert_is_Some. split.
          * intros [->|[_ ?]]; [by right|by left].
          * intros [?|[= <-]]; [|by left].
            destruct (decide (d0 = d)); [by left|by right].
      - unfold resume in S. destruct (tasks s0 !! t0) as [tk0|]; [|done].
        simpl in S. destruct (pc tk0); try done. injection S as <-. simpl.
        split; [by left|]. by intros [?|?].
      - unfold finish in S. destruct (tasks s0 !! t0) as [tk0|]; [|done].
        simpl in S. destruct (pc tk0); try done.
        destruct (heap s0 !! mutex tk0); [|done]. simpl in S.
        destruct (release _). injection S as <-. simpl.
        split; [by left|]. by intros [?|?].
      - exfalso. apply (NR d0). by left. }
    rewrite elem_of_cons. split.
    + intros [[?|?]|?]; [by left|right; by left|right; by right].
    + intros [?|[?|?]]; [left; by left|left; by right|by right].
Qed.

(** X14. Only [removeMutex] takes a lock object out of the manager: as long as it
    is not called, the devices with a lock object are the devices
    [withDeviceLock] has been called for, whether their operations have
    settled or not. *)
Theorem mutexes_kept_until_removed
    (evs : list (Event T E)) (s : State T E) (d : string) :
  run init evs = Some s → (∀ d', Remove d' ∉ evs) →
  is_Some (mutexes s !! d) ↔ Call d ∈ evs.
Proof.
  intros R NR. rewrite (run_mutexes_kept evs init s d R NR). simpl.
  rewrite lookup_empty. split; [|by right].
  intros [[? ?]|?]; done.
Qed.


End MutexMore.

Lemma withDeviceLock_grants_in_call_order_witness :
  ∃ s', Mutex.step
          (Mutex.mkState {["X" := 0]} [Mutex.mkMutex true [1; 2]]
             [Mutex.mkTask "X" 0 (@Mutex.Running nat nat);
              Mutex.mkTask "X" 0 Mutex.Waiting;
              Mutex.mkTask "X" 0 Mutex.Waiting])
          (Mutex.Finish 0 (Mutex.Resolved 7)) = Some s'
        ∧ Mutex.pc <$> Mutex.tasks s'
          = [Mutex.Settled (Mutex.Resolved 7); Mutex.Granted; Mutex.Waiting].
Proof.
  destruct (@withDeviceLock_grants_in_call_order nat nat
              [Mutex.Call "X"; Mutex.Resume 0; Mutex.Call "X"; Mutex.Call "X"]
              (Mutex.mkState {["X" := 0]} [Mutex.mkMutex true [1; 2]]
                 [Mutex.mkTask "X" 0 Mutex.Running;
                  Mutex.mkTask "X" 0 Mutex.Waiting;
                  Mutex.mkTask "X" 0 Mutex.Waiting])
              0 2 (Mutex.mkTask "X" 0 Mutex.Running)
              (Mutex.mkTask "X" 0 Mutex.Waiting) (Mutex.Resolved 7))
    as (s' & g & tkg & m' & S & _);
    [vm_compute; reflexivity|reflexivity..|].
  exists s'. split; [exact S|]. vm_compute in S. injection S as <-.
  reflexivity.
Defined.

Lemma isLocked_iff_device_held_witness :
  Mutex.isLocked (Mutex.mkMutex true [])  = true
  ↔ ∃ t tk, [Mutex.mkTask "X" 0 (@Mutex.Running nat nat)] !! t = Some tk
            ∧ Mutex.device tk = "X" ∧ Mutex.holding (Mutex.pc tk) = true.
Proof.
  apply (@isLocked_iff_device_held nat nat
           [Mutex.Call "X"; Mutex.Resume 0]
           (Mutex.mkState {["X" := 0]} [Mutex.mkMutex true []]
              [Mutex.mkTask "X" 0 Mutex.Running]) "X" 0);
    [vm_compute; reflexivity|reflexivity..].
Defined.

Lemma removeMutex_inside_lock_witness :
  ∃ s2, Mutex.run (@Mutex.init nat nat)
          [Mutex.Call "X"; Mutex.Resume 0; Mutex.Remove "X"; Mutex.Call "X"]
        = Some s2
        ∧ Mutex.tasks s2 = [Mutex.mkTask "X" 0 Mutex.Running;
                            Mutex.mkTask "X" 1 Mutex.Granted].
Proof.
  destruct (@removeMutex_inside_lock_splits_device nat nat
              [Mutex.Call "X"; Mutex.Resume 0]
              (Mutex.mkState {["X" := 0]} [Mutex.mkMutex true []]
                 [Mutex.mkTask "X" 0 Mutex.Running])
              0 (Mutex.mkTask "X" 0 Mutex.Running))
    as (s1 & s2 & S1 & S2 & Ts & _);
    [vm_compute; reflexivity|reflexivity..|].
  exists s2. split; [|exact Ts].
  vm_compute in S1. injection S1 as <-. vm_compute. vm_compute in S2.
  exact S2.
Defined.

Lemma mutexes_kept_until_removed_witness :
  ∃ s, Mutex.run (@Mutex.init nat nat)
         [Mutex.Call "X"; Mutex.Resume 0; Mutex.Finish 0 (Mutex.Resolved 1)]
       = Some s
       ∧ is_Some (Mutex.mutexes s !! "X") ∧ ¬ is_Some (Mutex.mutexes s !! "Y").
Proof.
  eexists. split; [vm_compute; reflexivity|].
  split.
  - apply (mutexes_kept_until_removed
             [Mutex.Call "X"; Mutex.Resume 0; Mutex.Finish 0 (Mutex.Resolved 1)]);
      [vm_compute; reflexivity| |by left].
    intros d' H. repeat (apply elem_of_cons in H as [H|H]; [done|]).
    by apply elem_of_nil in H.
  - intros H.
    apply (mutexes_kept_until_removed
             [Mutex.Call "X"; Mutex.Resume 0; Mutex.Finish 0 (Mutex.Resolved 1)])
      in H; [|vm_compute; reflexivity|].
    + repeat (apply elem_of_cons in H as [H|H]; [done|]).
      by apply elem_of_nil in H.
    + intros d' H'. repeat (apply elem_of_cons in H' as [H'|H']; [done|]).
      by apply elem_of_nil in H'.
Defined.


(* ===================================================================== *)
(** ** Facts about the metadata constructor                               *)
(* ===================================================================== *)

Section ProtocolFacts.
Import Protocol.
Local Open Scope Z_scope.

(** C8, as the claim states it, fails: a codec outside the enumeration is
    not rejected. *)
Lemma createMetadataMessage_no_InvalidCodec_counterexample :
  createMetadataMessage "vp9" 1170 2532 (Some 15)
  = Returned {| type := "metadata"; codec := JsUndefined; codecName := "vp9";
                width := 1170; height := 2532; fps := Some 15 |}
  ∧ createMetadataMessage "vp9" 1170 2532 (Some 15) ≠ Thrown "InvalidCodec".
Proof. split; [reflexivity|discriminate]. Qed.

(** C8, amended. The constructor never fails, whatever string it is given;
    its parameter type allows the three codec names only, and for each of
    them the id and the name of the envelope are the pair that [CODEC] and
    [CODEC_NAME] give for that one argument: h264 with 0, mjpeg with 1, h265
    with 2.  Both fields are computed from the single codec argument.  For
    any string the envelope carries the string as its name and
    [codecMap[codec]] as its codec: the id for a codec name; for any other
    string no number, but the inherited member when the string names a
    member of [Object.prototype], and [undefined] otherwise. *)
Theorem createMetadataMessage_consistent_pair
    (c : CodecName) (anyCodec : string) (w h : Z) (f : option Z) :
  createMetadataMessage (codecNameString c) w h f
  = Returned {| type := "metadata"; codec := JsNumber (CODEC c);
                codecName := codecNameString c;
                width := w; height := h; fps := f |}
  ∧ CODEC_NAME (CODEC c) = Some (codecNameString c)
  ∧ (CODEC h264 = 0 ∧ CODEC mjpeg = 1 ∧ CODEC h265 = 2)
  ∧ createMetadataMessage anyCodec w h f
    = Returned {| type := "metadata"; codec := getProperty codecMap anyCodec;
                  codecName := anyCodec;
                  width := w; height := h; fps := f |}
  ∧ ((∃ c', anyCodec = codecNameString c'
            ∧ getProperty codecMap anyCodec = JsNumber (CODEC c'))
     ∨ ((∀ c', anyCodec ≠ codecNameString c')
        ∧ anyCodec ∈ objectPrototypeKeys
        ∧ getProperty codecMap anyCodec = JsInherited anyCodec)
     ∨ ((∀ c', anyCodec ≠ codecNameString c')
        ∧ (anyCodec ∉ objectPrototypeKeys)
        ∧ getProperty codecMap anyCodec = JsUndefined)).
Proof.
  split_and!; [by destruct c|by destruct c|done|done|done|done|].
  unfold getProperty.
  assert (match ownProperty codecMap anyCodec with
          | Some n => ∃ c', anyCodec = codecNameString c' ∧ n = CODEC c'
          | None => ∀ c', anyCodec ≠ codecNameString c'
          end) as O.
  { unfold codecMap. cbn [ownProperty].
    destruct (String.eqb_spec "h264" anyCodec) as [<-|N1]; [by exists h264|].
    destruct (String.eqb_spec "mjpeg" anyCodec) as [<-|N2]; [by exists mjpeg|].
    destruct (String.eqb_spec "h265" anyCodec) as [<-|N3]; [by exists h265|].
    by intros []. }
  destruct (ownProperty codecMap anyCodec) as [n|].
  - left. destruct O as (c' & -> & ->). by exists c'.
  - right.
    destruct (existsb (String.eqb anyCodec) objectPrototypeKeys) eqn:Ex.
    + left. split_and!; [done| |done].
      apply existsb_exists in Ex as (k & Hk & ->%String.eqb_eq).
      by apply list_elem_of_In.
    + right. split_and!; [done| |done]. intros Hk.
      apply not_true_iff_false in Ex. apply Ex, existsb_exists.
      exists anyCodec. split; [by apply list_elem_of_In|].
      apply String.eqb_refl.
Qed.

End ProtocolFacts.
(* ===================================================================== *)
(** ** More about the metadata constructor                                *)
(* ===================================================================== *)

Section ProtocolMore.
Import Protocol.
Local Open Scope Z_scope.

(** X15. Whatever string [createMetadataMessage] is given, the [codec] of the
    message is a number exactly when the string is one of the three codec
    names; the number is then the id [CODEC] has for that name, and
    [CODEC_NAME] maps it back to the [codecName] of the message.  For any
    other string [codec] is not a number. *)
Theorem createMetadataMessage_codec_number
    (name : string) (w h : Z) (f : option Z) :
  ∃ m, createMetadataMessage name w h f = Returned m
       ∧ codecName m = name
       ∧ ((∃ c, name = codecNameString c
                ∧ codec m = JsNumber (CODEC c)
                ∧ CODEC_NAME (CODEC c) = Some (codecName m))
          ∨ ((∀ c, name ≠ codecNameString c) ∧ ∀ n, codec m ≠ JsNumber n)).
Proof.
  eexists. split; [done|]. split; [done|]. cbn [codec codecName].
  unfold getProperty.
  assert (match ownProperty codecMap name with
          | Some n => ∃ c, name = codecNameString c ∧ n = CODEC c
          | None => ∀ c, name ≠ codecNameString c
          end) as O.
  { unfold codecMap. cbn [ownProperty].
    destruct (String.eqb_spec "h264" name) as [<-|N1]; [by exists h264|].
    destruct (String.eqb_spec "mjpeg" name) as [<-|N2]; [by exists mjpeg|].
    destruct (String.eqb_spec "h265" name) as [<-|N3]; [by exists h265|].
    by intros []. }
  destruct (ownProperty codecMap name) as [n|].
  - left. destruct O as (c & -> & ->). exists c. by destruct c.
  - right. split; [done|]. intros n.
    by destruct (existsb (String.eqb name) objectPrototypeKeys).
Qed.

End ProtocolMore.

(* ===================================================================== *)
(** ** Facts about the simulator stream relay                             *)
(* ===================================================================== *)

Section RelayFacts.
Import Relay.
Local Open Scope Z_scope.

Ltac relay_unfold :=
  unfold startPingInterval, onCloseAdd, onMessageAdd, newSet, wsSend, wsClose,
    clearInterval, setConnections, setSockets, setSets, setTimers, update;
  simpl.

(** *** Sockets under the primitive operations *)

Lemma wsSend_socket ws e w x :
  sockets (wsSend ws e w) x =
  if decide (x = ws) then
    if isOpen (readyState (sockets w x))
    then {| readyState := readyState (sockets w x);
            sent := sent (sockets w x) ++ [e];
            onMessage := onMessage (sockets w x);
            onClose := onClose (sockets w x) |}
    else sockets w x
  else sockets w x.
Proof. unfold wsSend, setSockets, update. simpl. by case_decide. Qed.


Lemma wsClose_readyState ws w x :
  readyState (sockets (wsClose ws w) x) =
  if decide (x = ws) then
    if isOpen (readyState (sockets w x)) then CLOSING
    else readyState (sockets w x)
  else readyState (sockets w x).
Proof.
  unfold wsClose, setSockets, update. simpl. case_decide; [|done].
  by destruct (isOpen (readyState (sockets w x))).
Qed.

Lemma wsClose_sent ws w x :
  sent (sockets (wsClose ws w) x) = sent (sockets w x).
Proof.
  unfold wsClose, setSockets, update. simpl. case_decide; [|done].
  by destruct (isOpen (readyState (sockets w x))).
Qed.

Lemma onMessageAdd_socket ws l w x :
  readyState (sockets (onMessageAdd ws l w) x) = readyState (sockets w x)
  ∧ sent (sockets (onMessageAdd ws l w) x) = sent (sockets w x).
Proof. unfold onMessageAdd, setSockets, update. simpl. by case_decide. Qed.

Lemma onCloseAdd_socket ws l w x :
  readyState (sockets (onCloseAdd ws l w) x) = readyState (sockets w x)
  ∧ sent (sockets (onCloseAdd ws l w) x) = sent (sockets w x).
Proof. unfold onCloseAdd, setSockets, update. simpl. by case_decide. Qed.

Lemma stopPollingFallback_keeps d w :
  sockets (stopPollingFallback d w) = sockets w
  ∧ connections (stopPollingFallback d w) = connections w
  ∧ sets (stopPollingFallback d w) = sets w
  ∧ now (stopPollingFallback d w) = now w.
Proof. unfold stopPollingFallback. by destruct (pollingIntervals w !! d). Qed.

Lemma startPingInterval_keeps ws d w x :
  readyState (sockets (startPingInterval ws d w) x) = readyState (sockets w x)
  ∧ sent (sockets (startPingInterval ws d w) x) = sent (sockets w x)
  ∧ connections (startPingInterval ws d w) = connections w
  ∧ sets (startPingInterval ws d w) = sets w.
Proof.
  unfold startPingInterval.
  destruct (onCloseAdd_socket ws (ClearInterval (length (timers w)))
    (setTimers (λ ts, ts ++ [{| due := now w + 30000;
                                callback := PingCallback ws;
                                period := Some 30000; live := true |}]) w) x)
    as [-> ->].
  done.
Qed.

(** The scenario of the specification: a producer announces its metadata
    and sends three frames; one consumer attached before the announcement
    and one after it each see the metadata once and the frames in order. *)
Example relay_scenario :
  let meta := mkMeta 1170 2532 15 in
  let w := run startWorld
             [DeviceConnects 0 "sim"; BrowserConnects 1 "sim";
              Receives 0 (Some (MMetadata meta)); BrowserConnects 2 "sim";
              Receives 0 (Some (MFrame "a" 1)); Receives 0 (Some (MFrame "b" 2));
              Receives 0 (Some (MFrame "c" 3))] in
  sent (sockets w 1) = sent (sockets w 2)
  ∧ sent (sockets w 2)
    = [EMetadata 1 "mjpeg" meta; EForward (MFrame "a" 1);
       EForward (MFrame "b" 2); EForward (MFrame "c" 3)].
Proof. vm_compute. by split. Qed.

(** *** C10: the placeholder session *)



Lemma connections_broadcast l e w :
  connections (broadcast l e w) = connections w.
Proof.
  revert w. induction l as [|b l IH]; intros w; [done|]. simpl. rewrite IH.
  by destruct (isOpen (readyState (sockets w b))).
Qed.

(** [handleDeviceConnection], field by field. *)
Lemma handleDeviceConnection_connections ws d w :
  connections (handleDeviceConnection ws d w)
  = <[d := {| device := ws;
              browsers := match connections w !! d with
                          | Some ex => browsers ex
                          | None => nextSet w
                          end;
              metadata := None; lastFrameTime := now w; frameCount := 0 |}]>
      (connections w).
Proof.
  destruct (stopPollingFallback_keeps d w) as (Hs & Hc & Hb & Hn).
  unfold handleDeviceConnection. cbv zeta. rewrite Hc.
  destruct (connections w !! d) as [ex|]; cbv beta iota.
  - destruct (isOpen (readyState (sockets (stopPollingFallback d w) (device ex))));
      unfold startPingInterval, onCloseAdd, onMessageAdd, wsClose,
        setConnections, setSockets, setTimers; cbn [connections now];
      by rewrite Hc, Hn.
  - unfold startPingInterval, onCloseAdd, onMessageAdd, newSet,
      setConnections, setSockets, setTimers; cbn [connections now fst snd].
    unfold stopPollingFallback. by destruct (pollingIntervals w !! d).
Qed.

Lemma registered_socket ws d c w x :
  readyState (sockets (startPingInterval ws d
     (onCloseAdd ws (DeviceClose d)
        (onMessageAdd ws (DeviceMessage d) (setConnections c w)))) x)
  = readyState (sockets w x)
  ∧ sent (sockets (startPingInterval ws d
       (onCloseAdd ws (DeviceClose d)
          (onMessageAdd ws (DeviceMessage d) (setConnections c w)))) x)
    = sent (sockets w x).
Proof.
  destruct (startPingInterval_keeps ws d
    (onCloseAdd ws (DeviceClose d)
       (onMessageAdd ws (DeviceMessage d) (setConnections c w))) x)
    as (-> & -> & _).
  destruct (onCloseAdd_socket ws (DeviceClose d)
    (onMessageAdd ws (DeviceMessage d) (setConnections c w)) x) as (-> & ->).
  destruct (onMessageAdd_socket ws (DeviceMessage d) (setConnections c w) x)
    as (-> & ->).
  done.
Qed.

Lemma handleDeviceConnection_readyState ws d w x :
  readyState (sockets (handleDeviceConnection ws d w) x)
  = match connections w !! d with
    | Some ex =>
        if decide (x = device ex) then
          if isOpen (readyState (sockets w x)) then CLOSING
          else readyState (sockets w x)
        else readyState (sockets w x)
    | None => readyState (sockets w x)
    end.
Proof.
  destruct (stopPollingFallback_keeps d w) as (Hs & Hc & Hb & Hn).
  unfold handleDeviceConnection. cbv zeta. rewrite Hc.
  destruct (connections w !! d) as [ex|]; cbv beta iota.
  - rewrite Hs.
    destruct (isOpen (readyState (sockets w (device ex)))) eqn:O;
      rewrite (proj1 (registered_socket _ _ _ _ _)).
    + rewrite wsClose_readyState, Hs. by case_decide.
    + rewrite Hs. case_decide; [subst x; by rewrite O|done].
  - unfold newSet. cbn [fst snd].
    rewrite (proj1 (registered_socket _ _ _ _ _)). cbn [sockets]. by rewrite Hs.
Qed.

Lemma handleDeviceConnection_sets ws d w conn :
  connections w !! d = Some conn →
  sets (handleDeviceConnection ws d w) = sets w.
Proof.
  intros L. destruct (stopPollingFallback_keeps d w) as (Hs & Hc & Hb & Hn).
  unfold handleDeviceConnection. cbv zeta. rewrite Hc, L. cbv beta iota.
  destruct (isOpen (readyState (sockets (stopPollingFallback d w) (device conn))));
    unfold startPingInterval, onCloseAdd, onMessageAdd, wsClose,
      setConnections, setSockets, setTimers; cbn [sets]; done.
Qed.

(** *** C4: a second producer supersedes the first *)

(** C4. The code breaks the claim after the call.  The superseded socket
    keeps its 'message' and 'close' listeners, and they find the session by
    the device id: a metadata message that still arrives on it fills the
    cache the call had reset, its frames go to the consumers, and its
    'close' tells the consumers that the device is gone, all while the new
    producer is attached and open and has sent nothing. *)
Theorem superseded_producer_stays_active :
  let stale := mkMeta 640 480 30 in
  let w1 := run startWorld
              [DeviceConnects 0 "sim"; BrowserConnects 1 "sim";
               DeviceConnects 2 "sim"] in
  let w := run w1
             [Receives 0 (Some (MMetadata stale));
              Receives 0 (Some (MFrame "stale" 7)); Closed 0] in
  connections w1 !! "sim" = Some (mkConn 2 0 None 0 0)
  ∧ readyState (sockets w1 0) = CLOSING
  ∧ connections w !! "sim" = Some (mkConn 2 0 (Some stale) 0 1)
  ∧ isDeviceConnected "sim" w = true
  ∧ sent (sockets w 2) = []
  ∧ sent (sockets w 1)
    = [EMetadata 1 "mjpeg" stale; EForward (MFrame "stale" 7);
       EDeviceDisconnected "sim"].
Proof. vm_compute. split_and!; reflexivity. Qed.

(** *** C5: late-join replay of the cached metadata *)

Lemma extends_refl w : extends w w.
Proof. intros x. exists []. by rewrite app_nil_r. Qed.

Lemma extends_trans w1 w2 w3 : extends w1 w2 → extends w2 w3 → extends w1 w3.
Proof.
  intros H12 H23 x. destruct (H12 x) as [m1 E1], (H23 x) as [m2 E2].
  exists (m1 ++ m2). by rewrite E2, E1, app_assoc.
Qed.

Lemma extends_same_sockets w w' : sockets w' = sockets w → extends w w'.
Proof. intros E x. exists []. by rewrite E, app_nil_r. Qed.

Lemma wsSend_extends ws e w : extends w (wsSend ws e w).
Proof.
  intros x. rewrite wsSend_socket. case_decide; [|by exists []; rewrite app_nil_r].
  destruct (isOpen (readyState (sockets w x))); [by exists [e]|].
  exists []. by rewrite app_nil_r.
Qed.

Lemma foldl_extends {A} (f : World → A → World) (l : list A) w :
  (∀ a w0, extends w0 (f w0 a)) → extends w (foldl f w l).
Proof.
  intros H. revert w. induction l as [|a l IH]; intros w; simpl.
  - apply extends_refl.
  - eapply extends_trans; [apply H|apply IH].
Qed.

Lemma broadcast_extends l e w : extends w (broadcast l e w).
Proof.
  apply foldl_extends. intros b w0.
  destruct (isOpen (readyState (sockets w0 b)));
    [apply wsSend_extends|apply extends_refl].
Qed.

Lemma clearInterval_extends id w : extends w (clearInterval id w).
Proof. by apply extends_same_sockets. Qed.

Lemma handleDeviceConnection_sent ws d w x :
  sent (sockets (handleDeviceConnection ws d w) x) = sent (sockets w x).
Proof.
  destruct (stopPollingFallback_keeps d w) as (Hs & Hc & Hb & Hn).
  unfold handleDeviceConnection. cbv zeta.
  destruct (connections (stopPollingFallback d w) !! d) as [ex|]; cbv beta iota.
  - destruct (isOpen (readyState (sockets (stopPollingFallback d w) (device ex))));
      rewrite (proj2 (registered_socket _ _ _ _ _)).
    + by rewrite wsClose_sent, Hs.
    + by rewrite Hs.
  - unfold newSet. cbn [fst snd].
    rewrite (proj2 (registered_socket _ _ _ _ _)). cbn [sockets]. by rewrite Hs.
Qed.

Lemma handleDeviceConnection_extends ws d w :
  extends w (handleDeviceConnection ws d w).
Proof.
  intros x. exists []. by rewrite handleDeviceConnection_sent, app_nil_r.
Qed.

Lemma handleBrowserConnection_sent ws d w x :
  sent (sockets (handleBrowserConnection ws d w) x)
  = sent (sockets w x) ++
    if decide (x = ws) then
      match connections w !! d ≫= metadata with
      | Some meta =>
          if isOpen (readyState (sockets w ws)) then [metadataEnvelope meta]
          else []
      | None => []
      end
    else [].
Proof.
  unfold handleBrowserConnection.
  destruct (connections w !! d) as [conn|]; cbv beta iota zeta.
  - cbn [mbind option_bind]. destruct (metadata conn) as [meta|].
    + unfold onCloseAdd, onMessageAdd, wsSend, setSets, setSockets, update.
      cbn [sockets]. case_decide; [subst x|by rewrite app_nil_r].
      destruct (isOpen (readyState (sockets w ws))); simpl; [done|].
      by rewrite app_nil_r.
    + unfold onCloseAdd, onMessageAdd, setSets, setSockets, update.
      cbn [sockets]. case_decide; simpl; by rewrite app_nil_r.
  - unfold onCloseAdd, onMessageAdd, newSet, setConnections, setSets,
      setSockets, update.
    cbn [sockets fst snd metadata mbind option_bind].
    case_decide; simpl; by rewrite app_nil_r.
Qed.

Lemma handleBrowserConnection_extends ws d w :
  extends w (handleBrowserConnection ws d w).
Proof. intros x. eexists. apply handleBrowserConnection_sent. Qed.

Lemma handleDeviceMessage_extends d m w : extends w (handleDeviceMessage d m w).
Proof.
  unfold handleDeviceMessage.
  destruct (connections w !! d); [|apply extends_refl].
  destruct m; try apply extends_refl.
  - eapply extends_trans; [|apply broadcast_extends]. by apply extends_same_sockets.
  - eapply extends_trans; [|apply broadcast_extends]. by apply extends_same_sockets.
Qed.

Lemma handleBrowserMessage_extends d m ws w :
  extends w (handleBrowserMessage d m ws w).
Proof.
  unfold handleBrowserMessage.
  destruct (connections w !! d) as [conn|]; [|apply extends_refl].
  destruct m; try apply extends_refl.
  - destruct (isOpen _); [apply wsSend_extends|apply extends_refl].
  - destruct (metadata conn); [apply wsSend_extends|apply extends_refl].
Qed.

Lemma browserClosed_sockets d s ws w :
  sockets (browserClosed d s ws w) = sockets w.
Proof. unfold browserClosed. by destruct (sets _ s). Qed.

Lemma evictIfEmpty_sockets d w : sockets (evictIfEmpty d w) = sockets w.
Proof.
  unfold evictIfEmpty. destruct (connections w !! d) as [conn|]; [|done].
  by destruct (sets w (browsers conn)).
Qed.

Lemma runListener_extends msg l w : extends w (runListener msg l w).
Proof.
  destruct l as [d|d|d b|d s b|id], msg as [m|]; cbn [runListener];
    try apply extends_refl.
  - apply handleDeviceMessage_extends.
  - unfold deviceClosed. destruct (connections w !! d);
      [apply broadcast_extends|apply extends_refl].
  - apply handleBrowserMessage_extends.
  - apply extends_same_sockets, browserClosed_sockets.
  - apply clearInterval_extends.
Qed.

Lemma fire_extends k w : extends w (fire k w).
Proof.
  unfold fire. destruct (timers w !! k) as [tm|]; [|apply extends_refl].
  destruct (live tm && (due tm <=? now w)); [|apply extends_refl].
  cbv zeta. set (w1 := setTimers _ w).
  apply (extends_trans w w1); [by apply extends_same_sockets|].
  destruct (callback tm) as [d|ws].
  - apply extends_same_sockets, evictIfEmpty_sockets.
  - unfold pingTick. destruct (isOpen _);
      [apply wsSend_extends|apply clearInterval_extends].
Qed.

Lemma step_extends w ev : extends w (step w ev).
Proof.
  destruct ev as [ws d|ws d|ws [m|]|ws|ms|k]; cbn [step].
  - apply handleDeviceConnection_extends.
  - apply handleBrowserConnection_extends.
  - apply foldl_extends. intros; apply runListener_extends.
  - apply extends_refl.
  - cbv zeta. set (w1 := setSockets _ w).
    apply (extends_trans w w1);
      [|apply foldl_extends; intros; apply runListener_extends].
    intros x. exists []. unfold w1, setSockets, update. cbn [sockets].
    rewrite app_nil_r. by case_decide.
  - by apply extends_same_sockets.
  - apply fire_extends.
Qed.

Lemma run_extends evs w : extends w (run w evs).
Proof. apply foldl_extends. intros; apply step_extends. Qed.

(** C5. A consumer that attaches while the session has cached metadata is
    sent, within the call, exactly one metadata envelope: codec 1 and name
    mjpeg, the pair [CODEC_NAME] relates, with the cached width, height
    and fps.  Everything written to that consumer later on, frames
    included, comes after it, and no announcement of the producer is
    needed.  Without cached metadata nothing is sent at attach time. *)
Theorem late_join_replays_metadata
    (w : World) (ws : nat) (d : string) (evs : list Event) :
  readyState (sockets w ws) = OPEN →
  let w' := handleBrowserConnection ws d w in
  match connections w !! d ≫= metadata with
  | Some meta =>
      sent (sockets w' ws)
      = sent (sockets w ws) ++ [EMetadata 1 "mjpeg" meta]
      ∧ (∃ more, sent (sockets (run w' evs) ws)
                 = sent (sockets w ws) ++ EMetadata 1 "mjpeg" meta :: more)
      ∧ Protocol.CODEC_NAME 1 = Some "mjpeg"
  | None => sent (sockets w' ws) = sent (sockets w ws)
  end.
Proof.
  intros O w'.
  assert (sent (sockets w' ws) =
          sent (sockets w ws) ++
          match connections w !! d ≫= metadata with
          | Some meta => [EMetadata 1 "mjpeg" meta]
          | None => []
          end) as S.
  { unfold w'. rewrite handleBrowserConnection_sent, decide_True, O by done.
    by destruct (connections w !! d ≫= metadata). }
  destruct (connections w !! d ≫= metadata) as [meta|].
  - split_and!; [done| |done].
    destruct (run_extends evs w' ws) as [more E]. exists more.
    by rewrite E, S, <- app_assoc.
  - by rewrite S, app_nil_r.
Qed.

Lemma late_join_replays_metadata_witness :
  Relay.readyState
    (Relay.sockets
       (Relay.run Relay.startWorld
          [Relay.DeviceConnects 0 "sim";
           Relay.Receives 0
             (Some (Relay.MMetadata (Relay.mkMeta 1170 2532 15)))]) 1)
  = Relay.OPEN
  ∧ ∃ more,
      Relay.sent
        (Relay.sockets
           (Relay.run
              (Relay.handleBrowserConnection 1 "sim"
                 (Relay.run Relay.startWorld
                    [Relay.DeviceConnects 0 "sim";
                     Relay.Receives 0
                       (Some (Relay.MMetadata (Relay.mkMeta 1170 2532 15)))]))
              [Relay.Receives 0 (Some (Relay.MFrame "AAAA" 1))]) 1)
      = [] ++ Relay.EMetadata 1 "mjpeg" (Relay.mkMeta 1170 2532 15) :: more.
Proof.
  split; [reflexivity|].
  exact (proj1 (proj2 (late_join_replays_metadata
    (Relay.run Relay.startWorld
       [Relay.DeviceConnects 0 "sim";
        Relay.Receives 0 (Some (Relay.MMetadata (Relay.mkMeta 1170 2532 15)))])
    1 "sim" [Relay.Receives 0 (Some (Relay.MFrame "AAAA" 1))] eq_refl))).
Defined.

(** *** C3: eviction after the grace period *)


(** The close listener of a consumer and the eviction check, call by
    call, on any world: the listener leaves the registry alone, takes the
    socket out of the set and schedules a check when the set is empty; a
    timer does nothing before it is due; the check removes the session of
    its device exactly when that session has no consumer, touches no other
    session and no socket. *)
Theorem eviction_checks_consumers_only
    (w : World) (d : string) (s ws : nat) :
  connections (browserClosed d s ws w) = connections w
  ∧ sets (browserClosed d s ws w) s = setDelete ws (sets w s)
  ∧ timers (browserClosed d s ws w)
    = match setDelete ws (sets w s) with
      | [] => timers w ++ [{| due := now w + 30000;
                              callback := EvictCallback d;
                              period := None; live := true |}]
      | _ :: _ => timers w
      end
  ∧ (∀ k tm, timers w !! k = Some tm → now w < due tm → fire k w = w)
  ∧ connections (evictIfEmpty d w) !! d
    = match connections w !! d with
      | Some conn =>
          match sets w (browsers conn) with
          | [] => None
          | _ :: _ => Some conn
          end
      | None => None
      end
  ∧ (∀ d', d' ≠ d →
       connections (evictIfEmpty d w) !! d' = connections w !! d')
  ∧ sockets (evictIfEmpty d w) = sockets w.
Proof.
  assert (sets (setSets (update s (setDelete ws)) w) s
          = setDelete ws (sets w s)) as S.
  { relay_unfold. by rewrite decide_True. }
  split_and!.
  - unfold browserClosed. cbv zeta. rewrite S.
    by destruct (setDelete ws (sets w s)).
  - unfold browserClosed. cbv zeta. rewrite S.
    destruct (setDelete ws (sets w s)) eqn:D; cbn [sets setTimers];
      by rewrite S.
  - unfold browserClosed. cbv zeta. rewrite S.
    by destruct (setDelete ws (sets w s)).
  - intros k tm L Lt. unfold fire. rewrite L.
    replace (due tm <=? now w) with false by (symmetry; apply Z.leb_gt; lia).
    by rewrite andb_false_r.
  - unfold evictIfEmpty. destruct (connections w !! d) as [conn|] eqn:L; [|done].
    destruct (sets w (browsers conn)); [|done]. simpl. apply lookup_delete_eq.
  - intros d' N. unfold evictIfEmpty.
    destruct (connections w !! d) as [conn|]; [|done].
    destruct (sets w (browsers conn)); [|done]. simpl.
    by apply lookup_delete_ne.
  - unfold evictIfEmpty. destruct (connections w !! d) as [conn|]; [|done].
    by destruct (sets w (browsers conn)).
Qed.

Lemma eviction_checks_consumers_only_witness :
  Relay.fire 1
    (Relay.run Relay.startWorld
       [Relay.DeviceConnects 0 "sim"; Relay.BrowserConnects 1 "sim";
        Relay.Closed 1; Relay.Advance 29999])
  = Relay.run Relay.startWorld
      [Relay.DeviceConnects 0 "sim"; Relay.BrowserConnects 1 "sim";
       Relay.Closed 1; Relay.Advance 29999].
Proof.
  refine (proj1 (proj2 (proj2 (proj2 (eviction_checks_consumers_only
    (Relay.run Relay.startWorld
       [Relay.DeviceConnects 0 "sim"; Relay.BrowserConnects 1 "sim";
        Relay.Closed 1; Relay.Advance 29999]) "sim" 0 1)))) 1%nat
    (Relay.mkTimer 30000 (Relay.EvictCallback "sim") None true) _ _).
  - vm_compute. reflexivity.
  - vm_compute. reflexivity.
Defined.

End RelayFacts.
(* ===================================================================== *)
(** ** More about the simulator stream relay                              *)
(* ===================================================================== *)

Section RelayMore.
Import Relay.
Local Open Scope Z_scope.

(** *** What the operations leave alone *)

Lemma wsSend_listeners ws e w x :
  readyState (sockets (wsSend ws e w) x) = readyState (sockets w x)
  ∧ onClose (sockets (wsSend ws e w) x) = onClose (sockets w x)
  ∧ onMessage (sockets (wsSend ws e w) x) = onMessage (sockets w x).
Proof.
  rewrite wsSend_socket. case_decide; [|done].
  by destruct (isOpen (readyState (sockets w x))).
Qed.

Lemma wsClose_listeners ws w x :
  onClose (sockets (wsClose ws w) x) = onClose (sockets w x)
  ∧ onMessage (sockets (wsClose ws w) x) = onMessage (sockets w x).
Proof.
  unfold wsClose, setSockets, update. cbn [sockets]. case_decide; [|done].
  by destruct (isOpen (readyState (sockets w x))).
Qed.

Lemma broadcast_fields l e w :
  sets (broadcast l e w) = sets w
  ∧ nextSet (broadcast l e w) = nextSet w
  ∧ timers (broadcast l e w) = timers w
  ∧ now (broadcast l e w) = now w.
Proof.
  revert w. induction l as [|b l IH]; intros w; [done|]. simpl.
  destruct (IH (if isOpen (readyState (sockets w b)) then wsSend b e w else w))
    as (-> & -> & -> & ->).
  by destruct (isOpen (readyState (sockets w b))).
Qed.

Lemma broadcast_listeners l e w x :
  readyState (sockets (broadcast l e w) x) = readyState (sockets w x)
  ∧ onClose (sockets (broadcast l e w) x) = onClose (sockets w x)
  ∧ onMessage (sockets (broadcast l e w) x) = onMessage (sockets w x).
Proof.
  revert w. induction l as [|b l IH]; intros w; [done|]. simpl.
  destruct (IH (if isOpen (readyState (sockets w b)) then wsSend b e w else w))
    as (-> & -> & ->).
  destruct (isOpen (readyState (sockets w b))); [|done].
  apply wsSend_listeners.
Qed.

(** [forEach] over a [Set] writes once to each open member. *)
Lemma broadcast_sent l e w x :
  NoDup l →
  sent (sockets (broadcast l e w) x)
  = sent (sockets w x)
    ++ if bool_decide (x ∈ l) && isOpen (readyState (sockets w x))
       then [e] else [].
Proof.
  intros ND. revert w. induction ND as [|b l Nb ND IH]; intros w.
  - simpl. by rewrite app_nil_r.
  - change (broadcast (b :: l) e w)
      with (broadcast l e
              (if isOpen (readyState (sockets w b)) then wsSend b e w else w)).
    rewrite IH.
    assert (readyState
              (sockets (if isOpen (readyState (sockets w b))
                        then wsSend b e w else w) x)
            = readyState (sockets w x)) as ->.
    { destruct (isOpen (readyState (sockets w b))); [|done].
      apply wsSend_listeners. }
    destruct (decide (x = b)) as [->|N].
    + rewrite (bool_decide_eq_false_2 (b ∈ l)) by done.
      rewrite bool_decide_eq_true_2 by by left. simpl.
      rewrite app_nil_r.
      destruct (isOpen (readyState (sockets w b))) eqn:O;
        [|by rewrite app_nil_r].
      by rewrite wsSend_socket, decide_True, O.
    + assert (bool_decide (x ∈ b :: l) = bool_decide (x ∈ l)) as ->.
      { apply bool_decide_ext. rewrite elem_of_cons.
        split; [by intros [?|?]|by right]. }
      f_equal. f_equal.
      destruct (isOpen (readyState (sockets w b))); [|done].
      by rewrite wsSend_socket, decide_False.
Qed.

(** *** The handlers, field by field *)

Ltac links_onClose :=
  unfold update; repeat case_decide; try done;
  repeat match goal with
         | |- context [isOpen ?r] => destruct (isOpen r)
         end;
  cbn [onClose]; rewrite <- ?app_assoc, ?app_nil_r; done.

Lemma stopPollingFallback_timers d w :
  length (timers (stopPollingFallback d w)) = length (timers w)
  ∧ nextSet (stopPollingFallback d w) = nextSet w
  ∧ ∀ k, callback <$> timers (stopPollingFallback d w) !! k
         = callback <$> timers w !! k.
Proof.
  unfold stopPollingFallback. destruct (pollingIntervals w !! d) as [i|];
    [|done].
  unfold clearInterval, setTimers. cbn [timers nextSet].
  split; [apply length_alter|]. split; [done|]. intros k.
  rewrite list_lookup_alter. case_decide; [subst k|done].
  by destruct (timers w !! i).
Qed.

Lemma handleDeviceConnection_links ws d w :
  sets (handleDeviceConnection ws d w)
  = match connections w !! d with
    | Some _ => sets w
    | None => update (nextSet w) (λ _, []) (sets w)
    end
  ∧ nextSet (handleDeviceConnection ws d w)
    = match connections w !! d with
      | Some _ => nextSet w
      | None => S (nextSet w)
      end
  ∧ (∀ x, onClose (sockets (handleDeviceConnection ws d w) x)
          = onClose (sockets w x)
            ++ if decide (x = ws)
               then [DeviceClose d; ClearInterval (length (timers w))]
               else [])
  ∧ timers (handleDeviceConnection ws d w)
    = timers (stopPollingFallback d w)
      ++ [{| due := now w + 30000; callback := PingCallback ws;
             period := Some 30000; live := true |}].
Proof.
  destruct (stopPollingFallback_keeps d w) as (Hs & Hc & Hb & Hn).
  destruct (stopPollingFallback_timers d w) as (Hl & Hx & _).
  unfold handleDeviceConnection. cbv zeta. rewrite Hc.
  destruct (connections w !! d) as [ex|]; cbv beta iota.
  - destruct (isOpen (readyState (sockets (stopPollingFallback d w) (device ex))));
      unfold startPingInterval, onCloseAdd, onMessageAdd, wsClose,
        setConnections, setSockets, setTimers;
      cbn [sets nextSet sockets timers now]; rewrite ?Hb, ?Hx, ?Hl, ?Hn, ?Hs;
      (split_and!; [done|done| |done]); intros x; links_onClose.
  - unfold startPingInterval, onCloseAdd, onMessageAdd, newSet,
      setConnections, setSockets, setTimers;
      cbn [sets nextSet sockets timers now fst snd];
      rewrite ?Hb, ?Hx, ?Hl, ?Hn, ?Hs.
    split_and!; [done|done| |done]. intros x. links_onClose.
Qed.

Lemma handleBrowserConnection_links ws d w :
  let i := match connections w !! d with
           | Some conn => browsers conn
           | None => nextSet w
           end in
  connections (handleBrowserConnection ws d w)
  = match connections w !! d with
    | Some _ => connections w
    | None => <[d := {| device := ws; browsers := nextSet w;
                        metadata := None; lastFrameTime := now w;
                        frameCount := 0 |}]> (connections w)
    end
  ∧ sets (handleBrowserConnection ws d w)
    = update i (setAdd ws)
        match connections w !! d with
        | Some _ => sets w
        | None => update (nextSet w) (λ _, []) (sets w)
        end
  ∧ nextSet (handleBrowserConnection ws d w)
    = match connections w !! d with
      | Some _ => nextSet w
      | None => S (nextSet w)
      end
  ∧ (∀ x, onClose (sockets (handleBrowserConnection ws d w) x)
          = onClose (sockets w x)
            ++ if decide (x = ws) then [BrowserClose d i ws] else [])
  ∧ timers (handleBrowserConnection ws d w) = timers w.
Proof.
  unfold handleBrowserConnection.
  destruct (connections w !! d) as [conn|]; cbv beta iota zeta.
  - destruct (metadata conn) as [meta|];
      unfold onCloseAdd, onMessageAdd, wsSend, setSets, setSockets;
      cbn [connections sets nextSet sockets timers];
      (split_and!; [done|done|done| |done]); intros x; links_onClose.
  - unfold onCloseAdd, onMessageAdd, newSet, setConnections, setSets,
      setSockets.
    cbn [connections sets nextSet sockets timers fst snd metadata browsers].
    split_and!; [done|done|done| |done]. intros x. links_onClose.
Qed.

Lemma sessions_insert_same d conn c' w :
  connections w !! d = Some conn → browsers c' = browsers conn →
  browsers <$> <[d := c']> (connections w) = sessions w.
Proof.
  intros L B. unfold sessions. rewrite fmap_insert, B.
  apply insert_id. by rewrite lookup_fmap, L.
Qed.

Lemma handleDeviceMessage_links d m w :
  sets (handleDeviceMessage d m w) = sets w
  ∧ nextSet (handleDeviceMessage d m w) = nextSet w
  ∧ sessions (handleDeviceMessage d m w) = sessions w
  ∧ timers (handleDeviceMessage d m w) = timers w
  ∧ ∀ x, onClose (sockets (handleDeviceMessage d m w) x) = onClose (sockets w x).
Proof.
  unfold handleDeviceMessage. destruct (connections w !! d) as [conn|] eqn:L;
    [|done].
  destruct m; try done; cbv zeta;
    match goal with
    | |- context [broadcast ?l ?e ?w1] =>
        destruct (broadcast_fields l e w1) as (-> & -> & -> & _);
        unfold sessions; rewrite (connections_broadcast l e w1);
        (split_and!; [done|done| |done|]);
        [by apply (sessions_insert_same d conn)|];
        intros x; by destruct (broadcast_listeners l e w1 x) as (_ & -> & _)
    end.
Qed.

Lemma handleBrowserMessage_links d m ws w :
  sets (handleBrowserMessage d m ws w) = sets w
  ∧ nextSet (handleBrowserMessage d m ws w) = nextSet w
  ∧ sessions (handleBrowserMessage d m ws w) = sessions w
  ∧ timers (handleBrowserMessage d m ws w) = timers w
  ∧ ∀ x, onClose (sockets (handleBrowserMessage d m ws w) x)
         = onClose (sockets w x).
Proof.
  unfold handleBrowserMessage. destruct (connections w !! d) as [conn|];
    [|done].
  destruct m; try done.
  - destruct (isOpen (readyState (sockets w (device conn)))); [|done].
    split_and!; [done..|]. intros x. apply wsSend_listeners.
  - destruct (metadata conn); [|done].
    split_and!; [done..|]. intros x. apply wsSend_listeners.
Qed.

Lemma deviceClosed_links d w :
  sets (deviceClosed d w) = sets w
  ∧ nextSet (deviceClosed d w) = nextSet w
  ∧ connections (deviceClosed d w) = connections w
  ∧ timers (deviceClosed d w) = timers w
  ∧ ∀ x, onClose (sockets (deviceClosed d w) x) = onClose (sockets w x).
Proof.
  unfold deviceClosed. destruct (connections w !! d) as [conn|]; [|done].
  destruct (broadcast_fields (sets w (browsers conn)) (EDeviceDisconnected d) w)
    as (-> & -> & -> & _).
  rewrite connections_broadcast. split_and!; [done..|].
  intros x. apply broadcast_listeners.
Qed.

Lemma browserClosed_links d i ws w :
  sets (browserClosed d i ws w) = update i (setDelete ws) (sets w)
  ∧ nextSet (browserClosed d i ws w) = nextSet w
  ∧ connections (browserClosed d i ws w) = connections w
  ∧ sockets (browserClosed d i ws w) = sockets w
  ∧ timers (browserClosed d i ws w)
    = timers w ++ match setDelete ws (sets w i) with
                  | [] => [{| due := now w + 30000;
                              callback := EvictCallback d;
                              period := None; live := true |}]
                  | _ :: _ => []
                  end.
Proof.
  unfold browserClosed. cbv zeta.
  assert (sets (setSets (update i (setDelete ws)) w) i
          = setDelete ws (sets w i)) as ->.
  { unfold setSets, update. cbn [sets]. by rewrite decide_True. }
  destruct (setDelete ws (sets w i)); [done|].
  unfold setSets. cbn [timers sets nextSet connections sockets].
  by rewrite app_nil_r.
Qed.

(** *** Timers *)

Lemma ages_refl ts : ages ts ts.
Proof. split; [done|]. intros k tm tm' H1 H2. by assert (tm' = tm) as -> by congruence. Qed.

Lemma ages_trans ts1 ts2 ts3 : ages ts1 ts2 → ages ts2 ts3 → ages ts1 ts3.
Proof.
  intros [L1 A1] [L2 A2]. split; [lia|]. intros k tm tm' H1 H3.
  assert (is_Some (ts2 !! k)) as [tm2 H2].
  { apply lookup_lt_is_Some. apply lookup_lt_Some in H1. lia. }
  destruct (A1 _ _ _ H1 H2) as [C1 D1], (A2 _ _ _ H2 H3) as [C2 D2].
  split; [congruence|auto].
Qed.

Lemma ages_app ts new : ages ts (ts ++ new).
Proof.
  split; [rewrite length_app; lia|]. intros k tm tm' H1 H2.
  rewrite (lookup_app_l_Some _ _ _ _ H1) in H2.
  by assert (tm' = tm) as -> by congruence.
Qed.

Lemma ages_alter (f : Timer → Timer) k ts :
  (∀ tm, ts !! k = Some tm →
         callback (f tm) = callback tm ∧ (live tm = false → live (f tm) = false)) →
  ages ts (alter f k ts).
Proof.
  intros Hf. split; [by rewrite length_alter|]. intros j tm tm' H1.
  rewrite list_lookup_alter. case_decide as E.
  - subst j. rewrite H1. simpl. intros [= <-]. by apply Hf.
  - intros H2. by assert (tm' = tm) as -> by congruence.
Qed.

Lemma ages_clearInterval id w : ages (timers w) (timers (clearInterval id w)).
Proof. apply ages_alter. by intros tm _. Qed.

Lemma ages_cleared k w w' :
  ages (timers w) (timers w') → cleared k w → cleared k w'.
Proof.
  intros [L A] (tm & H & D).
  assert (is_Some (timers w' !! k)) as [tm' H'].
  { apply lookup_lt_is_Some. apply lookup_lt_Some in H. lia. }
  exists tm'. split; [done|]. by apply (A _ _ _ H H').
Qed.

(** *** The links between sessions, sets and listeners are kept *)

Lemma startWorld_linked : linked startWorld.
Proof.
  split; simpl; try done.
  - intros i. constructor.
  - intros i ws H. by apply elem_of_nil in H.
  - intros x d i ws H. by apply elem_of_nil in H.
Qed.

Lemma linked_frame w w' :
  linked w →
  sets w' = sets w → nextSet w' = nextSet w → sessions w' = sessions w →
  (∀ x, onClose (sockets w' x) = onClose (sockets w x)) →
  (∀ j tm', timers w' !! j = Some tm' →
            ∃ tm, timers w !! j = Some tm ∧ callback tm = callback tm') →
  linked w'.
Proof.
  intros [ND Fr Own Mem Lis Ping] Hs Hn Hc Ho Ht.
  split; rewrite ?Hs, ?Hn, ?Hc; try done.
  - intros i ws H. destruct (Mem i ws H) as (d & ? & ?). exists d.
    by rewrite Ho.
  - intros x d i ws. rewrite Ho. apply Lis.
  - intros k tm' ws H C. destruct (Ht k tm' H) as (tm & H0 & C0).
    rewrite Ho. apply (Ping k tm ws H0). congruence.
Qed.

Lemma alter_callback (f : Timer → Timer) k (ts : list Timer) j tm' :
  (∀ tm, callback (f tm) = callback tm) →
  alter f k ts !! j = Some tm' →
  ∃ tm, ts !! j = Some tm ∧ callback tm = callback tm'.
Proof.
  intros Hf. rewrite list_lookup_alter. case_decide as E.
  - subst j. destruct (ts !! k) as [tm|] eqn:L; [|done]. intros [= <-].
    exists tm. split; [done|]. by rewrite Hf.
  - intros H. by exists tm'.
Qed.

Lemma linked_browserClosed d i ws w :
  linked w → linked (browserClosed d i ws w).
Proof.
  intros [ND Fr Own Mem Lis Ping].
  destruct (browserClosed_links d i ws w) as (Hs & Hn & Hc & Hk & Ht).
  split; unfold sessions; rewrite ?Hs, ?Hn, ?Hc, ?Hk; try done.
  - intros j. unfold update. case_decide; [|done].
    unfold setDelete. by apply NoDup_filter.
  - intros j x. unfold update. case_decide as E; [|by apply Mem].
    unfold setDelete. rewrite list_elem_of_filter. intros [_ H].
    by apply Mem.
  - intros k tm x. rewrite Ht.
    intros [H|[_ H]]%lookup_app_Some C; [by apply (Ping k tm)|].
    destruct (setDelete ws (sets w i)); [|by rewrite lookup_nil in H].
    destruct (k - length (timers w))%nat; [|by simpl in H].
    injection H as <-. done.
Qed.

Lemma linked_runListener msg l w : linked w → linked (runListener msg l w).
Proof.
  intros Lk. destruct l as [d|d|d b|d i b|id], msg as [m|];
    cbn [runListener]; try done.
  - destruct (handleDeviceMessage_links d m w) as (Hs & Hn & Hc & Ht & Ho).
    apply (linked_frame w); try done. intros j tm'. rewrite Ht. by exists tm'.
  - destruct (deviceClosed_links d w) as (Hs & Hn & Hc & Ht & Ho).
    apply (linked_frame w); try done; [unfold sessions; by rewrite Hc|].
    intros j tm'. rewrite Ht. by exists tm'.
  - destruct (handleBrowserMessage_links d m b w) as (Hs & Hn & Hc & Ht & Ho).
    apply (linked_frame w); try done. intros j tm'. rewrite Ht. by exists tm'.
  - by apply linked_browserClosed.
  - apply (linked_frame w); try done. intros j tm'. by apply alter_callback.
Qed.

Lemma foldl_keeps {A} (P : World → Prop) (f : World → A → World) l w :
  (∀ a w0, P w0 → P (f w0 a)) → P w → P (foldl f w l).
Proof.
  intros H. revert w. induction l as [|a l IH]; intros w Hw; [done|].
  simpl. by apply IH, H.
Qed.

Lemma linked_closing ws w :
  linked w →
  linked (setSockets (update ws (λ sk,
            {| readyState := CLOSED; sent := sent sk;
               onMessage := onMessage sk; onClose := onClose sk |})) w).
Proof.
  intros Lk. apply (linked_frame w); try done.
  - intros x. unfold setSockets, update. cbn [sockets]. by case_decide.
  - intros j tm' H. by exists tm'.
Qed.

Lemma linked_evictIfEmpty d w : linked w → linked (evictIfEmpty d w).
Proof.
  intros Lk. unfold evictIfEmpty.
  destruct (connections w !! d) as [conn|] eqn:L; [|done].
  destruct (sets w (browsers conn)) eqn:B; [|done].
  destruct Lk as [ND Fr Own Mem Lis Ping].
  split; unfold sessions, setConnections;
    cbn [sets nextSet connections sockets timers]; try done.
  - intros d' i. rewrite fmap_delete. intros [_ H]%lookup_delete_Some.
    by apply (Fr d').
  - intros d1 d2 i. rewrite fmap_delete.
    intros [_ H1]%lookup_delete_Some [_ H2]%lookup_delete_Some.
    by apply (Own d1 d2 i).
  - intros i x H. destruct (Mem i x H) as (d' & S & Li). exists d'.
    split; [|done]. rewrite fmap_delete. apply lookup_delete_Some.
    split; [|done]. intros <-. unfold sessions in S.
    rewrite lookup_fmap, L in S. injection S as <-. rewrite B in H.
    by apply elem_of_nil in H.
Qed.

Lemma linked_fire k w : linked w → linked (fire k w).
Proof.
  intros Lk. unfold fire. destruct (timers w !! k) as [tm|]; [|done].
  destruct (live tm && (due tm <=? now w)); [|done]. cbv zeta.
  set (w1 := setTimers _ w).
  assert (linked w1) as Lk1.
  { apply (linked_frame w); try done. intros j tm'. apply alter_callback.
    intros tm0. by destruct (period tm0). }
  destruct (callback tm) as [d|ws]; [by apply linked_evictIfEmpty|].
  unfold pingTick. destruct (isOpen (readyState (sockets w1 ws))).
  - apply (linked_frame w1); try done.
    + intros x. apply wsSend_listeners.
    + intros j tm' H. by exists tm'.
  - apply (linked_frame w1); try done. intros j tm'. by apply alter_callback.
Qed.

Lemma setAdd_elem (x y : nat) l : x ∈ setAdd y l ↔ x = y ∨ x ∈ l.
Proof.
  unfold setAdd. case_bool_decide as E.
  - split; [by right|]. by intros [->|?].
  - rewrite elem_of_app, list_elem_of_singleton. split; intros [?|?]; auto.
Qed.

Lemma setAdd_NoDup (y : nat) l : NoDup l → NoDup (setAdd y l).
Proof.
  intros ND. unfold setAdd. case_bool_decide as E; [done|].
  apply NoDup_app. split_and!; [done| |apply NoDup_singleton].
  intros x H ->%list_elem_of_singleton. done.
Qed.

Lemma setDelete_elem (x y : nat) l : x ∈ setDelete y l ↔ x ≠ y ∧ x ∈ l.
Proof. unfold setDelete. by rewrite list_elem_of_filter. Qed.

Lemma sessions_lookup d w :
  sessions w !! d = browsers <$> connections w !! d.
Proof. unfold sessions. by rewrite lookup_fmap. Qed.

Lemma sessions_handleDeviceConnection ws d w :
  sessions (handleDeviceConnection ws d w)
  = match connections w !! d with
    | Some _ => sessions w
    | None => <[d := nextSet w]> (sessions w)
    end.
Proof.
  unfold sessions. rewrite handleDeviceConnection_connections, fmap_insert.
  cbn [browsers]. destruct (connections w !! d) as [ex|] eqn:L; [|done].
  apply insert_id. by rewrite lookup_fmap, L.
Qed.

Lemma linked_handleDeviceConnection ws d w :
  linked w → linked (handleDeviceConnection ws d w).
Proof.
  intros [ND Fr Own Mem Lis Ping].
  destruct (handleDeviceConnection_links ws d w) as (Hs & Hn & Ho & Ht).
  pose proof (sessions_handleDeviceConnection ws d w) as Hc.
  pose proof (sessions_lookup d w) as Hl.
  destruct (stopPollingFallback_timers d w) as (Hlen & _ & Hcb).
  assert (∀ x l, l ∈ onClose (sockets w x) →
                 l ∈ onClose (sockets (handleDeviceConnection ws d w) x)) as Grow.
  { intros x l H. rewrite Ho. apply elem_of_app. by left. }
  assert (∀ x d0 i0 ws0,
            BrowserClose d0 i0 ws0
              ∈ onClose (sockets (handleDeviceConnection ws d w) x) → ws0 = x)
    as Lis'.
  { intros x d0 i0 ws0. rewrite Ho. intros [H|H]%elem_of_app;
      [by apply (Lis x d0 i0)|].
    case_decide; [|by apply elem_of_nil in H].
    apply elem_of_cons in H as [?|H]; [done|].
    by apply list_elem_of_singleton in H. }
  assert (∀ k tm x,
            timers (handleDeviceConnection ws d w) !! k = Some tm →
            callback tm = PingCallback x →
            ClearInterval k
              ∈ onClose (sockets (handleDeviceConnection ws d w) x)) as Ping'.
  { intros k tm x. rewrite Ht. intros [H|[Hk H]]%lookup_app_Some C.
    - specialize (Hcb k). rewrite H in Hcb. simpl in Hcb.
      destruct (timers w !! k) as [tm0|] eqn:L0; [|done].
      injection Hcb as Hcb. apply Grow, (Ping k tm0); [done|congruence].
    - destruct (k - length (timers (stopPollingFallback d w)))%nat eqn:Ek;
        [|by simpl in H].
      injection H as <-. simpl in C. injection C as <-.
      rewrite Ho, decide_True by done. apply elem_of_app. right.
      assert (k = length (timers w)) as -> by lia. right. by left. }
  destruct (connections w !! d) as [ex|] eqn:L; simpl in Hl.
  - split; rewrite ?Hs, ?Hn, ?Hc; try done.
    intros i x H. destruct (Mem i x H) as (d' & ? & ?). exists d'.
    split; [done|]. by apply Grow.
  - split; rewrite ?Hs, ?Hn, ?Hc; try done.
    + intros i. unfold update. case_decide; [constructor|done].
    + intros d' i [[-> <-]|[_ H]]%lookup_insert_Some; [lia|].
      specialize (Fr _ _ H). lia.
    + intros d1 d2 i [[<- <-]|[N1 H1]]%lookup_insert_Some
                       [[<- E]|[N2 H2]]%lookup_insert_Some; try done.
      * specialize (Fr _ _ H2). lia.
      * specialize (Fr _ _ H1). lia.
      * by apply (Own d1 d2 i).
    + intros i x. unfold update.
      case_decide; [intros G; by apply elem_of_nil in G|]. intros G.
      destruct (Mem i x G) as (d' & S & Li). exists d'.
      split; [|by apply Grow]. rewrite lookup_insert_ne; [done|].
      intros <-. by rewrite Hl in S.
Qed.

Lemma sessions_handleBrowserConnection ws d w :
  sessions (handleBrowserConnection ws d w)
  = match connections w !! d with
    | Some _ => sessions w
    | None => <[d := nextSet w]> (sessions w)
    end.
Proof.
  unfold sessions.
  destruct (handleBrowserConnection_links ws d w) as (-> & _).
  destruct (connections w !! d); [done|]. by rewrite fmap_insert.
Qed.

Lemma linked_handleBrowserConnection ws d w :
  linked w → linked (handleBrowserConnection ws d w).
Proof.
  intros [ND Fr Own Mem Lis Ping].
  destruct (handleBrowserConnection_links ws d w) as (_ & Hs & Hn & Ho & Ht).
  pose proof (sessions_handleBrowserConnection ws d w) as Hc.
  pose proof (sessions_lookup d w) as Hl.
  assert (∀ x l, l ∈ onClose (sockets w x) →
                 l ∈ onClose (sockets (handleBrowserConnection ws d w) x)) as Grow.
  { intros x l H. rewrite Ho. apply elem_of_app. by left. }
  assert (∀ x d0 i0 ws0,
            BrowserClose d0 i0 ws0
              ∈ onClose (sockets (handleBrowserConnection ws d w) x) → ws0 = x)
    as Lis'.
  { intros x d0 i0 ws0. rewrite Ho. intros [G|G]%elem_of_app;
      [by apply (Lis x d0 i0)|].
    case_decide; [|by apply elem_of_nil in G].
    apply list_elem_of_singleton in G. congruence. }
  assert (∀ k tm x,
            timers (handleBrowserConnection ws d w) !! k = Some tm →
            callback tm = PingCallback x →
            ClearInterval k
              ∈ onClose (sockets (handleBrowserConnection ws d w) x)) as Ping'.
  { intros k tm x. rewrite Ht. intros H C. by apply Grow, (Ping k tm). }
  assert (BrowserClose d
            match connections w !! d with
            | Some conn => browsers conn
            | None => nextSet w
            end ws
          ∈ onClose (sockets (handleBrowserConnection ws d w) ws)) as New.
  { rewrite Ho, decide_True by done. apply elem_of_app. right. by left. }
  destruct (connections w !! d) as [conn|] eqn:L; simpl in Hl.
  - split; rewrite ?Hs, ?Hn, ?Hc; try done.
    + intros j. unfold update. case_decide; [by apply setAdd_NoDup|done].
    + intros j x. unfold update. case_decide as E.
      * subst j. intros [->|G]%setAdd_elem; [by exists d|].
        destruct (Mem _ _ G) as (d' & ? & ?). exists d'.
        split; [done|]. by apply Grow.
      * intros G. destruct (Mem _ _ G) as (d' & ? & ?). exists d'.
        split; [done|]. by apply Grow.
  - assert (∀ j, update (nextSet w) (setAdd ws)
                   (update (nextSet w) (λ _, []) (sets w)) j
                 = if decide (j = nextSet w) then [ws] else sets w j) as Hu.
    { intros j. unfold update. by case_decide. }
    split; rewrite ?Hs, ?Hn, ?Hc; try done.
    + intros j. rewrite Hu. case_decide; [apply NoDup_singleton|done].
    + intros d' i [[-> <-]|[_ H]]%lookup_insert_Some; [lia|].
      specialize (Fr _ _ H). lia.
    + intros d1 d2 i [[<- <-]|[N1 H1]]%lookup_insert_Some
                       [[<- E]|[N2 H2]]%lookup_insert_Some; try done.
      * specialize (Fr _ _ H2). lia.
      * specialize (Fr _ _ H1). lia.
      * by apply (Own d1 d2 i).
    + intros j x. rewrite Hu. case_decide as E.
      * subst j. intros ->%list_elem_of_singleton. exists d.
        by rewrite lookup_insert_eq.
      * intros G. destruct (Mem j x G) as (d' & S & Li). exists d'.
        split; [|by apply Grow]. rewrite lookup_insert_ne; [done|].
        intros <-. by rewrite Hl in S.
Qed.

Lemma linked_step w ev : linked w → linked (step w ev).
Proof.
  intros Lk. destruct ev as [ws d|ws d|ws [m|]|ws|ms|k]; cbn [step].
  - by apply linked_handleDeviceConnection.
  - by apply linked_handleBrowserConnection.
  - apply foldl_keeps; [|done]. intros l w0. apply linked_runListener.
  - done.
  - cbv zeta. apply foldl_keeps; [|by apply linked_closing].
    intros l w0. apply linked_runListener.
  - by apply (linked_frame w); [..|intros j tm' H; by exists tm'].
  - by apply linked_fire.
Qed.

Lemma reachable_linked evs : linked (run startWorld evs).
Proof.
  unfold run. apply foldl_keeps; [|apply startWorld_linked].
  intros ev w. apply linked_step.
Qed.

(** *** Who is in the consumer set of a session *)

Lemma setDelete_idemp (x : nat) l : setDelete x (setDelete x l) = setDelete x l.
Proof.
  unfold setDelete. induction l as [|a l IH]; [done|].
  rewrite filter_cons. case_decide; [|done].
  rewrite filter_cons, decide_True by done. by rewrite IH.
Qed.

Lemma setDelete_absent (x : nat) l : x ∉ l → setDelete x l = l.
Proof.
  unfold setDelete. induction l as [|a l IH]; [done|].
  intros [N H]%not_elem_of_cons. rewrite filter_cons, decide_True by done.
  by rewrite IH.
Qed.

Lemma runListener_message_links m l w :
  sets (runListener (Some m) l w) = sets w
  ∧ sessions (runListener (Some m) l w) = sessions w.
Proof.
  destruct l as [d|d|d b|d i b|id]; cbn [runListener]; try done.
  - by destruct (handleDeviceMessage_links d m w) as (-> & _ & -> & _).
  - by destruct (handleBrowserMessage_links d m b w) as (-> & _ & -> & _).
Qed.

Lemma receives_links ws m w :
  sets (step w (Receives ws m)) = sets w
  ∧ sessions (step w (Receives ws m)) = sessions w.
Proof.
  destruct m as [m|]; [|done]. cbn [step].
  apply (foldl_keeps (λ w', sets w' = sets w ∧ sessions w' = sessions w));
    [|done].
  intros l w0 [<- <-]. apply runListener_message_links.
Qed.

Lemma runListener_close_links l w :
  sessions (runListener None l w) = sessions w
  ∧ sets (runListener None l w)
    = match l with
      | BrowserClose _ i ws => update i (setDelete ws) (sets w)
      | _ => sets w
      end.
Proof.
  destruct l as [d|d|d b|d i b|id]; cbn [runListener]; try done.
  - destruct (deviceClosed_links d w) as (-> & _ & Hc & _).
    unfold sessions. by rewrite Hc.
  - destruct (browserClosed_links d i b w) as (-> & _ & Hc & _).
    unfold sessions. by rewrite Hc.
Qed.

Lemma foldl_close_sets ws L w0 i :
  (∀ d j x, BrowserClose d j x ∈ L → x = ws) →
  sessions (foldl (λ acc l, runListener None l acc) w0 L) = sessions w0
  ∧ sets (foldl (λ acc l, runListener None l acc) w0 L) i
    = if existsb (λ l, match l with
                       | BrowserClose _ j _ => bool_decide (j = i)
                       | _ => false
                       end) L
      then setDelete ws (sets w0 i) else sets w0 i.
Proof.
  revert w0. induction L as [|l L IH]; intros w0 Hws; [done|].
  cbn [foldl existsb].
  destruct (IH (runListener None l w0)) as [-> ->].
  { intros d j x H. apply (Hws d j x). by right. }
  destruct (runListener_close_links l w0) as [-> ->].
  split; [done|].
  destruct l as [d|d|d b|d j b|id]; cbn [orb]; try done.
  assert (b = ws) as -> by (apply (Hws d j); by left).
  unfold update. case_bool_decide as E; cbn [orb].
  - subst j. rewrite decide_True by done.
    destruct (existsb _ L); [apply setDelete_idemp|done].
  - by rewrite decide_False by done.
Qed.

Lemma closed_links ws w :
  linked w →
  sessions (step w (Closed ws)) = sessions w
  ∧ ∀ i, sets (step w (Closed ws)) i = setDelete ws (sets w i).
Proof.
  intros Lk. cbn [step]. cbv zeta.
  set (w1 := setSockets _ w).
  assert (onClose (sockets w1 ws) = onClose (sockets w ws)) as Ho.
  { unfold w1, setSockets, update. cbn [sockets]. by rewrite decide_True. }
  rewrite Ho.
  assert (∀ d j x, BrowserClose d j x ∈ onClose (sockets w ws) → x = ws)
    as Hws by (intros d j x; apply (l_listener _ Lk)).
  split; [by destruct (foldl_close_sets ws (onClose (sockets w ws)) w1 0%nat Hws)|].
  intros i.
  destruct (foldl_close_sets ws (onClose (sockets w ws)) w1 i Hws) as [_ ->].
  change (sets w1 i) with (sets w i).
  destruct (existsb _ _) eqn:Ex; [done|].
  symmetry. apply setDelete_absent. intros H.
  destruct (l_member _ Lk i ws H) as (d & _ & Li).
  apply not_true_iff_false in Ex. apply Ex, existsb_exists.
  exists (BrowserClose d i ws). split; [by apply list_elem_of_In|].
  by apply bool_decide_eq_true.
Qed.

Lemma fire_links k w :
  sets (fire k w) = sets w
  ∧ (sessions (fire k w) = sessions w
     ∨ ∃ d i, sessions w !! d = Some i ∧ sets w i = []
              ∧ sessions (fire k w) = delete d (sessions w)).
Proof.
  unfold fire. destruct (timers w !! k) as [tm|]; [|by split; [|left]].
  destruct (live tm && (due tm <=? now w)); [|by split; [|left]]. cbv zeta.
  set (w1 := setTimers _ w).
  destruct (callback tm) as [d|ws].
  - unfold evictIfEmpty. change (connections w1) with (connections w).
    change (sets w1) with (sets w).
    destruct (connections w !! d) as [conn|] eqn:L; [|by split; [|left]].
    destruct (sets w (browsers conn)) eqn:B; [|by split; [|left]].
    split; [done|]. right. exists d, (browsers conn).
    split_and!; [by rewrite sessions_lookup, L|done|].
    unfold sessions, setConnections. cbn [connections]. apply fmap_delete.
  - unfold pingTick. by destruct (isOpen _); split; [|left| |left].
Qed.

Lemma attached_snoc evs ev ws d :
  attached (evs ++ [ev]) ws d = attachedStep ws d (attached evs ws d) ev.
Proof. unfold attached. by rewrite foldl_app. Qed.

Lemma relay_run_snoc w evs ev : run w (evs ++ [ev]) = step (run w evs) ev.
Proof. unfold run. by rewrite foldl_app. Qed.

(** The consumers in the set of a session are the sockets attached for its
    device. *)
Lemma attached_sessions evs ws d :
  attached evs ws d = true
  ↔ ∃ i, sessions (run startWorld evs) !! d = Some i
         ∧ ws ∈ sets (run startWorld evs) i.
Proof.
  revert ws d. induction evs as [|ev evs IH] using rev_ind; intros ws d.
  { simpl. split; [done|]. intros (i & H & _).
    by rewrite sessions_lookup in H. }
  rewrite attached_snoc, relay_run_snoc.
  pose proof (reachable_linked evs) as Lk.
  set (w := run startWorld evs) in *.
  destruct ev as [ws0 d0|ws0 d0|ws0 m|ws0|ms|k]; cbn [attachedStep].
  - (* a producer attaches *)
    rewrite IH. cbn [step].
    rewrite sessions_handleDeviceConnection.
    destruct (handleDeviceConnection_links ws0 d0 w) as (-> & _).
    pose proof (sessions_lookup d0 w) as Hl.
    destruct (connections w !! d0) as [ex|]; [done|]. simpl in Hl.
    split.
    + intros (i & S & M). exists i.
      assert (d ≠ d0) as N by (intros ->; congruence).
      rewrite lookup_insert_ne by done. split; [done|].
      pose proof (l_fresh _ Lk _ _ S). unfold update.
      rewrite decide_False; [done|lia].
    + intros (i & S & M). exists i. unfold update in M.
      case_decide as E; [by apply elem_of_nil in M|].
      apply lookup_insert_Some in S as [[-> <-]|[_ S]]; done.
  - (* a consumer attaches *)
    cbn [step]. rewrite sessions_handleBrowserConnection.
    destruct (handleBrowserConnection_links ws0 d0 w) as (_ & -> & _).
    pose proof (sessions_lookup d0 w) as Hl.
    destruct (connections w !! d0) as [conn|] eqn:L; simpl in Hl.
    + case_decide as E.
      * destruct E as [-> ->]. split; [|done]. intros _.
        exists (browsers conn). split; [done|]. unfold update.
        rewrite decide_True by done. apply setAdd_elem. by left.
      * rewrite IH. split.
        -- intros (i & S & M). exists i. split; [done|]. unfold update.
           case_decide; [|done]. apply setAdd_elem. by right.
        -- intros (i & S & M). exists i. split; [done|]. unfold update in M.
           case_decide as Ei; [|done]. subst i.
           apply setAdd_elem in M as [->|M]; [|done].
           destruct E. split; [done|]. by apply (l_own _ Lk d0 d (browsers conn)).
    + assert (∀ j, update (nextSet w) (setAdd ws0)
                     (update (nextSet w) (λ _, []) (sets w)) j
                   = if decide (j = nextSet w) then [ws0] else sets w j) as Hu.
      { intros j. unfold update. by case_decide. }
      case_decide as E.
      * destruct E as [-> ->]. split; [|done]. intros _.
        exists (nextSet w). rewrite lookup_insert_eq, Hu, decide_True by done.
        split; [done|]. by left.
      * rewrite IH. split.
        -- intros (i & S & M). exists i.
           assert (d ≠ d0) as N by (intros ->; congruence).
           rewrite lookup_insert_ne by done. split; [done|].
           pose proof (l_fresh _ Lk _ _ S). rewrite Hu, decide_False; [done|lia].
        -- intros (i & S & M). rewrite Hu in M.
           apply lookup_insert_Some in S as [[-> <-]|[N S]].
           ++ rewrite decide_True in M by done.
              apply list_elem_of_singleton in M. destruct E. by split.
           ++ exists i. split; [done|]. pose proof (l_fresh _ Lk _ _ S).
              rewrite decide_False in M; [done|lia].
  - (* a message *)
    rewrite IH. by destruct (receives_links ws0 m w) as [-> ->].
  - (* a socket closes *)
    destruct (closed_links ws0 w Lk) as [-> Hs].
    case_decide as E.
    + subst ws0. split; [done|]. intros (i & _ & M). rewrite Hs in M.
      apply setDelete_elem in M as [? _]. done.
    + rewrite IH. split.
      * intros (i & S & M). exists i. split; [done|]. rewrite Hs.
        apply setDelete_elem. split; [congruence|done].
      * intros (i & S & M). exists i. split; [done|]. rewrite Hs in M.
        by apply setDelete_elem in M as [_ ?].
  - (* time passes *)
    by rewrite IH.
  - (* a timer fires *)
    rewrite IH. cbn [step]. destruct (fire_links k w) as [-> [->|Ev]]; [done|].
    destruct Ev as (d0 & i0 & S0 & B0 & ->). split.
    + intros (i & S & M). exists i. split; [|done].
      apply lookup_delete_Some. split; [|done]. intros <-.
      assert (i = i0) as -> by congruence. rewrite B0 in M.
      by apply elem_of_nil in M.
    + intros (i & [_ S]%lookup_delete_Some & M). by exists i.
Qed.

Lemma attached_member evs x d conn :
  connections (run startWorld evs) !! d = Some conn →
  bool_decide (x ∈ sets (run startWorld evs) (browsers conn))
  = attached evs x d.
Proof.
  intros L. destruct (attached evs x d) eqn:A.
  - apply attached_sessions in A as (i & S & M).
    rewrite sessions_lookup, L in S. injection S as <-.
    by apply bool_decide_eq_true.
  - apply bool_decide_eq_false. intros M.
    apply not_true_iff_false in A. apply A, attached_sessions.
    exists (browsers conn). by rewrite sessions_lookup, L.
Qed.

Lemma attached_no_session evs x d :
  connections (run startWorld evs) !! d = None → attached evs x d = false.
Proof.
  intros L. apply not_true_iff_false. intros (i & S & _)%attached_sessions.
  by rewrite sessions_lookup, L in S.
Qed.

(** *** Fan-out *)

(** X16. A frame or a metadata announcement of the producer of a device is
    written exactly once to every consumer that is attached for that
    device and whose socket is open, behind what was written to it before,
    and to no other socket: not to the producer, not to the consumers of
    another device, not to a consumer that has closed.  Without a session
    for the device the message is dropped. *)
Theorem relay_fans_out_to_attached_consumers
    (evs : list Event) (d : string) (data : string) (pts : Z)
    (meta : SimulatorMetadata) (x : nat) :
  let w := run startWorld evs in
  sent (sockets (handleDeviceMessage d (MFrame data pts) w) x)
  = sent (sockets w x)
    ++ (if attached evs x d && isOpen (readyState (sockets w x))
        then [EForward (MFrame data pts)] else [])
  ∧ sent (sockets (handleDeviceMessage d (MMetadata meta) w) x)
    = sent (sockets w x)
      ++ (if attached evs x d && isOpen (readyState (sockets w x))
          then [EMetadata 1 "mjpeg" meta] else []).
Proof.
  intros w. pose proof (reachable_linked evs) as Lk. fold w in Lk.
  unfold handleDeviceMessage.
  destruct (connections w !! d) as [conn|] eqn:L.
  - pose proof (attached_member evs x d conn L) as Am. fold w in Am.
    cbv zeta. split.
    + rewrite broadcast_sent by apply (l_nodup _ Lk).
      cbn [sets setConnections sockets]. by rewrite Am.
    + rewrite broadcast_sent by apply (l_nodup _ Lk).
      cbn [sets setConnections sockets]. by rewrite Am.
  - rewrite (attached_no_session evs x d L). simpl. by rewrite app_nil_r.
Qed.

(** X17. When the socket of a producer closes, each consumer attached for its
    device with an open socket is sent one [device_disconnected] for that
    device, and nobody else is sent anything.  The registry is left as it
    is: the session stays, with the closed socket in its producer slot and
    the metadata it had. *)
Theorem relay_producer_close_notifies
    (evs : list Event) (ws : nat) (d : string) (k x : nat) :
  let w := run startWorld evs in
  onClose (sockets w ws) = [DeviceClose d; ClearInterval k] →
  let w' := step w (Closed ws) in
  sent (sockets w' x)
  = sent (sockets w x)
    ++ (if attached evs x d && isOpen (readyState (sockets w x))
           && bool_decide (x ≠ ws)
        then [EDeviceDisconnected d] else [])
  ∧ connections w' = connections w
  ∧ readyState (sockets w' ws) = CLOSED.
Proof.
  intros w Hl w'. pose proof (reachable_linked evs) as Lk. fold w in Lk.
  unfold w'. cbn [step]. cbv zeta. set (w1 := setSockets _ w).
  assert (onClose (sockets w1 ws) = onClose (sockets w ws)) as Ho.
  { unfold w1, setSockets, update. cbn [sockets]. by rewrite decide_True. }
  assert (sent (sockets w1 x) = sent (sockets w x)) as Hs.
  { unfold w1, setSockets, update. cbn [sockets]. by case_decide. }
  assert (∀ y, readyState (sockets w1 y)
               = if decide (y = ws) then CLOSED else readyState (sockets w y))
    as Hr.
  { intros y. unfold w1, setSockets, update. cbn [sockets]. by case_decide. }
  rewrite Ho, Hl. cbn [foldl runListener].
  change (sockets (clearInterval k (deviceClosed d w1)))
    with (sockets (deviceClosed d w1)).
  change (connections (clearInterval k (deviceClosed d w1)))
    with (connections (deviceClosed d w1)).
  destruct (deviceClosed_links d w1) as (_ & _ & -> & _).
  unfold deviceClosed. change (connections w1) with (connections w).
  change (sets w1) with (sets w).
  destruct (connections w !! d) as [conn|] eqn:L.
  - pose proof (attached_member evs x d conn L) as Am. fold w in Am.
    rewrite broadcast_sent by apply (l_nodup _ Lk).
    destruct (broadcast_listeners (sets w (browsers conn))
                (EDeviceDisconnected d) w1 ws) as (-> & _).
    rewrite Hs, Am. split_and!; [|done|by rewrite Hr, decide_True].
    f_equal. rewrite Hr. destruct (decide (x = ws)) as [->|N].
    + rewrite (bool_decide_eq_false_2 (ws ≠ ws)) by (intros N; by apply N).
      by rewrite !andb_false_r.
    + rewrite (bool_decide_eq_true_2 (x ≠ ws)) by done.
      by rewrite andb_true_r.
  - rewrite (attached_no_session evs x d L), Hs, Hr, decide_True by done.
    cbn [andb]. by rewrite app_nil_r.
Qed.

(** *** Sessions and their consumers *)


(** X19. The 'close' of a socket takes it out of every consumer set it is in,
    whatever devices it was attached for, and takes nobody else out. *)
Theorem relay_close_detaches_consumer
    (evs : list Event) (ws : nat) (i x : nat) :
  let w := run startWorld evs in
  x ∈ sets (step w (Closed ws)) i ↔ x ≠ ws ∧ x ∈ sets w i.
Proof.
  intros w. destruct (closed_links ws w (reachable_linked evs)) as [_ ->].
  apply setDelete_elem.
Qed.

(** *** The keep-alive timer *)

Lemma ages_stopPollingFallback d w :
  ages (timers w) (timers (stopPollingFallback d w)).
Proof.
  unfold stopPollingFallback. destruct (pollingIntervals w !! d) as [i|];
    [|apply ages_refl].
  apply (ages_clearInterval i w).
Qed.

Lemma ages_runListener msg l w : ages (timers w) (timers (runListener msg l w)).
Proof.
  destruct l as [d|d|d b|d i b|id], msg as [m|]; cbn [runListener];
    try apply ages_refl.
  - destruct (handleDeviceMessage_links d m w) as (_ & _ & _ & -> & _).
    apply ages_refl.
  - destruct (deviceClosed_links d w) as (_ & _ & _ & -> & _). apply ages_refl.
  - destruct (handleBrowserMessage_links d m b w) as (_ & _ & _ & -> & _).
    apply ages_refl.
  - destruct (browserClosed_links d i b w) as (_ & _ & _ & _ & ->).
    apply ages_app.
  - apply ages_clearInterval.
Qed.

Lemma ages_fire k w : ages (timers w) (timers (fire k w)).
Proof.
  unfold fire. destruct (timers w !! k) as [tm|] eqn:L; [|apply ages_refl].
  destruct (live tm && (due tm <=? now w)) eqn:C; [|apply ages_refl].
  cbv zeta. set (w1 := setTimers _ w).
  assert (ages (timers w) (timers w1)) as A1.
  { unfold w1, setTimers. cbn [timers]. apply ages_alter. intros tm0 L0.
    assert (tm0 = tm) as -> by congruence.
    split; [by destruct (period tm)|]. intros D.
    apply andb_true_iff in C as [C _]. congruence. }
  destruct (callback tm) as [d|ws].
  - unfold evictIfEmpty. destruct (connections w1 !! d) as [conn|]; [|done].
    by destruct (sets w1 (browsers conn)).
  - unfold pingTick. destruct (isOpen (readyState (sockets w1 ws))); [done|].
    eapply ages_trans; [exact A1|apply ages_clearInterval].
Qed.

Lemma foldl_ages {A} (f : World → A → World) l w :
  (∀ a w0, ages (timers w0) (timers (f w0 a))) →
  ages (timers w) (timers (foldl f w l)).
Proof.
  intros H. revert w. induction l as [|a l IH]; intros w; [apply ages_refl|].
  simpl. eapply ages_trans; [apply H|apply IH].
Qed.

Lemma ages_step w ev : ages (timers w) (timers (step w ev)).
Proof.
  destruct ev as [ws d|ws d|ws [m|]|ws|ms|k]; cbn [step];
    try apply ages_refl.
  - destruct (handleDeviceConnection_links ws d w) as (_ & _ & _ & ->).
    eapply ages_trans; [apply ages_stopPollingFallback|apply ages_app].
  - destruct (handleBrowserConnection_links ws d w) as (_ & _ & _ & _ & ->).
    apply ages_refl.
  - apply foldl_ages. intros; apply ages_runListener.
  - cbv zeta. set (w1 := setSockets _ w).
    change (timers w) with (timers w1).
    apply foldl_ages. intros; apply ages_runListener.
  - apply ages_fire.
Qed.

Lemma ages_run w evs : ages (timers w) (timers (run w evs)).
Proof. apply foldl_ages. intros; apply ages_step. Qed.

Lemma foldl_clears k L w0 :
  ClearInterval k ∈ L → is_Some (timers w0 !! k) →
  cleared k (foldl (λ acc l, runListener None l acc) w0 L).
Proof.
  revert w0. induction L as [|l L IH]; intros w0 Hin [tm0 L0];
    [by apply elem_of_nil in Hin|].
  cbn [foldl]. apply elem_of_cons in Hin as [<-|Hin].
  - apply (ages_cleared k (clearInterval k w0));
      [apply foldl_ages; intros; apply ages_runListener|].
    exists {| due := due tm0; callback := callback tm0; period := period tm0;
              live := false |}.
    split; [|done]. unfold clearInterval, setTimers. cbn [timers runListener].
    by rewrite list_lookup_alter, decide_True, L0.
  - apply IH; [done|]. destruct (ages_runListener None l w0) as [Le _].
    apply lookup_lt_is_Some. apply lookup_lt_Some in L0. lia.
Qed.

(** X20. The keep-alive interval of a producer socket is cleared when the
    socket closes: whatever happens afterwards, the timer stays cleared
    and its tick changes nothing, so no ping is written any more. *)
Theorem relay_ping_cleared_at_close
    (evs evs' : list Event) (ws k : nat) (tm : Timer) :
  let w := run startWorld evs in
  timers w !! k = Some tm → callback tm = PingCallback ws →
  let w' := run (step w (Closed ws)) evs' in
  (∃ tm', timers w' !! k = Some tm' ∧ live tm' = false
          ∧ callback tm' = PingCallback ws)
  ∧ fire k w' = w'.
Proof.
  intros w L C w'. pose proof (reachable_linked evs) as Lk. fold w in Lk.
  pose proof (l_ping _ Lk k tm ws L C) as Hin.
  assert (cleared k (step w (Closed ws))) as Cl.
  { cbn [step]. cbv zeta. set (w1 := setSockets _ w).
    assert (onClose (sockets w1 ws) = onClose (sockets w ws)) as ->.
    { unfold w1, setSockets, update. cbn [sockets]. by rewrite decide_True. }
    apply foldl_clears; [done|]. by exists tm. }
  pose proof (ages_cleared k _ w' (ages_run _ evs') Cl) as (tm' & L' & D').
  assert (callback tm' = PingCallback ws) as C'.
  { destruct (ages_trans _ _ _ (ages_step w (Closed ws))
                (ages_run (step w (Closed ws)) evs')) as [_ A].
    destruct (A k tm tm' L L') as [-> _]. done. }
  split; [by exists tm'|]. unfold fire. by rewrite L', D'.
Qed.

End RelayMore.

Lemma relay_producer_close_notifies_witness :
  Relay.sent
    (Relay.sockets
       (Relay.step
          (Relay.run Relay.startWorld
             [Relay.DeviceConnects 0 "sim"; Relay.BrowserConnects 1 "sim"])
          (Relay.Closed 0)) 1)
  = [Relay.EDeviceDisconnected "sim"].
Proof.
  exact (proj1 (relay_producer_close_notifies
    [Relay.DeviceConnects 0 "sim"; Relay.BrowserConnects 1 "sim"]
    0 "sim" 0 1 eq_refl)).
Defined.


Lemma relay_ping_cleared_at_close_witness :
  Relay.fire 0
    (Relay.run
       (Relay.step (Relay.run Relay.startWorld [Relay.DeviceConnects 0 "sim"])
          (Relay.Closed 0))
       [Relay.Advance 30000])
  = Relay.run
      (Relay.step (Relay.run Relay.startWorld [Relay.DeviceConnects 0 "sim"])
         (Relay.Closed 0))
      [Relay.Advance 30000].
Proof.
  exact (proj2 (relay_ping_cleared_at_close
    [Relay.DeviceConnects 0 "sim"] [Relay.Advance 30000] 0 0
    (Relay.mkTimer 30000 (Relay.PingCallback 0) (Some 30000%Z) true)
    eq_refl eq_refl)).
Defined.
(* ===================================================================== *)
(** ** The grace period of a session                                      *)
(* ===================================================================== *)

Section RelayEviction.
Import Relay.
Local Open Scope Z_scope.

(** *** The clock *)

Lemma now_broadcast l e w : now (broadcast l e w) = now w.
Proof. by destruct (broadcast_fields l e w) as (_ & _ & _ & ->). Qed.

Lemma now_runListener msg l w : now (runListener msg l w) = now w.
Proof.
  destruct l as [d|d|d b|d i b|id], msg as [m|]; cbn [runListener];
    try done.
  - unfold handleDeviceMessage. destruct (connections w !! d); [|done].
    destruct m; try done; cbv zeta; by rewrite now_broadcast.
  - unfold deviceClosed. destruct (connections w !! d); [|done].
    apply now_broadcast.
  - unfold handleBrowserMessage. destruct (connections w !! d) as [conn|];
      [|done].
    destruct m; try done.
    + by destruct (isOpen (readyState (sockets w (device conn)))).
    + by destruct (metadata conn).
  - unfold browserClosed. cbv zeta.
    by destruct (sets (setSets (update i (setDelete b)) w) i).
Qed.

Lemma now_foldl_listeners msg L w :
  now (foldl (λ acc l, runListener msg l acc) w L) = now w.
Proof.
  apply (foldl_keeps (λ w', now w' = now w)); [|done].
  intros l w0 <-. apply now_runListener.
Qed.

Lemma now_handleDeviceConnection ws d w :
  now (handleDeviceConnection ws d w) = now w.
Proof.
  destruct (stopPollingFallback_keeps d w) as (Hs & Hc & Hb & Hn).
  unfold handleDeviceConnection. cbv zeta.
  destruct (connections (stopPollingFallback d w) !! d) as [ex|];
    cbv beta iota.
  - by destruct (isOpen (readyState (sockets (stopPollingFallback d w)
                                       (device ex)))).
  - done.
Qed.

Lemma now_handleBrowserConnection ws d w :
  now (handleBrowserConnection ws d w) = now w.
Proof.
  unfold handleBrowserConnection.
  destruct (connections w !! d) as [conn|]; cbv beta iota zeta.
  - by destruct (metadata conn).
  - done.
Qed.

Lemma now_fire k w : now (fire k w) = now w.
Proof.
  unfold fire. destruct (timers w !! k) as [tm|]; [|done].
  destruct (live tm && (due tm <=? now w)); [|done]. cbv zeta.
  destruct (callback tm) as [d|ws].
  - unfold evictIfEmpty. destruct (connections _ !! d) as [conn|]; [|done].
    by destruct (sets _ (browsers conn)).
  - unfold pingTick. by destruct (isOpen _).
Qed.

Lemma now_step w ev :
  now (step w ev)
  = now w + match ev with Advance ms => Z.max 0 ms | _ => 0 end.
Proof.
  destruct ev as [ws d|ws d|ws [m|]|ws|ms|k]; cbn [step];
    rewrite ?Z.add_0_r; try done.
  - apply now_handleDeviceConnection.
  - apply now_handleBrowserConnection.
  - apply now_foldl_listeners.
  - cbv zeta. by rewrite now_foldl_listeners.
  - apply now_fire.
Qed.


(** *** Pending checks *)

Lemma checksFrom_clear d T id ts :
  checksFrom d T ts →
  checksFrom d T
    (alter (λ tm, {| due := due tm; callback := callback tm;
                     period := period tm; live := false |}) id ts).
Proof.
  intros H k tm. rewrite list_lookup_alter. case_decide as E; [|apply H].
  subst k. destruct (ts !! id); [|done]. simpl. by intros [= <-].
Qed.

Lemma checksFrom_app d T ts new :
  checksFrom d T ts → checksFrom d T new → checksFrom d T (ts ++ new).
Proof.
  intros H1 H2 k tm [L|[_ L]]%lookup_app_Some; [by apply (H1 k tm L)|].
  by apply (H2 _ _ L).
Qed.

Lemma checksFrom_one d T tm :
  (callback tm = EvictCallback d → period tm = None ∧ T ≤ due tm) →
  checksFrom d T [tm].
Proof.
  intros H [|k] tm'; simpl; [|done]. intros [= <-] C _. by apply H.
Qed.

Lemma checksFrom_stopPollingFallback d T d0 w :
  checksFrom d T (timers w) →
  checksFrom d T (timers (stopPollingFallback d0 w)).
Proof.
  intros H. unfold stopPollingFallback.
  destruct (pollingIntervals w !! d0) as [i|]; [|done].
  by apply checksFrom_clear.
Qed.

Lemma checksFrom_runListener d T msg l w :
  T ≤ now w + 30000 → checksFrom d T (timers w) →
  checksFrom d T (timers (runListener msg l w)).
Proof.
  intros Le H. destruct l as [d0|d0|d0 b|d0 i b|id], msg as [m|];
    cbn [runListener]; try done.
  - by destruct (handleDeviceMessage_links d0 m w) as (_ & _ & _ & -> & _).
  - by destruct (deviceClosed_links d0 w) as (_ & _ & _ & -> & _).
  - by destruct (handleBrowserMessage_links d0 m b w) as (_ & _ & _ & -> & _).
  - destruct (browserClosed_links d0 i b w) as (_ & _ & _ & _ & ->).
    apply checksFrom_app; [done|].
    destruct (setDelete b (sets w i)); [|by intros k tm H0].
    by apply checksFrom_one.
  - by apply checksFrom_clear.
Qed.

Lemma checksFrom_foldl_listeners d T msg L w :
  T ≤ now w + 30000 → checksFrom d T (timers w) →
  checksFrom d T (timers (foldl (λ acc l, runListener msg l acc) w L)).
Proof.
  intros Le H.
  apply (foldl_keeps (λ w', now w' = now w ∧ checksFrom d T (timers w')));
    [|done].
  intros l w0 [N H0]. rewrite now_runListener. split; [done|].
  apply checksFrom_runListener; [by rewrite N|done].
Qed.

Lemma checksFrom_fire d T k w :
  checksFrom d T (timers w) → checksFrom d T (timers (fire k w)).
Proof.
  intros H. unfold fire. destruct (timers w !! k) as [tm|] eqn:L; [|done].
  destruct (live tm && (due tm <=? now w)) eqn:C; [|done]. cbv zeta.
  set (w1 := setTimers _ w).
  assert (checksFrom d T (timers w1)) as H1.
  { intros j tm'. unfold w1, setTimers. cbn [timers].
    rewrite list_lookup_alter. case_decide as E; [|apply H].
    subst j. rewrite L. simpl. intros [= <-].
    apply andb_true_iff in C as [Lv _].
    destruct (period tm) eqn:P; cbn [callback live]; [|done].
    intros Cb _. destruct (H k tm L Cb Lv) as [P' _]. congruence. }
  destruct (callback tm) as [d0|ws].
  - unfold evictIfEmpty. destruct (connections w1 !! d0) as [conn|]; [|done].
    by destruct (sets w1 (browsers conn)).
  - unfold pingTick. destruct (isOpen (readyState (sockets w1 ws))); [done|].
    by apply checksFrom_clear.
Qed.

Lemma checksFrom_step d T w ev :
  T ≤ now w + 30000 → checksFrom d T (timers w) →
  checksFrom d T (timers (step w ev)).
Proof.
  intros Le H. destruct ev as [ws d0|ws d0|ws [m|]|ws|ms|k]; cbn [step];
    try done.
  - destruct (handleDeviceConnection_links ws d0 w) as (_ & _ & _ & ->).
    apply checksFrom_app; [by apply checksFrom_stopPollingFallback|].
    by apply checksFrom_one.
  - by destruct (handleBrowserConnection_links ws d0 w) as (_ & _ & _ & _ & ->).
  - by apply checksFrom_foldl_listeners.
  - cbv zeta. by apply checksFrom_foldl_listeners.
  - by apply checksFrom_fire.
Qed.

Lemma checksFrom_run d T w evs :
  T ≤ now w + 30000 → checksFrom d T (timers w) →
  checksFrom d T (timers (run w evs)).
Proof.
  revert w. induction evs as [|ev evs IH]; intros w Le H; [done|].
  cbn [run foldl]. apply IH; [|by apply checksFrom_step].
  rewrite now_step. destruct ev; lia.
Qed.

(** *** What takes a session out of the registry *)





(** *** The close that empties a consumer set *)











(** *** C3 *)


End RelayEviction.

(* ===================================================================== *)
(** ** A second producer for a device                                     *)
(* ===================================================================== *)

Section RelaySupersede.
Import Relay.
Local Open Scope Z_scope.

Lemma handleDeviceConnection_onMessage ws d w x :
  onMessage (sockets (handleDeviceConnection ws d w) x)
  = onMessage (sockets w x)
    ++ if decide (x = ws) then [DeviceMessage d] else [].
Proof.
  destruct (stopPollingFallback_keeps d w) as (Hs & Hc & Hb & Hn).
  unfold handleDeviceConnection. cbv zeta.
  destruct (connections (stopPollingFallback d w) !! d) as [ex|];
    cbv beta iota.
  - destruct (isOpen (readyState (sockets (stopPollingFallback d w)
                                    (device ex))));
      unfold startPingInterval, onCloseAdd, onMessageAdd, wsClose,
        setConnections, setSockets, setTimers;
      cbn [sockets]; rewrite ?Hs; unfold update; repeat case_decide;
      try done;
      repeat match goal with
             | |- context [isOpen ?r] => destruct (isOpen r)
             end;
      cbn [onMessage]; rewrite ?app_nil_r; done.
  - unfold startPingInterval, onCloseAdd, onMessageAdd, newSet,
      setConnections, setSockets, setTimers;
      cbn [sockets fst snd]; rewrite ?Hs; unfold update; repeat case_decide;
      try done; cbn [onMessage]; rewrite ?app_nil_r; done.
Qed.

(** X25. When a producer attaches for a device that has a session,
    [close] is called on the socket in the producer slot if it is open and
    on no other socket; by the end of the call the session has the new
    socket in its producer slot, the same [Set] of consumers with the same
    members, and no cached metadata; a metadata message handled for the
    device then fills the cache. *)
Theorem second_producer_supersedes_first
    (w : World) (ws : nat) (d : string)
    (conn : SimulatorConnection) (meta : SimulatorMetadata) :
  connections w !! d = Some conn →
  device conn ≠ ws →
  let w' := handleDeviceConnection ws d w in
  (∀ x, readyState (sockets w' x) =
        if decide (x = device conn) then
          if isOpen (readyState (sockets w x)) then CLOSING
          else readyState (sockets w x)
        else readyState (sockets w x))
  ∧ readyState (sockets w' ws) = readyState (sockets w ws)
  ∧ connections w' !! d
    = Some {| device := ws; browsers := browsers conn; metadata := None;
              lastFrameTime := now w; frameCount := 0 |}
  ∧ sets w' (browsers conn) = sets w (browsers conn)
  ∧ metadata <$> connections (handleDeviceMessage d (MMetadata meta) w') !! d
    = Some (Some meta)
  ∧ onMessage (sockets w' ws) = onMessage (sockets w ws) ++ [DeviceMessage d]
  ∧ onClose (sockets w' ws)
    = onClose (sockets w ws)
      ++ [DeviceClose d; ClearInterval (length (timers w))]
  ∧ metadata <$> connections (step w' (Receives ws (Some (MMetadata meta)))) !! d
    = Some (Some meta).
Proof.
  intros L N w'.
  assert (∀ x, readyState (sockets w' x) =
        if decide (x = device conn) then
          if isOpen (readyState (sockets w x)) then CLOSING
          else readyState (sockets w x)
        else readyState (sockets w x)) as R.
  { intros x. unfold w'. by rewrite handleDeviceConnection_readyState, L. }
  assert (connections w' !! d
    = Some {| device := ws; browsers := browsers conn; metadata := None;
              lastFrameTime := now w; frameCount := 0 |}) as L'.
  { unfold w'. by rewrite handleDeviceConnection_connections, L, lookup_insert_eq. }
  assert (onMessage (sockets w' ws)
          = onMessage (sockets w ws) ++ [DeviceMessage d]) as Om.
  { unfold w'. by rewrite handleDeviceConnection_onMessage, decide_True. }
  split_and!; [done| |done| | |done| |].
  - rewrite R. by rewrite decide_False.
  - unfold w'. by rewrite (handleDeviceConnection_sets ws d w conn L).
  - unfold handleDeviceMessage. rewrite L'. rewrite connections_broadcast.
    unfold setConnections. cbn [connections]. by rewrite lookup_insert_eq.
  - destruct (handleDeviceConnection_links ws d w) as (_ & _ & Ho & _).
    unfold w'. by rewrite Ho, decide_True.
  - cbn [step]. rewrite Om, foldl_app. cbn [foldl runListener].
    set (wa := foldl _ w' (onMessage (sockets w ws))).
    assert (sessions wa = sessions w') as Sa.
    { apply (foldl_keeps (λ w0, sessions w0 = sessions w')); [|done].
      intros l w0 <-. apply runListener_message_links. }
    assert (is_Some (connections wa !! d)) as [c Lc].
    { apply (fmap_is_Some browsers). rewrite <- sessions_lookup, Sa.
      by rewrite sessions_lookup, L'. }
    unfold handleDeviceMessage. rewrite Lc. rewrite connections_broadcast.
    unfold setConnections. cbn [connections]. by rewrite lookup_insert_eq.
Qed.

Lemma second_producer_supersedes_first_witness :
  let w := Relay.run Relay.startWorld
             [Relay.DeviceConnects 0 "sim"; Relay.BrowserConnects 1 "sim";
              Relay.Receives 0
                (Some (Relay.MMetadata (Relay.mkMeta 1170 2532 15)))] in
  let w' := Relay.handleDeviceConnection 2 "sim" w in
  Relay.readyState (Relay.sockets w' 0) = Relay.CLOSING
  ∧ Relay.readyState (Relay.sockets w' 1) = Relay.OPEN
  ∧ Relay.readyState (Relay.sockets w' 2) = Relay.OPEN
  ∧ Relay.sets w' 0 = [1%nat]
  ∧ Relay.connections w' !! "sim" = Some (Relay.mkConn 2 0 None 0 0).
Proof.
  intros w w'.
  destruct (second_producer_supersedes_first w 2 "sim"
              (Relay.mkConn 0 0 (Some (Relay.mkMeta 1170 2532 15)) 0 0)
              (Relay.mkMeta 1 1 1))
    as (R & _ & L & B & _); [vm_compute; reflexivity|discriminate|].
  split_and!; [apply (R 0%nat)|apply (R 1%nat)|apply (R 2%nat)|exact B|exact L].
Defined.

End RelaySupersede.
